(** * AudioStore: the chunk streamer and the stream coordinator

    A shallow embedding of [src/lib/streamcoordinator.js]: the per-track
    [Streamer] state machine and the [StreamCoordinator] that keeps several
    of them in step, together with the part of the browser they run on
    (the audio context, the timer queue and the promises of the chunk
    store), followed by the properties of the specification that concern
    them.

    JavaScript numbers are modelled as exact rationals extended with
    [NaN] and the two infinities; rounding of doubles is not modelled.
    The statements below speak of the sums and differences the code
    computes as the expressions of the code, and rely on no more of
    them than holds of doubles as well: the order of numbers, that
    [x - x] is 0 and that [x + 0] is [x].
    Objects whose identity the code compares (audio nodes) are natural
    numbers handed out by a counter. *)

From Stdlib Require Import QArith String Ascii List Bool Lia Lqa.
From stdpp Require Import base list.
Import ListNotations.

(* ================================================================== *)
(** ** Numbers *)

Module Num.

Inductive num : Type :=
| NaN
| NegInf
| PosInf
| Fin (q : Q).

Definition zero : num := Fin 0%Q.
Definition one : num := Fin 1%Q.

(** [a + b]; the sum of two finite numbers is exact, where the code
    rounds it to a double. *)
Definition add (a b : num) : num :=
  match a, b with
  | NaN, _ | _, NaN => NaN
  | PosInf, NegInf | NegInf, PosInf => NaN
  | PosInf, _ | _, PosInf => PosInf
  | NegInf, _ | _, NegInf => NegInf
  | Fin x, Fin y => Fin (x + y)%Q
  end.

Definition neg (a : num) : num :=
  match a with
  | NaN => NaN
  | NegInf => PosInf
  | PosInf => NegInf
  | Fin x => Fin (- x)%Q
  end.

(** [a - b], exact as [a + b] is. *)
Definition sub (a b : num) : num := add a (neg b).

Definition positive (x : Q) : bool := negb (Qle_bool x 0%Q).

(** [a * b] *)
Definition mul (a b : num) : num :=
  match a, b with
  | NaN, _ | _, NaN => NaN
  | Fin x, Fin y => Fin (x * y)%Q
  | Fin x, PosInf | PosInf, Fin x =>
      if Qeq_bool x 0%Q then NaN else if positive x then PosInf else NegInf
  | Fin x, NegInf | NegInf, Fin x =>
      if Qeq_bool x 0%Q then NaN else if positive x then NegInf else PosInf
  | PosInf, PosInf | NegInf, NegInf => PosInf
  | PosInf, NegInf | NegInf, PosInf => NegInf
  end.

(** [a >= b]: false as soon as one side is [NaN]. *)
Definition ge (a b : num) : bool :=
  match a, b with
  | NaN, _ | _, NaN => false
  | PosInf, _ => true
  | _, NegInf => true
  | NegInf, _ => false
  | Fin _, PosInf => false
  | Fin x, Fin y => Qle_bool y x
  end.

(** [a === b] on numbers. *)
Definition seq (a b : num) : bool :=
  match a, b with
  | PosInf, PosInf | NegInf, NegInf => true
  | Fin x, Fin y => Qeq_bool x y
  | _, _ => false
  end.

(** Truthiness of a number, as [||] and [if] see it. *)
Definition truthy (a : num) : bool :=
  match a with
  | NaN => false
  | Fin x => negb (Qeq_bool x 0%Q)
  | _ => true
  end.

(** [Math.min( a, b )] *)
Definition min (a b : num) : num :=
  match a, b with
  | NaN, _ | _, NaN => NaN
  | _, _ => if ge b a then a else b
  end.

(** [Math.max( a, b )] *)
Definition max (a b : num) : num :=
  match a, b with
  | NaN, _ | _, NaN => NaN
  | _, _ => if ge a b then a else b
  end.

(** ToNumber of a field that holds [null] or a number. *)
Definition of_nullable (v : option num) : num :=
  match v with Some n => n | None => zero end.

(** ToNumber of a field that holds [undefined] or a number. *)
Definition of_optional (v : option num) : num :=
  match v with Some n => n | None => NaN end.

(** [Math.max.apply( Math, l )]: the maximum of no number is [-Infinity]. *)
Definition max_list (l : list (option num)) : num :=
  fold_right (fun v acc => max (of_optional v) acc) NegInf l.

(** [v || d] for a field that holds [null] or a number. *)
Definition or_else (v : option num) (d : num) : num :=
  match v with
  | Some n => if truthy n then n else d
  | None => d
  end.


End Num.

Export Num(num, NaN, NegInf, PosInf, Fin).

(* ================================================================== *)
(** ** Strings: [url.split('/').pop().split('.')[0]] *)

Fixpoint split (sep : ascii) (s : string) : list string :=
  match s with
  | EmptyString => [EmptyString]
  | String a r =>
      if Ascii.eqb a sep then EmptyString :: split sep r
      else match split sep r with
           | h :: t => String a h :: t
           | [] => [String a EmptyString]
           end
  end.

Definition pop (l : list string) : string := List.last l EmptyString.

Definition first (l : list string) : string := List.hd EmptyString l.

Definition asset_name (url : string) : string :=
  first (split "."%char (pop (split "/"%char url))).

(** [s.includes( c )], [c] being one character. *)
Fixpoint includes (c : ascii) (s : string) : bool :=
  match s with
  | EmptyString => false
  | String a r => Ascii.eqb a c || includes c r
  end.

(* ================================================================== *)
(** ** The browser: audio context, timers and store requests *)

(** An [AudioBufferSourceNode] with the duration of the buffer assigned
    to it, the only attribute of a buffer that the code reads. *)
Record bsource : Type := { src_node : nat; src_buffer : num }.

(** What runs when a request to the chunk store is answered. *)
Inductive continuation : Type :=
| PrimeK (offset : num)
| NextK (when offset : num) (output : nat).

(** A call [store.getAudioBuffer( name, offset, duration )] in flight,
    issued by the streamer at index [f_self]. *)
Record fetch : Type := {
  f_id : nat;
  f_self : nat;
  f_name : option string;
  f_offset : num;
  f_duration : num;
  f_then : continuation
}.

(** A pending [setTimeout( () => next( when, offset, output ), delay )]. *)
Record timer : Type := {
  t_id : nat;
  t_self : nat;
  t_delay : num;
  t_when : num;
  t_offset : num;
  t_output : nat
}.

(** A pending [Promise.all( promises ).then( ... )] of the coordinator:
    the requests of the [prime] calls it still waits for. *)
Record barrier : Type := { b_offset : num; b_pending : list nat }.

Record env : Type := mkEnv {
  ac_currentTime : Q;              (* ac.currentTime *)
  ac_nodes : nat;                  (* audio nodes created so far *)
  ac_edges : list (nat * nat);     (* connect( ) calls still in force *)
  ac_started : list (nat * num);   (* src.start( when ) calls *)
  ac_onended : list (nat * nat);   (* sources whose onended stops a streamer *)
  timer_next : nat;
  timers : list timer;
  fetch_next : nat;
  fetches : list fetch;
  barriers : list barrier;
  nextID : nat;                    (* the shared id counter *)
  console : list nat               (* requests whose failure was logged *)
}.

Definition set_ac_currentTime (x : Q) (e : env) : env :=
  mkEnv x (ac_nodes e) (ac_edges e) (ac_started e) (ac_onended e)
    (timer_next e) (timers e) (fetch_next e) (fetches e) (barriers e)
    (nextID e) (console e).
Definition set_ac_nodes (x : nat) (e : env) : env :=
  mkEnv (ac_currentTime e) x (ac_edges e) (ac_started e) (ac_onended e)
    (timer_next e) (timers e) (fetch_next e) (fetches e) (barriers e)
    (nextID e) (console e).
Definition set_ac_edges (x : list (nat * nat)) (e : env) : env :=
  mkEnv (ac_currentTime e) (ac_nodes e) x (ac_started e) (ac_onended e)
    (timer_next e) (timers e) (fetch_next e) (fetches e) (barriers e)
    (nextID e) (console e).
Definition set_ac_started (x : list (nat * num)) (e : env) : env :=
  mkEnv (ac_currentTime e) (ac_nodes e) (ac_edges e) x (ac_onended e)
    (timer_next e) (timers e) (fetch_next e) (fetches e) (barriers e)
    (nextID e) (console e).
Definition set_ac_onended (x : list (nat * nat)) (e : env) : env :=
  mkEnv (ac_currentTime e) (ac_nodes e) (ac_edges e) (ac_started e) x
    (timer_next e) (timers e) (fetch_next e) (fetches e) (barriers e)
    (nextID e) (console e).
Definition set_timers (n : nat) (x : list timer) (e : env) : env :=
  mkEnv (ac_currentTime e) (ac_nodes e) (ac_edges e) (ac_started e)
    (ac_onended e) n x (fetch_next e) (fetches e) (barriers e)
    (nextID e) (console e).
Definition set_fetches (n : nat) (x : list fetch) (e : env) : env :=
  mkEnv (ac_currentTime e) (ac_nodes e) (ac_edges e) (ac_started e)
    (ac_onended e) (timer_next e) (timers e) n x (barriers e)
    (nextID e) (console e).
Definition set_barriers (x : list barrier) (e : env) : env :=
  mkEnv (ac_currentTime e) (ac_nodes e) (ac_edges e) (ac_started e)
    (ac_onended e) (timer_next e) (timers e) (fetch_next e) (fetches e) x
    (nextID e) (console e).
Definition set_nextID (x : nat) (e : env) : env :=
  mkEnv (ac_currentTime e) (ac_nodes e) (ac_edges e) (ac_started e)
    (ac_onended e) (timer_next e) (timers e) (fetch_next e) (fetches e)
    (barriers e) x (console e).
Definition set_console (x : list nat) (e : env) : env :=
  mkEnv (ac_currentTime e) (ac_nodes e) (ac_edges e) (ac_started e)
    (ac_onended e) (timer_next e) (timers e) (fetch_next e) (fetches e)
    (barriers e) (nextID e) x.

(** The clock of the audio device, as a number. *)
Definition now (e : env) : num := Fin (ac_currentTime e).

(** [ac.createGain()] and [ac.createBufferSource()]: a node nobody has
    seen before. *)
Definition createNode (e : env) : nat * env :=
  (ac_nodes e, set_ac_nodes (S (ac_nodes e)) e).

Definition createGain : env -> nat * env := createNode.

(** [ac.createBufferSource()] followed by [src.buffer = record]. *)
Definition createBufferSource (record : num) (e : env) : bsource * env :=
  let (n, e1) := createNode e in
  ({| src_node := n; src_buffer := record |}, e1).

(** [a.connect( b )] *)
Definition connect (a b : nat) (e : env) : env :=
  set_ac_edges (ac_edges e ++ [(a, b)]) e.

(** [a.disconnect()]: every connection leaving [a] goes. *)
Definition disconnect (a : nat) (e : env) : env :=
  set_ac_edges (List.filter (fun p => negb (Nat.eqb (fst p) a)) (ac_edges e)) e.

(** [src.start( when )] *)
Definition start (src : nat) (when : num) (e : env) : env :=
  set_ac_started (ac_started e ++ [(src, when)]) e.

(** [src.onended = () => this.stop()] *)
Definition on_ended_stop (src self : nat) (e : env) : env :=
  set_ac_onended
    ((src, self) :: List.filter (fun p => negb (Nat.eqb (fst p) src)) (ac_onended e)) e.

(** [src.onended = () => {}] *)
Definition on_ended_nothing (src : nat) (e : env) : env :=
  set_ac_onended (List.filter (fun p => negb (Nat.eqb (fst p) src)) (ac_onended e)) e.

(** [setTimeout( () => next( when, offset, output ), delay )] *)
Definition setTimeout (self : nat) (delay when offset : num) (output : nat)
    (e : env) : nat * env :=
  let id := timer_next e in
  (id, set_timers (S id)
         (timers e ++ [{| t_id := id; t_self := self; t_delay := delay;
                          t_when := when; t_offset := offset;
                          t_output := output |}]) e).

(** Timer [id] is no longer pending. *)
Definition drop_timer (id : nat) (e : env) : env :=
  set_timers (timer_next e)
    (List.filter (fun t => negb (Nat.eqb (t_id t) id)) (timers e)) e.

(** [clearTimeout( handle )]; an [undefined] handle clears nothing. *)
Definition clearTimeout (handle : option nat) (e : env) : env :=
  match handle with
  | Some id => drop_timer id e
  | None => e
  end.

(** [store.getAudioBuffer( name, offset, duration )], with what is to
    run on its answer. *)
Definition getAudioBuffer (self : nat) (name : option string)
    (offset duration : num) (k : continuation) (e : env) : nat * env :=
  let id := fetch_next e in
  (id, set_fetches (S id)
         (fetches e ++ [{| f_id := id; f_self := self; f_name := name;
                           f_offset := offset; f_duration := duration;
                           f_then := k |}]) e).

(** Errors thrown by the code. *)
Inductive error : Type :=
| NotLoaded (name : option string)              (* asset ... not loaded *)
| OffsetTooLarge (offset : num) (duration : option num)
                                                (* ... is greater than ... *)
| AlreadyPlaying (name : option string)         (* stream ... is already playing *)
| TypeError                                     (* member access on undefined *)
| StoreError.                                   (* a rejected store or network request *)

Inductive result (A : Type) : Type :=
| Ok (a : A)
| Throw (err : error).
Arguments Ok {A} a.
Arguments Throw {A} err.

(* ================================================================== *)
(** ** class Streamer *)

Module Streamer.

Record t : Type := mk {
  streamID : nat;
  trackNode : nat;
  gain : nat;
  url : option string;
  name : option string;
  garbageBuffer : bool;             (* is the throwaway buffer still there *)
  startTime : option num;           (* null or a number *)
  startOffset : option num;         (* null or a number *)
  stopped : bool;
  ready : bool;
  duration : option num;            (* undefined until loaded *)
  primed : option (num * bsource);  (* { offset, src } *)
  ending : option nat;
  fetchtimer : option nat
}.

Definition set_trackNode (x : nat) (s : t) : t :=
  mk (streamID s) x (gain s) (url s) (name s) (garbageBuffer s) (startTime s)
     (startOffset s) (stopped s) (ready s) (duration s) (primed s) (ending s)
     (fetchtimer s).
Definition set_source (u n : option string) (s : t) : t :=
  mk (streamID s) (trackNode s) (gain s) u n (garbageBuffer s) (startTime s)
     (startOffset s) (stopped s) (ready s) (duration s) (primed s) (ending s)
     (fetchtimer s).
Definition set_garbageBuffer (x : bool) (s : t) : t :=
  mk (streamID s) (trackNode s) (gain s) (url s) (name s) x (startTime s)
     (startOffset s) (stopped s) (ready s) (duration s) (primed s) (ending s)
     (fetchtimer s).
Definition set_startTime (x : option num) (s : t) : t :=
  mk (streamID s) (trackNode s) (gain s) (url s) (name s) (garbageBuffer s) x
     (startOffset s) (stopped s) (ready s) (duration s) (primed s) (ending s)
     (fetchtimer s).
Definition set_startOffset (x : option num) (s : t) : t :=
  mk (streamID s) (trackNode s) (gain s) (url s) (name s) (garbageBuffer s)
     (startTime s) x (stopped s) (ready s) (duration s) (primed s) (ending s)
     (fetchtimer s).
Definition set_stopped (x : bool) (s : t) : t :=
  mk (streamID s) (trackNode s) (gain s) (url s) (name s) (garbageBuffer s)
     (startTime s) (startOffset s) x (ready s) (duration s) (primed s)
     (ending s) (fetchtimer s).
Definition set_loaded (d : option num) (s : t) : t :=
  mk (streamID s) (trackNode s) (gain s) (url s) (name s) (garbageBuffer s)
     (startTime s) (startOffset s) (stopped s) true d (primed s) (ending s)
     (fetchtimer s).
Definition set_primed (x : option (num * bsource)) (s : t) : t :=
  mk (streamID s) (trackNode s) (gain s) (url s) (name s) (garbageBuffer s)
     (startTime s) (startOffset s) (stopped s) (ready s) (duration s) x
     (ending s) (fetchtimer s).
Definition set_ending (x : option nat) (s : t) : t :=
  mk (streamID s) (trackNode s) (gain s) (url s) (name s) (garbageBuffer s)
     (startTime s) (startOffset s) (stopped s) (ready s) (duration s)
     (primed s) x (fetchtimer s).
Definition set_fetchtimer (x : option nat) (s : t) : t :=
  mk (streamID s) (trackNode s) (gain s) (url s) (name s) (garbageBuffer s)
     (startTime s) (startOffset s) (stopped s) (ready s) (duration s)
     (primed s) (ending s) x.

(** [Streamer.getNextID()]: post-increment of the shared counter. *)
Definition getNextID (e : env) : nat * env :=
  (nextID e, set_nextID (S (nextID e)) e).

(** The duration of the one-sample throwaway buffer,
    [ac.createBuffer( 1, 1, 44100 )]. *)
Definition garbage_duration : num := Fin (1 # 44100).

(** [new Streamer( url, store, ac )]. A truthy [url] runs into
    [this.clips.push( tmpClip )]; no [clips] was ever assigned. *)
Definition constructor (url : option string) (e : env) : result t * env :=
  let (id, e1) := getNextID e in
  let (track, e2) := createGain e1 in
  let (g, e3) := createGain e2 in
  match url with
  | Some (String _ _) => (Throw TypeError, e3)
  | _ =>
      (Ok {| streamID := id; trackNode := track; gain := g;
             url := None; name := None; garbageBuffer := true;
             startTime := None; startOffset := None;
             stopped := true; ready := false; duration := None;
             primed := None; ending := None; fetchtimer := None |},
       connect track g e3)
  end.

(** [addClip( clip )], [clip.fileName] being a string. *)
Definition addClip (fileName : string) (s : t) : t :=
  set_source (Some fileName) (Some (asset_name fileName)) s.

(** [if ( typeof offset !== 'number' ) offset = this.startOffset !== null
    ? this.startOffset : 0] *)
Definition default_offset (offset : option num) (s : t) : num :=
  match offset with
  | Some o => o
  | None => match startOffset s with Some o => o | None => Num.zero end
  end.

(** [Math.min( 1, this.duration - offset )] *)
Definition chunk_duration (s : t) (offset : num) : num :=
  Num.min Num.one (Num.sub (Num.of_optional (duration s)) offset).

(** [prime( offset )] up to its [await]: either the promise is rejected
    at once, or one request to the store is in flight. *)
Definition prime (self : nat) (offset : option num) (s : t) (e : env)
    : result nat * env :=
  let offset := default_offset offset s in
  if negb (ready s) then (Throw (NotLoaded (name s)), e)
  else if Num.ge offset (Num.of_optional (duration s))
  then (Throw (OffsetTooLarge offset (duration s)), e)
  else
    let (id, e1) :=
      getAudioBuffer self (name s) offset (chunk_duration s offset)
        (PrimeK offset) e in
    (Ok id, e1).

(** [prime] after its [await], [record] being the answer of the store. *)
Definition prime_resume (offset record : num) (s : t) (e : env) : t * env :=
  let (src, e1) := createBufferSource record e in
  (set_primed (Some (offset, src)) s, e1).

(** [stop()] *)
Definition stop (s : t) (e : env) : t * env :=
  if stopped s || negb (ready s) then (s, e)
  else
    let e1 := disconnect (trackNode s) e in
    let (track, e2) := createGain e1 in
    let e3 := connect track (gain s) e2 in
    let elapsed := Num.sub (now e3) (Num.of_nullable (startTime s)) in
    let offset := Num.add (Num.of_nullable (startOffset s)) elapsed in
    let offset :=
      if Num.ge offset (Num.of_optional (duration s)) then Num.zero
      else offset in
    (set_startOffset (Some offset)
       (set_startTime None (set_trackNode track (set_stopped true s))),
     clearTimeout (fetchtimer s) e3).

(** The closure [play] of [stream]. *)
Definition play (self : nat) (src : bsource) (when offset : num)
    (output : nat) (s : t) (e : env) : t * env :=
  let e1 := connect (src_node src) output e in
  let e2 := start (src_node src) when e1 in
  let dur := src_buffer src in
  let when := Num.add when dur in
  let offset := Num.add offset dur in
  if Num.ge offset (Num.of_optional (duration s))
  then (set_ending (Some (src_node src)) s,
        on_ended_stop (src_node src) self e2)
  else
    let fetchtime :=
      Num.sub (Num.mul (Num.sub when (now e2)) (Fin 1000)) (Fin 2000) in
    let (id, e3) := setTimeout self fetchtime when offset output e2 in
    (set_fetchtimer (Some id) s, e3).

(** The closure [next] of [stream], up to the request it issues. *)
Definition next (self : nat) (when offset : num) (output : nat)
    (s : t) (e : env) : env :=
  snd (getAudioBuffer self (name s) offset (chunk_duration s offset)
         (NextK when offset output) e).

(** The [.then( record => ... )] of [next]. *)
Definition next_then (self : nat) (when offset : num) (output : nat)
    (record : num) (s : t) (e : env) : t * env :=
  if stopped s || negb (Nat.eqb output (trackNode s)) then (s, e)
  else
    let (src, e1) := createBufferSource record e in
    let when := if Num.seq when Num.zero then now e1 else when in
    let s1 :=
      match startTime s with
      | None => set_startTime (Some when) s
      | Some _ => s
      end in
    play self src when offset output s1 e1.

(** [stream( offset )] *)
Definition stream (self : nat) (offset : option num) (s : t) (e : env)
    : result unit * (t * env) :=
  let offset := default_offset offset s in
  if negb (ready s) then (Throw (NotLoaded (name s)), (s, e))
  else if negb (stopped s) then (Throw (AlreadyPlaying (name s)), (s, e))
  else
    let (s1, e1) :=
      match ending s with
      | Some src => (set_ending None s, on_ended_nothing src e)
      | None => (s, e)
      end in
    if Num.ge offset (Num.of_optional (duration s1))
    then (Ok tt, stop s1 e1)
    else
      let (s2, e2) :=
        if garbageBuffer s1
        then
          let (src, e') := createBufferSource garbage_duration e1 in
          (set_garbageBuffer false s1, start (src_node src) Num.zero e')
        else (s1, e1) in
      let s3 := set_startOffset (Some offset) (set_stopped false s2) in
      let chunk := primed s3 in
      let s4 := set_primed None s3 in
      match chunk with
      | Some (at_offset, src) =>
          if Num.seq at_offset offset
          then (Ok tt, play self src (now e2) offset (trackNode s4) s4 e2)
          else (Ok tt, (s4, next self Num.zero offset (trackNode s4) s4 e2))
      | None => (Ok tt, (s4, next self Num.zero offset (trackNode s4) s4 e2))
      end.

(** [currentTime()] *)
Definition currentTime (s : t) (e : env) : option num :=
  if stopped s then startOffset s
  else
    let start := Num.or_else (startTime s) (now e) in
    let offset := Num.or_else (startOffset s) Num.zero in
    let elapsed := Num.sub (now e) start in
    Some (Num.add offset elapsed).

(** [seek( offset )] *)
Definition seek (self : nat) (offset : num) (s : t) (e : env)
    : result unit * (t * env) :=
  if negb (stopped s)
  then let (s1, e1) := stop s e in stream self (Some offset) s1 e1
  else (Ok tt, (set_startOffset (Some offset) s, e)).

(** [load( force )], run to completion. [cached] is the answer of
    [store.getMetadata( name )] ([None] when it rejects) and [fetched]
    that of the download, decode and [store.saveAudioBuffer] ([None]
    when one of them fails); each carries the [duration] of the
    metadata. *)
Definition load (force : bool) (cached fetched : option (option num))
    (s : t) : result bool * t :=
  match (if force then None else cached) with
  | Some d => (Ok true, set_loaded d s)
  | None =>
      match fetched with
      | Some d => (Ok true, set_loaded d s)
      | None => (Throw StoreError, s)
      end
  end.

End Streamer.

(* ================================================================== *)
(** ** class StreamCoordinator *)

Module StreamCoordinator.

Inductive mode : Type :=
| AudioBufferSourceNode
| AudioWorkletNode
| OtherMode.

Record t : Type := mk {
  playbackMode : mode;
  streamers : list Streamer.t;
  garbageBuffer : bool;
  startTime : option num;
  startOffset : option num;
  stopped : bool;
  ready : bool;
  duration : option num
}.

Definition set_streamers (x : list Streamer.t) (c : t) : t :=
  mk (playbackMode c) x (garbageBuffer c) (startTime c) (startOffset c)
     (stopped c) (ready c) (duration c).
Definition set_garbageBuffer (x : bool) (c : t) : t :=
  mk (playbackMode c) (streamers c) x (startTime c) (startOffset c)
     (stopped c) (ready c) (duration c).
Definition set_startTime (x : option num) (c : t) : t :=
  mk (playbackMode c) (streamers c) (garbageBuffer c) x (startOffset c)
     (stopped c) (ready c) (duration c).
Definition set_startOffset (x : option num) (c : t) : t :=
  mk (playbackMode c) (streamers c) (garbageBuffer c) (startTime c) x
     (stopped c) (ready c) (duration c).
Definition set_stopped (x : bool) (c : t) : t :=
  mk (playbackMode c) (streamers c) (garbageBuffer c) (startTime c)
     (startOffset c) x (ready c) (duration c).
Definition set_duration (x : option num) (c : t) : t :=
  mk (playbackMode c) (streamers c) (garbageBuffer c) (startTime c)
     (startOffset c) (stopped c) (ready c) x.

(** [new StreamCoordinator( urls, store, audioContext, playbackMode )];
    [urls] is stored and never read. *)
Definition constructor (playbackMode : mode) : t :=
  {| playbackMode := playbackMode;
     streamers := [];
     garbageBuffer :=
       match playbackMode with AudioBufferSourceNode => true | _ => false end;
     startTime := None; startOffset := None;
     stopped := true; ready := false; duration := None |}.

(** Run a method of the streamer at index [i], which is [this] there. *)
Definition at_streamer (i : nat) (f : Streamer.t -> env -> Streamer.t * env)
    (c : t) (e : env) : t * env :=
  match streamers c !! i with
  | Some s =>
      let (s', e') := f s e in
      (set_streamers (<[i := s']> (streamers c)) c, e')
  | None => (c, e)
  end.

(** [l.forEach( streamer => f( streamer ) )], [i] being the index of the
    head of [l]; an exception thrown by [f] ends the loop. *)
Fixpoint forEach
    (f : nat -> Streamer.t -> env -> result unit * (Streamer.t * env))
    (i : nat) (l : list Streamer.t) (e : env)
    : result unit * (list Streamer.t * env) :=
  match l with
  | [] => (Ok tt, ([], e))
  | s :: r =>
      match f i s e with
      | (Ok _, (s', e1)) =>
          let '(res, (r', e2)) := forEach f (S i) r e1 in
          (res, (s' :: r', e2))
      | (Throw err, (s', e1)) => (Throw err, (s' :: r, e1))
      end
  end.

(** [streamer => streamer.stop()] *)
Definition do_stop (i : nat) (s : Streamer.t) (e : env)
    : result unit * (Streamer.t * env) :=
  (Ok tt, Streamer.stop s e).

(** [streamer => streamer.stream( offset )] *)
Definition do_stream (offset : num) (i : nat) (s : Streamer.t) (e : env)
    : result unit * (Streamer.t * env) :=
  Streamer.stream i (Some offset) s e.

(** [l.map( streamer => streamer.prime( offset ) )]: one promise each,
    rejected already or waiting for the store. *)
Fixpoint map_prime (offset : num) (i : nat) (l : list Streamer.t) (e : env)
    : list (result nat) * env :=
  match l with
  | [] => ([], e)
  | s :: r =>
      let (p, e1) := Streamer.prime i (Some offset) s e in
      let (ps, e2) := map_prime offset (S i) r e1 in
      (p :: ps, e2)
  end.

(** The requests a list of promises waits for, unless one of them is
    rejected. *)
Fixpoint awaited (ps : list (result nat)) : option (list nat) :=
  match ps with
  | [] => Some []
  | Ok id :: r => option_map (cons id) (awaited r)
  | Throw _ :: _ => None
  end.

(** [Promise.all( promises ).then( ... )]; a rejected promise rejects
    the whole and the callback is never run. *)
Definition promise_all (ps : list (result nat)) (offset : num) (e : env)
    : env :=
  match awaited ps with
  | Some ids =>
      set_barriers (barriers e ++ [{| b_offset := offset; b_pending := ids |}]) e
  | None => e
  end.

(** The callback of [Promise.all( promises ).then] in [stream]. *)
Definition barrier_then (offset : num) (c : t) (e : env) : t * env :=
  let c1 :=
    match startTime c with
    | None => set_startTime (Some (now e)) c
    | Some _ => c
    end in
  let '(_, (l, e1)) := forEach (do_stream offset) 0 (streamers c1) e in
  (set_streamers l c1, e1).

Definition is_settled (b : barrier) : bool :=
  match b_pending b with [] => true | _ => false end.

(** The microtasks at the end of a task: every [Promise.all] that waits
    for nothing any more runs its callback. *)
Definition settle (c : t) (e : env) : t * env :=
  let fired := List.filter is_settled (barriers e) in
  let e1 := set_barriers (List.filter (fun b => negb (is_settled b)) (barriers e)) e in
  fold_left (fun (w : t * env) b => barrier_then (b_offset b) (fst w) (snd w))
    fired (c, e1).

(** [stream( offset )], with the microtasks that follow it. *)
Definition stream (offset : option num) (c : t) (e : env) : t * env :=
  let offset :=
    match offset with
    | Some o => o
    | None => match startOffset c with Some o => o | None => Num.zero end
    end in
  let (c1, e1) :=
    if garbageBuffer c
    then
      let (src, e') := createBufferSource Streamer.garbage_duration e in
      (set_garbageBuffer false c, start (src_node src) Num.zero e')
    else (c, e) in
  let (promises, e2) := map_prime offset 0 (streamers c1) e1 in
  let e3 := promise_all promises offset e2 in
  settle (set_startOffset (Some offset) (set_stopped false c1)) e3.

(** [stop()] *)
Definition stop (c : t) (e : env) : t * env :=
  if stopped c then (c, e)
  else
    let '(_, (l, e1)) := forEach do_stop 0 (streamers c) e in
    let elapsed := Num.sub (now e1) (Num.of_nullable (startTime c)) in
    let offset := Num.add (Num.of_nullable (startOffset c)) elapsed in
    let offset :=
      if Num.ge offset (Num.of_optional (duration c)) then Num.zero
      else offset in
    (set_startOffset (Some offset)
       (set_startTime None (set_stopped true (set_streamers l c))), e1).

(** The position [currentTime] computes while playing. *)
Definition position (c : t) (e : env) : num :=
  let start := Num.or_else (startTime c) (now e) in
  let offset := Num.or_else (startOffset c) Num.zero in
  let elapsed := Num.sub (now e) start in
  Num.add offset elapsed.

(** [currentTime()] *)
Definition currentTime (c : t) (e : env) : option num * (t * env) :=
  if stopped c then (startOffset c, (c, e))
  else
    let current := position c e in
    if Num.ge current (Num.of_optional (duration c))
    then (Some Num.zero, stop c e)
    else (Some current, (c, e)).

(** [seek( offset )] *)
Definition seek (offset : num) (c : t) (e : env) : t * env :=
  if negb (stopped c)
  then let (c1, e1) := stop c e in stream (Some offset) c1 e1
  else (set_startOffset (Some offset) c, e).

(** [l.map( streamer => streamer.load() )], every load run to its end;
    [store i] is what the store and the network answer to the streamer
    at index [i]. *)
Fixpoint map_load (store : nat -> option (option num) * option (option num))
    (i : nat) (l : list Streamer.t) : list (result bool) * list Streamer.t :=
  match l with
  | [] => ([], [])
  | s :: r =>
      let (p, s') := Streamer.load false (fst (store i)) (snd (store i)) s in
      let (ps, r') := map_load store (S i) r in
      (p :: ps, s' :: r')
  end.

Definition fulfilled {A} (p : result A) : bool :=
  match p with Ok _ => true | Throw _ => false end.

(** [load()] *)
Definition load (store : nat -> option (option num) * option (option num))
    (c : t) : result unit * t :=
  let (promises, l) := map_load store 0 (streamers c) in
  let c1 := set_streamers l c in
  if forallb fulfilled promises
  then (Ok tt,
        set_duration (Some (Num.max_list (map Streamer.duration l))) c1)
  else (Throw StoreError, c1).

(** [createStream()]. Modelled from the spec: the class
    [AudioWorkletStreamer] built in the [AudioWorkletNode] mode is not
    part of the source; the playback mode "affects only how a Streamer's
    output sink is constructed", so the same streamer is built in both
    modes. *)
Definition createStream (c : t) (e : env) : option nat * (t * env) :=
  match playbackMode c with
  | OtherMode => (None, (c, e))
  | _ =>
      match Streamer.constructor None e with
      | (Ok s, e1) =>
          (Some (Streamer.streamID s),
           (set_streamers (streamers c ++ [s]) c, e1))
      | (Throw _, e1) => (None, (c, e1))
      end
  end.

(** The index of the first streamer with the given id. *)
Fixpoint index_of (id : nat) (i : nat) (l : list Streamer.t) : option nat :=
  match l with
  | [] => None
  | s :: r =>
      if Nat.eqb (Streamer.streamID s) id then Some i
      else index_of id (S i) r
  end.

(** [findStreamer( streamHandle )]: the streamer of the collection, or a
    new one that belongs to nobody. *)
Definition findStreamer (id : nat) (c : t) (e : env)
    : (nat + result Streamer.t) * env :=
  match index_of id 0 (streamers c) with
  | Some i => (inl i, e)
  | None => let (d, e1) := Streamer.constructor None e in (inr d, e1)
  end.

(** [addClipToStream( streamHandle, clip )] *)
Definition addClipToStream (id : nat) (fileName : string) (c : t) (e : env)
    : t * env :=
  match findStreamer id c e with
  | (inl i, e1) =>
      at_streamer i (fun s e' => (Streamer.addClip fileName s, e')) c e1
  | (inr _, e1) => (c, e1)
  end.

(** [getNode( streamHandle )] *)
Definition getNode (id : nat) (c : t) (e : env) : result nat * env :=
  match findStreamer id c e with
  | (inl i, e1) =>
      match streamers c !! i with
      | Some s => (Ok (Streamer.trackNode s), e1)
      | None => (Throw TypeError, e1)
      end
  | (inr (Ok d), e1) => (Ok (Streamer.trackNode d), e1)
  | (inr (Throw err), e1) => (Throw err, e1)
  end.

(** The [gain.value] of the gain nodes, by node. Nothing but [solo]
    reads or writes them. *)
Definition gains : Type := nat -> num.

(** [node.gain.value = v] *)
Definition set_gain (node : nat) (v : num) (g : gains) : gains :=
  fun n => if Nat.eqb n node then v else g n.

(** [this.streamers.forEach( streamer => streamer.gain.gain.value = 0 )] *)
Definition mute_all (l : list Streamer.t) (g : gains) : gains :=
  fold_left (fun g s => set_gain (Streamer.gain s) Num.zero g) l g.

(** [solo( index )], [index] being an integer; [this.streamers[ index ]]
    is [undefined] out of range, and reading [gain] of it throws after
    every streamer was muted. *)
Definition solo (index : Z) (c : t) (g : gains) : result unit * gains :=
  let g1 := mute_all (streamers c) g in
  match (if (0 <=? index)%Z then streamers c !! Z.to_nat index else None) with
  | Some s => (Ok tt, set_gain (Streamer.gain s) Num.one g1)
  | None => (Throw TypeError, g1)
  end.

End StreamCoordinator.

(* ================================================================== *)
(** ** The event loop *)

(** A world is the coordinator with the streamers it owns, and the
    browser around them. Every task of the event loop is one [action]:
    a call from the application, or the browser running a callback.
    Tasks come in any order: a timer may fire and a source may end at
    any time, and the store answers its requests in any order and after
    any delay. A load is one action, the answers of the store to its
    metadata requests being given with the call. *)

Definition world : Type := StreamCoordinator.t * env.

Inductive method : Type :=
| Prime (offset : option num)
| Stream (offset : option num)
| Stop
| Seek (offset : num)
| CurrentTime
| Load (force : bool) (cached fetched : option (option num))
| AddClip (fileName : string).

Inductive cmethod : Type :=
| CStream (offset : option num)
| CStop
| CSeek (offset : num)
| CCurrentTime
| CLoad (store : nat -> option (option num) * option (option num))
| CreateStream
| AddClipToStream (id : nat) (fileName : string).

Inductive action : Type :=
| Tick (dt : Q)                         (* the device clock advances *)
| OnStreamer (i : nat) (m : method)     (* streamers[ i ].m( ... ) *)
| OnCoordinator (m : cmethod)
| Resolved (id : nat) (record : num)    (* the store answers a request *)
| Rejected (id : nat)                   (* the store fails a request *)
| Timeout (id : nat)                    (* a timer fires *)
| Ended (src : nat).                    (* a source has played to its end *)

Definition call (i : nat) (m : method) (s : Streamer.t) (e : env)
    : Streamer.t * env :=
  match m with
  | Prime offset => (s, snd (Streamer.prime i offset s e))
  | Stream offset => snd (Streamer.stream i offset s e)
  | Stop => Streamer.stop s e
  | Seek offset => snd (Streamer.seek i offset s e)
  | CurrentTime => (s, e)
  | Load force cached fetched => (snd (Streamer.load force cached fetched s), e)
  | AddClip fileName => (Streamer.addClip fileName s, e)
  end.

Definition ccall (m : cmethod) (c : StreamCoordinator.t) (e : env) : world :=
  match m with
  | CStream offset => StreamCoordinator.stream offset c e
  | CStop => StreamCoordinator.stop c e
  | CSeek offset => StreamCoordinator.seek offset c e
  | CCurrentTime => snd (StreamCoordinator.currentTime c e)
  | CLoad store => (snd (StreamCoordinator.load store c), e)
  | CreateStream => snd (StreamCoordinator.createStream c e)
  | AddClipToStream id fileName =>
      StreamCoordinator.addClipToStream id fileName c e
  end.

Definition has_id (id : nat) (f : fetch) : bool := Nat.eqb (f_id f) id.

Definition drop_fetch (id : nat) (e : env) : env :=
  set_fetches (fetch_next e)
    (List.filter (fun f => negb (has_id id f)) (fetches e)) e.

Definition waits_for (id : nat) (b : barrier) : bool :=
  existsb (Nat.eqb id) (b_pending b).

(** A [prime] promise is fulfilled: nobody waits for it any more. *)
Definition fulfil (id : nat) (e : env) : env :=
  set_barriers
    (map (fun b => {| b_offset := b_offset b;
                     b_pending :=
                       List.filter (fun j => negb (Nat.eqb id j)) (b_pending b) |})
         (barriers e)) e.

(** A [prime] promise is rejected: every [Promise.all] that waits for it
    is rejected with it. *)
Definition fail (id : nat) (e : env) : env :=
  set_barriers (List.filter (fun b => negb (waits_for id b)) (barriers e)) e.

(** The store answers request [id] with [record]. *)
Definition resolve (id : nat) (record : num) (c : StreamCoordinator.t)
    (e : env) : world :=
  match List.find (has_id id) (fetches e) with
  | None => (c, e)
  | Some f =>
      let e1 := drop_fetch id e in
      match f_then f with
      | NextK when offset output =>
          StreamCoordinator.at_streamer (f_self f)
            (Streamer.next_then (f_self f) when offset output record) c e1
      | PrimeK offset =>
          let (c1, e2) :=
            StreamCoordinator.at_streamer (f_self f)
              (Streamer.prime_resume offset record) c e1 in
          StreamCoordinator.settle c1 (fulfil id e2)
      end
  end.

(** The store fails request [id]: [next] logs the error; [prime]
    rejects. *)
Definition reject (id : nat) (c : StreamCoordinator.t) (e : env) : world :=
  match List.find (has_id id) (fetches e) with
  | None => (c, e)
  | Some f =>
      let e1 := drop_fetch id e in
      match f_then f with
      | NextK _ _ _ => (c, set_console (console e1 ++ [id]) e1)
      | PrimeK _ => (c, fail id e1)
      end
  end.

(** Timer [id] fires and runs [next( when, offset, output )]. *)
Definition fire (id : nat) (c : StreamCoordinator.t) (e : env) : world :=
  match List.find (fun t => Nat.eqb (t_id t) id) (timers e) with
  | None => (c, e)
  | Some t =>
      StreamCoordinator.at_streamer (t_self t)
        (fun s e' =>
           (s, Streamer.next (t_self t) (t_when t) (t_offset t) (t_output t) s e'))
        c (drop_timer id e)
  end.

(** Source [src] has ended and runs its [onended]. *)
Definition ended (src : nat) (c : StreamCoordinator.t) (e : env) : world :=
  match List.find (fun p => Nat.eqb (fst p) src) (ac_onended e) with
  | None => (c, e)
  | Some (_, self) =>
      StreamCoordinator.at_streamer self Streamer.stop c
        (on_ended_nothing src e)
  end.

Definition step (a : action) (w : world) : world :=
  let (c, e) := w in
  match a with
  | Tick dt =>
      if Qle_bool 0 dt
      then (c, set_ac_currentTime (ac_currentTime e + dt)%Q e)
      else (c, e)
  | OnStreamer i m => StreamCoordinator.at_streamer i (call i m) c e
  | OnCoordinator m => ccall m c e
  | Resolved id record => resolve id record c e
  | Rejected id => reject id c e
  | Timeout id => fire id c e
  | Ended src => ended src c e
  end.

Definition run (l : list action) (w : world) : world :=
  fold_left (fun w a => step a w) l w.

(** A page just loaded: a new audio context and a new coordinator. *)
Definition env0 : env :=
  {| ac_currentTime := 0; ac_nodes := 0; ac_edges := []; ac_started := [];
     ac_onended := []; timer_next := 0; timers := []; fetch_next := 0;
     fetches := []; barriers := []; nextID := 0; console := [] |}.

Definition boot (m : StreamCoordinator.mode) : world :=
  (StreamCoordinator.constructor m, env0).

Inductive reachable : world -> Prop :=
| reachable_boot m : reachable (boot m)
| reachable_step a w : reachable w -> reachable (step a w).

(* ================================================================== *)
(** ** Scenarios *)

(** The store has every asset cached, with the same duration. *)
Definition cached_all (d : Q) (i : nat)
    : option (option num) * option (option num) :=
  (Some (Some (Fin d)), None).

(** Two assets are cached, of durations [a] and [b]. *)
Definition cached_two (a b : Q) (i : nat)
    : option (option num) * option (option num) :=
  match i with
  | O => (Some (Some (Fin a)), None)
  | _ => (Some (Some (Fin b)), None)
  end.

(** One loaded track of five seconds, at device time 10. *)
Definition one_track : world :=
  run [OnCoordinator CreateStream;
       OnCoordinator (CLoad (cached_all 5));
       Tick 10]
      (boot StreamCoordinator.AudioBufferSourceNode).

(** Two loaded tracks of three and five seconds, started together from
    the beginning at device time 1, the store answering at once. *)
Definition two_tracks_playing : world :=
  run [OnCoordinator CreateStream;
       OnCoordinator CreateStream;
       OnCoordinator (CLoad (cached_two 3 5));
       Tick 1;
       OnCoordinator (CStream (Some (Fin 0)));
       Resolved 0 (Fin 1);
       Resolved 1 (Fin 1)]
      (boot StreamCoordinator.AudioBufferSourceNode).

(** The track of [one_track] played from the start, its first chunk
    arriving at once, and stopped two seconds later. *)
Definition paused_at_two : world :=
  run [OnStreamer 0 (Stream (Some (Fin 0)));
       Resolved 0 (Fin 1);
       Tick 2;
       OnStreamer 0 Stop]
      one_track.

(** The streamer of [paused_at_two]. *)
Definition paused_streamer : Streamer.t :=
  {| Streamer.streamID := 0; Streamer.trackNode := 4; Streamer.gain := 1;
     Streamer.url := None; Streamer.name := None;
     Streamer.garbageBuffer := false;
     Streamer.startTime := None; Streamer.startOffset := Some (Fin 2);
     Streamer.stopped := true; Streamer.ready := true;
     Streamer.duration := Some (Fin 5);
     Streamer.primed := None; Streamer.ending := None;
     Streamer.fetchtimer := Some 0 |}.

(** The track of [one_track] started from the beginning, the store not
    having answered yet. *)
Definition one_track_waiting : world :=
  run [OnStreamer 0 (Stream (Some (Fin 0)))] one_track.

(** The request of [one_track_waiting] that is in flight. *)
Definition first_request : fetch :=
  {| f_id := 0; f_self := 0; f_name := None; f_offset := Fin 0;
     f_duration := Fin 1; f_then := NextK (Fin 0) (Fin 0) 0 |}.

(** Two loaded tracks of three and five seconds, at device time 1. *)
Definition two_tracks_loaded : world :=
  run [OnCoordinator CreateStream;
       OnCoordinator CreateStream;
       OnCoordinator (CLoad (cached_two 3 5));
       Tick 1]
      (boot StreamCoordinator.AudioBufferSourceNode).

(** One loaded track of two and a half seconds, at device time 10. *)
Definition short_track : world :=
  run [OnCoordinator CreateStream;
       OnCoordinator (CLoad (cached_all 2.5));
       Tick 10]
      (boot StreamCoordinator.AudioBufferSourceNode).

(** The window of the asset a request asks for: offset and length. *)
Definition window (f : fetch) : num * num := (f_offset f, f_duration f).

(** The streamer at index [i] of a world. *)
Definition streamer_at (i : nat) (w : world) : option Streamer.t :=
  StreamCoordinator.streamers (fst w) !! i.

(* ================================================================== *)
(** ** What a task does to one streamer *)

(** Everything the event loop ever runs on a streamer: a method called
    on it, or one of its callbacks. *)
Inductive prim : Type :=
| Call (m : method)
| PrimeResume (offset record : num)
| NextThen (when offset : num) (output : nat) (record : num).

Definition exec (i : nat) (p : prim) (s : Streamer.t) (e : env)
    : Streamer.t * env :=
  match p with
  | Call m => call i m s e
  | PrimeResume offset record => Streamer.prime_resume offset record s e
  | NextThen when offset output record =>
      Streamer.next_then i when offset output record s e
  end.

(** What action [a], taken in world [w], may run on the streamer at
    index [i]; a timer that fires runs [next], which leaves the streamer
    as it is. *)
Definition uses (a : action) (w : world) (i : nat) (p : prim) : Prop :=
  match a with
  | Tick _ => False
  | OnStreamer j m => j = i /\ p = Call m
  | OnCoordinator (CStream _) =>
      exists o, p = Call (Prime (Some o)) \/ p = Call (Stream (Some o))
  | OnCoordinator CStop => p = Call Stop
  | OnCoordinator (CSeek _) =>
      p = Call Stop \/
      exists o, p = Call (Prime (Some o)) \/ p = Call (Stream (Some o))
  | OnCoordinator CCurrentTime => p = Call Stop
  | OnCoordinator (CLoad _) => exists c f, p = Call (Load false c f)
  | OnCoordinator CreateStream => False
  | OnCoordinator (AddClipToStream _ fileName) => p = Call (AddClip fileName)
  | Resolved _ record =>
      (exists o, p = PrimeResume o record) \/
      (exists when o out, p = NextThen when o out record) \/
      (barriers (snd w) <> [] /\ exists o, p = Call (Stream (Some o)))
  | Rejected _ => False
  | Timeout _ => False
  | Ended _ => p = Call Stop
  end.

(* ================================================================== *)
(** ** Invariants *)

(** The output node a callback captured is the current one of its
    streamer or an older one, and an older one if the streamer is
    stopped. *)
Definition fresh_output (output : nat) (s : Streamer.t) : Prop :=
  output <= Streamer.trackNode s /\
  (Streamer.stopped s = true -> output < Streamer.trackNode s).

(** What is true of the streamer at index [i] in every world the event
    loop can reach. *)
Definition sound (i : nat) (s : Streamer.t) (e : env) : Prop :=
  Streamer.trackNode s < ac_nodes e /\
  (Streamer.stopped s = false -> Streamer.ready s = true) /\
  (forall f when offset output,
      In f (fetches e) -> f_self f = i ->
      f_then f = NextK when offset output -> fresh_output output s) /\
  (forall t, In t (timers e) -> t_self t = i -> fresh_output (t_output t) s).

(** [e'] is [e] after the streamer at index [i] ran: nodes were only
    created, the new requests and timers are its own, and the new
    requests are numbered from the counter on. *)
Definition ext (i : nat) (e e' : env) : Prop :=
  ac_nodes e <= ac_nodes e' /\
  (forall f, In f (fetches e') -> In f (fetches e) \/ f_self f = i) /\
  (forall t, In t (timers e') -> In t (timers e) \/ t_self t = i) /\
  fetch_next e <= fetch_next e' /\
  (forall f, In f (fetches e') ->
             In f (fetches e) \/ fetch_next e <= f_id f < fetch_next e').

(** Every request and timer belongs to one of the first [n] streamers,
    and to a streamer of the world; the requests are numbered below the
    counter. *)
Definition owned_by (n : nat) (e : env) : Prop :=
  (forall f, In f (fetches e) -> f_self f < n) /\
  (forall t, In t (timers e) -> t_self t < n) /\
  (forall f, In f (fetches e) -> f_id f < fetch_next e).

Definition owned (w : world) : Prop :=
  owned_by (length (StreamCoordinator.streamers (fst w))) (snd w).

(** Changes of the browser that any streamer could have made. *)
Definition calmer (e e' : env) : Prop := forall i, ext i e e'.

(** A property of every streamer of a list, and of a world. *)
Definition holds_list (P : nat -> Streamer.t -> env -> Prop)
    (l : list Streamer.t) (e : env) : Prop :=
  forall j s, l !! j = Some s -> P j s e.

Definition holds (P : nat -> Streamer.t -> env -> Prop) (w : world) : Prop :=
  holds_list P (StreamCoordinator.streamers (fst w)) (snd w).

(** [sound], and the output node of streamer [i] is newer than [n]. *)
Definition newer (i n : nat) (j : nat) (s : Streamer.t) (e : env) : Prop :=
  sound j s e /\ (j = i -> n < Streamer.trackNode s).

(** The cursor is not at or beyond the end of the track. *)
Definition below_end (s : Streamer.t) : Prop :=
  match Streamer.startOffset s with
  | Some x => Num.ge x (Num.of_optional (Streamer.duration s)) = false
  | None => True
  end.

(** The cursor is a number of [[0, duration)]. *)
Definition in_range (s : Streamer.t) : Prop :=
  exists x d, Streamer.startOffset s = Some (Fin x) /\
              Streamer.duration s = Some (Fin d) /\ (0 <= x /\ x < d)%Q.

(** Actions that leave the duration of streamer [i] alone and seek it,
    when stopped or not, below [d]. *)
Definition gentle (i : nat) (d : num) (a : action) : bool :=
  match a with
  | OnStreamer j (Load _ _ _) => negb (Nat.eqb j i)
  | OnStreamer j (Seek o) => negb (Nat.eqb j i) || negb (Num.ge o d)
  | OnCoordinator (CLoad _) => false
  | _ => true
  end.

(** Streamer [i] plays. *)
Definition playing (i : nat) (w : world) : bool :=
  match streamer_at i w with
  | Some s => negb (Streamer.stopped s)
  | None => false
  end.

(** Actions that, taken in world [w], keep the cursor of streamer [i]
    below [d]: the gentle ones, and every [seek] on the streamer while
    it plays. *)
Definition tame (i : nat) (d : num) (w : world) (a : action) : bool :=
  gentle i d a ||
  match a with
  | OnStreamer j (Seek _) => Nat.eqb j i && playing i w
  | _ => false
  end.

(** Every action of [l] is tame in the world it is taken in. *)
Fixpoint tame_run (i : nat) (d : num) (l : list action) (w : world) : bool :=
  match l with
  | [] => true
  | a :: r => tame i d w a && tame_run i d r (step a w)
  end.

(** The cursor of streamer [i], of duration [d], is below its end. *)
Definition cursor_ok (i : nat) (d : num) (j : nat) (s : Streamer.t)
    (e : env) : Prop :=
  j = i -> Streamer.duration s = Some d /\ below_end s.

(** Actions that call neither [stream] nor [seek], on the coordinator
    or on the streamer at index [i]. *)
Definition never_started (i : nat) (a : action) : bool :=
  match a with
  | OnStreamer j (Stream _) | OnStreamer j (Seek _) => negb (Nat.eqb j i)
  | OnCoordinator (CStream _) | OnCoordinator (CSeek _) => false
  | _ => true
  end.

(** Streamer [i] was never started. *)
Definition untouched (i : nat) (j : nat) (s : Streamer.t) (e : env) : Prop :=
  j = i -> Streamer.stopped s = true /\ Streamer.startOffset s = None.

(** The anchor of the coordinator is [null] or a reading of the device
    clock. *)
Definition clock_ok (c : StreamCoordinator.t) : Prop :=
  StreamCoordinator.startTime c = None \/
  exists q, StreamCoordinator.startTime c = Some (Fin q).

(** Neither the coordinator nor a [Promise.all] of it is under way. *)
Definition quiet (w : world) : Prop :=
  StreamCoordinator.stopped (fst w) = true /\
  StreamCoordinator.startOffset (fst w) = None /\
  barriers (snd w) = [].

(** The request [prime( offset )] issues for the streamer [s] at index
    [i], numbered [k]; and those issued for the streamers of [l], the
    first at index [i] and numbered [k]. *)
Definition prime_request (offset : num) (i k : nat) (s : Streamer.t) : fetch :=
  {| f_id := k; f_self := i; f_name := Streamer.name s; f_offset := offset;
     f_duration := Streamer.chunk_duration s offset;
     f_then := PrimeK offset |}.


(** A streamer that [stream( offset )] can start: ready, stopped, and
    [offset] before its end. *)
Definition startable (offset : num) (s : Streamer.t) : Prop :=
  Streamer.ready s = true /\ Streamer.stopped s = true /\
  Num.ge offset (Num.of_optional (Streamer.duration s)) = false.

(** The coordinator waits for the requests [pend], numbered from [k], of
    the [prime( offset )] calls on the streamers that were [l0]: a
    streamer whose request is pending is as it was, one whose request
    was answered holds the chunk as its primed chunk, and none was
    started. *)
Definition waiting (offset : num) (k : nat) (l0 : list Streamer.t)
    (started0 : list (nat * num)) (pend : list nat) (w : world) : Prop :=
  barriers (snd w) = [{| b_offset := offset; b_pending := pend |}] /\
  length (StreamCoordinator.streamers (fst w)) = length l0 /\
  ac_started (snd w) = started0 /\
  (forall x, In x pend -> k <= x < k + length l0) /\
  (forall j s0, l0 !! j = Some s0 ->
     exists s, StreamCoordinator.streamers (fst w) !! j = Some s /\
               startable offset s /\
               (In (k + j) pend ->
                List.find (has_id (k + j)) (fetches (snd w))
                = Some (prime_request offset j (k + j) s0)) /\
               (~ In (k + j) pend ->
                exists src, Streamer.primed s = Some (offset, src))).





(** Running [f] on the streamer at index [i] keeps [P]. *)
Definition keeps (P : nat -> Streamer.t -> env -> Prop) (i : nat)
    (f : Streamer.t -> env -> Streamer.t * env) : Prop :=
  forall s e, P i s e -> P i (fst (f s e)) (snd (f s e)).

(* ================================================================== *)
(** ** More scenarios *)

(** The track of [one_track] playing from the start, its first chunk
    scheduled and the timer of the second pending. *)
Definition one_track_playing : world :=
  run [OnStreamer 0 (Stream (Some (Fin 0))); Resolved 0 (Fin 1)] one_track.

(** The timer of [one_track_playing]. *)
Definition first_timer : timer :=
  {| t_id := 0; t_self := 0; t_delay := Fin (-1000); t_when := Fin 11;
     t_offset := Fin 1; t_output := 0 |}.

(** Two tracks just created, not loaded. *)
Definition two_tracks_new : world :=
  run [OnCoordinator CreateStream; OnCoordinator CreateStream]
      (boot StreamCoordinator.AudioBufferSourceNode).

(** The first asset is cached with duration [a]; for the others the
    store and the network fail. *)
Definition cached_first (a : Q) (i : nat)
    : option (option num) * option (option num) :=
  match i with
  | O => (Some (Some (Fin a)), None)
  | _ => (None, None)
  end.

(** The streamer of [paused_at_two] holding a chunk primed at two
    seconds. *)
Definition primed_streamer : Streamer.t :=
  Streamer.set_primed (Some (Fin 2, {| src_node := 9; src_buffer := Fin 1 |}))
    paused_streamer.

(** Two tracks of three and five seconds are loaded; [t0] seconds later
    they are started together from the beginning; the store answers
    one of them [d1] seconds after the call, the first unless
    [swapped], and the other [d2] seconds after that; [t] seconds after
    the second answer the position is read. *)
Definition two_tracks_read (t0 d1 d2 t : Q) (swapped : bool) : world :=
  run [OnCoordinator CreateStream;
       OnCoordinator CreateStream;
       OnCoordinator (CLoad (cached_two 3 5));
       Tick t0;
       OnCoordinator (CStream (Some (Fin 0)));
       Tick d1; Resolved (if swapped then 1 else 0) (Fin 1);
       Tick d2; Resolved (if swapped then 0 else 1) (Fin 1);
       Tick t]
      (boot StreamCoordinator.AudioBufferSourceNode).

(* ================================================================== *)
(** ** What stays of a streamer, and what is under way *)

(** [s'] is the track [s] some tasks later: the id and the gain node are
    the same, and a loaded track is still loaded. *)
Definition same_track (s s' : Streamer.t) : Prop :=
  Streamer.streamID s' = Streamer.streamID s /\
  Streamer.gain s' = Streamer.gain s /\
  (Streamer.ready s = true -> Streamer.ready s' = true).

(** The streamer at each index of [l0] is the same track as then. *)
Definition since (l0 : list Streamer.t) (j : nat) (s : Streamer.t) (e : env)
    : Prop :=
  forall s0, l0 !! j = Some s0 -> same_track s0 s.

(** A stopped streamer has no anchor. *)
Definition anchored (i : nat) (s : Streamer.t) (e : env) : Prop :=
  Streamer.stopped s = true -> Streamer.startTime s = None.

(** The gain node of a streamer exists. *)
Definition gain_ok (j : nat) (s : Streamer.t) (e : env) : Prop :=
  Streamer.gain s < ac_nodes e.

(** The ids and the gain nodes of the streamers were handed out in the
    order of the streamers, from the two counters. *)
Definition roster (w : world) : Prop :=
  (forall j s, streamer_at j w = Some s ->
     Streamer.streamID s < nextID (snd w) /\
     Streamer.gain s < ac_nodes (snd w)) /\
  (forall j k s s', j < k ->
     streamer_at j w = Some s -> streamer_at k w = Some s' ->
     Streamer.streamID s < Streamer.streamID s' /\
     Streamer.gain s < Streamer.gain s').

(** A request of [next] whose answer is scheduled if the streamer plays:
    it was issued by streamer [i] against its current output node. *)
Definition live (i : nat) (s : Streamer.t) (f : fetch) : Prop :=
  f_self f = i /\
  exists when offset, f_then f = NextK when offset (Streamer.trackNode s).

(** Nothing of the scheduling loop of streamer [i] is under way. *)
Definition idle (i : nat) (s : Streamer.t) (e : env) : Prop :=
  (forall t, In t (timers e) -> t_self t <> i) /\
  (forall f, In f (fetches e) -> ~ live i s f).

(** At most one thing of the scheduling loop of streamer [i] is under
    way: a timer, which is then the one [fetchtimer] names and was set
    against the current output node of a playing streamer, or a live
    request. *)
Definition flight (i : nat) (s : Streamer.t) (e : env) : Prop :=
  (forall t, In t (timers e) -> t_self t = i ->
     Streamer.stopped s = false /\
     Streamer.fetchtimer s = Some (t_id t) /\
     t_output t = Streamer.trackNode s) /\
  (forall t f, In t (timers e) -> t_self t = i ->
     In f (fetches e) -> ~ live i s f) /\
  (forall f f', In f (fetches e) -> In f' (fetches e) ->
     live i s f -> live i s f' -> f_id f = f_id f').

Definition single (i : nat) (s : Streamer.t) (e : env) : Prop :=
  sound i s e /\ flight i s e.

(** Tasks that the browser starts: the clock, the answers of the store,
    timers and ended sources. *)
Definition browser (a : action) : bool :=
  match a with
  | OnStreamer _ _ | OnCoordinator _ => false
  | _ => true
  end.

(** Every streamer is stopped and no [Promise.all] is pending. *)
Definition at_rest (w : world) : Prop :=
  barriers (snd w) = [] /\
  forall j s, streamer_at j w = Some s -> Streamer.stopped s = true.

(** A track that [prime( offset )] rejects: not loaded, or [offset] at or
    beyond its end. *)
Definition blocked (offset : num) (s : Streamer.t) : Prop :=
  Streamer.ready s = false \/
  Num.ge offset (Num.of_optional (Streamer.duration s)) = true.

(** The store, or failing it the network, answers the load of a track
    with the duration [d]. *)
Definition answers (a : option (option num) * option (option num)) (d : Q)
    : Prop :=
  fst a = Some (Some (Fin d)) \/
  (fst a = None /\ snd a = Some (Some (Fin d))).

(** The fields of a coordinator that no task assigns. *)
Definition fixed (c0 c : StreamCoordinator.t) : Prop :=
  StreamCoordinator.ready c = StreamCoordinator.ready c0 /\
  StreamCoordinator.playbackMode c = StreamCoordinator.playbackMode c0.

(* ================================================================== *)
(** ** Tactics *)

(** Case analysis on every test the goal still contains. *)
Ltac branch :=
  repeat match goal with
         | |- context [if ?b then _ else _] => destruct b eqn:?
         | |- context [match ?o with Some _ => _ | None => _ end] =>
             destruct o eqn:?
         end.

(** Membership in the lists a streamer appends to or filters. *)
Ltac members :=
  repeat match goal with
         | H : In _ (_ ++ _) |- _ => apply in_app_iff in H; destruct H
         | H : In _ (List.filter _ _) |- _ => apply filter_In in H; destruct H
         | H : In _ [_] |- _ => destruct H as [<- | []]
         | H : In _ [] |- _ => destruct H
         end.

(** [ext] between a browser and what a few calls made of it. *)
Ltac ext_tac :=
  unfold ext, setTimeout, getAudioBuffer, createBufferSource, createGain,
    createNode; simpl;
  split; [lia|];
  split; [intros ? ?; members; simpl; auto|];
  split; [intros ? ?; members; simpl; auto|];
  split; [lia|];
  intros ? ?; members; simpl; first [now auto | right; lia].

(** Case analysis on every test, option and pair the goal inspects. *)
Ltac cases :=
  repeat (match goal with
          | |- context [if ?b then _ else _] => destruct b eqn:?
          | |- context [match ?o with Some _ => _ | None => _ end] =>
              destruct o eqn:?
          | |- context [let (_, _) := ?p in _] => destruct p eqn:?
          end; cbn [fst snd]).

(** Everything a task runs on a streamer, unfolded. *)
Ltac unfold_exec :=
  unfold exec, call, Streamer.seek, Streamer.stream, Streamer.next_then,
    Streamer.play, Streamer.next, Streamer.stop, Streamer.prime,
    Streamer.prime_resume, Streamer.load, Streamer.addClip,
    setTimeout, getAudioBuffer, createBufferSource, createGain, createNode.

(** Tests that came out both ways. *)
Ltac absurd_bools :=
  intros;
  repeat match goal with
         | H : _ || _ = false |- _ => apply orb_false_iff in H; destruct H
         | H : negb _ = false |- _ => apply negb_false_iff in H
         | H : negb _ = true |- _ => apply negb_true_iff in H
         end;
  congruence.

(* ================================================================== *)
(** ** Numbers: the facts used below *)






(* ================================================================== *)
(** ** How a streamer changes the browser *)

Lemma ext_refl (i : nat) (e : env) : ext i e e.
Proof. unfold ext. auto 10. Qed.

Lemma ext_trans (i : nat) (e1 e2 e3 : env) :
  ext i e1 e2 -> ext i e2 e3 -> ext i e1 e3.
Proof.
  intros (Hn & Hf & Ht & Hk & Hi) (Hn' & Hf' & Ht' & Hk' & Hi').
  split; [lia|]. split; [|split; [|split; [lia|]]].
  - intros f Hin. destruct (Hf' f Hin) as [H|H]; auto.
  - intros t Hin. destruct (Ht' t Hin) as [H|H]; auto.
  - intros f Hin. destruct (Hi' f Hin) as [H|H]; [|right; lia].
    destruct (Hi f H) as [H'|H']; [now left | right; lia].
Qed.

Lemma stop_ext (i : nat) (s : Streamer.t) (e : env) :
  ext i e (snd (Streamer.stop s e)).
Proof.
  unfold Streamer.stop. destruct (_ || _); simpl; [apply ext_refl|].
  unfold clearTimeout, drop_timer. branch; ext_tac.
Qed.

Lemma play_ext (i : nat) src when offset output s e :
  ext i e (snd (Streamer.play i src when offset output s e)).
Proof.
  unfold Streamer.play, setTimeout. destruct (Num.ge _ _); ext_tac.
Qed.

Lemma next_ext (i : nat) when offset output s e :
  ext i e (Streamer.next i when offset output s e).
Proof. unfold Streamer.next. ext_tac. Qed.

Lemma next_then_ext (i : nat) when offset output record s e :
  ext i e (snd (Streamer.next_then i when offset output record s e)).
Proof.
  unfold Streamer.next_then.
  destruct (_ || _); [apply ext_refl|].
  simpl. eapply ext_trans; [|apply play_ext]. ext_tac.
Qed.

Lemma stream_ext (i : nat) offset s e :
  ext i e (snd (snd (Streamer.stream i offset s e))).
Proof.
  unfold Streamer.stream.
  destruct (negb (Streamer.ready s)); [apply ext_refl|].
  destruct (negb (Streamer.stopped s)); [apply ext_refl|].
  set (w1 := match Streamer.ending s with Some _ => _ | None => _ end).
  assert (H1 : ext i e (snd w1)).
  { subst w1. destruct (Streamer.ending s); [ext_tac | apply ext_refl]. }
  destruct w1 as [s1 e1]. simpl in H1.
  destruct (Num.ge _ _).
  { simpl. eapply ext_trans; [exact H1 | apply stop_ext]. }
  set (w2 := if Streamer.garbageBuffer s1 then _ else _).
  assert (H2 : ext i e1 (snd w2)).
  { subst w2. destruct (Streamer.garbageBuffer s1); [ext_tac | apply ext_refl]. }
  destruct w2 as [s2 e2]. simpl in H2.
  assert (H12 := ext_trans _ _ _ _ H1 H2).
  simpl. destruct (Streamer.primed s2) as [[at_offset src]|]; simpl.
  - destruct (Num.seq _ _); simpl.
    + eapply ext_trans; [exact H12 | apply play_ext].
    + eapply ext_trans; [exact H12 | apply next_ext].
  - eapply ext_trans; [exact H12 | apply next_ext].
Qed.

Lemma seek_ext (i : nat) offset s e :
  ext i e (snd (snd (Streamer.seek i offset s e))).
Proof.
  unfold Streamer.seek. destruct (negb (Streamer.stopped s)).
  - pose proof (stop_ext i s e) as H. destruct (Streamer.stop s e) as [s1 e1].
    eapply ext_trans; [exact H | apply stream_ext].
  - apply ext_refl.
Qed.

Lemma prime_ext (i : nat) offset s e :
  ext i e (snd (Streamer.prime i offset s e)).
Proof.
  unfold Streamer.prime, getAudioBuffer.
  destruct (negb _); [apply ext_refl|].
  destruct (Num.ge _ _); [apply ext_refl|]. ext_tac.
Qed.

Lemma prime_resume_ext (i : nat) offset record s e :
  ext i e (snd (Streamer.prime_resume offset record s e)).
Proof. unfold Streamer.prime_resume. ext_tac. Qed.

Lemma exec_ext (i : nat) (p : prim) (s : Streamer.t) (e : env) :
  ext i e (snd (exec i p s e)).
Proof.
  destruct p as [m| |]; unfold exec.
  - destruct m; unfold call; cbn [snd];
      auto using ext_refl, prime_ext, stream_ext, stop_ext, seek_ext.
  - apply prime_resume_ext.
  - apply next_then_ext.
Qed.

Lemma constructor_ext (i : nat) url e :
  ext i e (snd (Streamer.constructor url e)).
Proof. unfold Streamer.constructor. simpl. destruct url as [[|]|]; ext_tac. Qed.

(* ================================================================== *)
(** ** Properties of the streamers that every task keeps *)

Lemma owned_by_ext (i n m : nat) (e e' : env) :
  i < m -> n <= m -> ext i e e' -> owned_by n e -> owned_by m e'.
Proof.
  intros Hi Hn (_ & Hf & Ht & Hk & Hid) (Of & Ot & Oi).
  split; [|split].
  - intros f Hin. destruct (Hf f Hin) as [H|H]; [apply Of in H|]; lia.
  - intros t Hin. destruct (Ht t Hin) as [H|H]; [apply Ot in H|]; lia.
  - intros f Hin. destruct (Hid f Hin) as [H|H]; [apply Oi in H|]; lia.
Qed.

Lemma calmer_same (e e' : env) :
  ac_nodes e <= ac_nodes e' ->
  (forall f, In f (fetches e') -> In f (fetches e)) ->
  (forall t, In t (timers e') -> In t (timers e)) ->
  fetch_next e <= fetch_next e' ->
  calmer e e'.
Proof. intros Hn Hf Ht Hk i. unfold ext. auto 10. Qed.

Lemma calmer_owned (n : nat) (e e' : env) :
  calmer e e' -> owned_by n e -> owned_by n e'.
Proof.
  intros He (Of & Ot & Oi). split; [|split].
  - intros f Hin. destruct (He (S (f_self f))) as (_ & Hf & _).
    destruct (Hf f Hin) as [Hold|Hnew]; [now apply Of | lia].
  - intros t Hin. destruct (He (S (t_self t))) as (_ & _ & Ht & _).
    destruct (Ht t Hin) as [Hold|Hnew]; [now apply Ot | lia].
  - intros f Hin. destruct (He 0) as (_ & _ & _ & Hk & Hid).
    destruct (Hid f Hin) as [Hold|Hnew]; [apply Oi in Hold|]; lia.
Qed.

Section Lifting.

Variable P : nat -> Streamer.t -> env -> Prop.

Hypothesis frame :
  forall i j s e e', i <> j -> ext i e e' -> P j s e -> P j s e'.

Local Abbreviation keeps := (keeps P).

(** The browser alone changed, in a way any streamer could have
    changed it. *)
Lemma holds_list_env (l : list Streamer.t) (e e' : env) :
  (forall i, ext i e e') -> holds_list P l e -> holds_list P l e'.
Proof.
  intros He H j s Hj. apply (frame (S j) j s e e'); auto.
Qed.

Lemma holds_list_insert (l : list Streamer.t) (i : nat) (s' : Streamer.t)
    (e e' : env) :
  holds_list P l e -> P i s' e' -> ext i e e' ->
  holds_list P (<[i := s']> l) e'.
Proof.
  intros H Hs He j s0 Hj.
  destruct (decide (i = j)) as [<-|Hne].
  - destruct (decide (i < length l)) as [Hlt|Hge].
    + rewrite list_lookup_insert_eq in Hj by exact Hlt.
      injection Hj as <-. exact Hs.
    + rewrite list_insert_ge in Hj by lia.
      apply lookup_lt_Some in Hj. lia.
  - rewrite list_lookup_insert_ne in Hj by exact Hne.
    eapply frame; eauto.
Qed.

Lemma at_streamer_holds (i : nat) f (c : StreamCoordinator.t) (e : env) :
  keeps i f -> (forall s e, ext i e (snd (f s e))) ->
  holds P (c, e) -> owned (c, e) ->
  holds P (StreamCoordinator.at_streamer i f c e) /\
  owned (StreamCoordinator.at_streamer i f c e).
Proof.
  intros Hk He H Ho. unfold StreamCoordinator.at_streamer.
  destruct (StreamCoordinator.streamers c !! i) as [s|] eqn:Hi; [|auto].
  specialize (Hk s e (H i s Hi)). specialize (He s e).
  destruct (f s e) as [s' e']. simpl in *. split.
  - unfold holds. simpl. apply holds_list_insert with (e := e); auto.
  - unfold owned in *. simpl in *. rewrite length_insert.
    apply lookup_lt_Some in Hi.
    apply owned_by_ext with (i := i) (n := length (StreamCoordinator.streamers c))
                            (e := e); auto.
Qed.

Lemma forEach_holds
    (f : nat -> Streamer.t -> env -> result unit * (Streamer.t * env)) :
  (forall i, keeps i (fun s e => snd (f i s e))) ->
  (forall i s e, ext i e (snd (snd (f i s e)))) ->
  forall (l pre : list Streamer.t) (e : env),
    holds_list P (pre ++ l) e -> owned_by (length (pre ++ l)) e ->
    let r := snd (StreamCoordinator.forEach f (length pre) l e) in
    holds_list P (pre ++ fst r) (snd r) /\
    owned_by (length (pre ++ l)) (snd r) /\
    length (fst r) = length l.
Proof.
  intros Hk He. induction l as [|s l IH]; intros pre e H Ho; simpl.
  - auto.
  - assert (Hi : (pre ++ s :: l) !! length pre = Some s).
    { rewrite lookup_app_r by lia. now rewrite Nat.sub_diag. }
    specialize (Hk (length pre) s e (H _ _ Hi)).
    specialize (He (length pre) s e). simpl in Hk.
    assert (Hlen : length pre < length (pre ++ s :: l)).
    { rewrite length_app. simpl. lia. }
    assert (Hupd : <[length pre := fst (snd (f (length pre) s e))]> (pre ++ s :: l)
                   = (pre ++ [fst (snd (f (length pre) s e))]) ++ l).
    { rewrite insert_app_r_alt by lia. rewrite Nat.sub_diag. simpl.
      now rewrite <- app_assoc. }
    assert (H1 : holds_list P ((pre ++ [fst (snd (f (length pre) s e))]) ++ l)
                   (snd (snd (f (length pre) s e)))).
    { rewrite <- Hupd. apply holds_list_insert with (e := e); auto. }
    assert (Ho1 : owned_by (length (pre ++ s :: l)) (snd (snd (f (length pre) s e)))).
    { apply owned_by_ext with (i := length pre) (n := length (pre ++ s :: l))
                              (e := e); auto. }
    destruct (f (length pre) s e) as [[[]|err] [s' e1]]; simpl in *.
    + specialize (IH (pre ++ [s']) e1 H1).
      assert (Hl : length ((pre ++ [s']) ++ l) = length (pre ++ s :: l)).
      { rewrite !length_app. simpl. lia. }
      rewrite Hl in IH. specialize (IH Ho1).
      replace (length (pre ++ [s'])) with (S (length pre)) in IH
        by (rewrite length_app; simpl; lia).
      destruct (StreamCoordinator.forEach f (S (length pre)) l e1)
        as [res [r' e2]]. simpl in *.
      rewrite <- app_assoc in IH. simpl in IH.
      destruct IH as (A & B & C).
      split; [exact A | split; [exact B | lia]].
    + rewrite <- app_assoc in H1. simpl in H1.
      split; [exact H1 | split; [exact Ho1 | reflexivity]].
Qed.

Lemma map_prime_holds (offset : num) :
  (forall i, keeps i (exec i (Call (Prime (Some offset))))) ->
  forall (l pre : list Streamer.t) (e : env),
    holds_list P (pre ++ l) e -> owned_by (length (pre ++ l)) e ->
    let e' := snd (StreamCoordinator.map_prime offset (length pre) l e) in
    holds_list P (pre ++ l) e' /\ owned_by (length (pre ++ l)) e'.
Proof.
  intros Hk. induction l as [|s l IH]; intros pre e H Ho; simpl.
  - auto.
  - assert (Hi : (pre ++ s :: l) !! length pre = Some s).
    { rewrite lookup_app_r by lia. now rewrite Nat.sub_diag. }
    specialize (Hk (length pre) s e (H _ _ Hi)).
    pose proof (exec_ext (length pre) (Call (Prime (Some offset))) s e) as He.
    simpl in Hk, He.
    assert (Hlen : length pre < length (pre ++ s :: l)).
    { rewrite length_app. simpl. lia. }
    destruct (Streamer.prime (length pre) (Some offset) s e) as [p e1].
    simpl in *.
    assert (H1 : holds_list P (pre ++ s :: l) e1).
    { rewrite <- (list_insert_id (pre ++ s :: l) (length pre) s Hi).
      apply holds_list_insert with (e := e); auto. }
    assert (Ho1 : owned_by (length (pre ++ s :: l)) e1).
    { apply owned_by_ext with (i := length pre) (n := length (pre ++ s :: l))
                              (e := e); auto. }
    specialize (IH (pre ++ [s]) e1).
    rewrite <- app_assoc in IH. simpl in IH.
    specialize (IH H1 Ho1).
    replace (length (pre ++ [s])) with (S (length pre)) in IH
      by (rewrite length_app; simpl; lia).
    destruct (StreamCoordinator.map_prime offset (S (length pre)) l e1)
      as [ps e2]. simpl in *. exact IH.
Qed.

Lemma calmer_holds (c c' : StreamCoordinator.t) (e e' : env) :
  StreamCoordinator.streamers c' = StreamCoordinator.streamers c ->
  calmer e e' ->
  holds P (c, e) /\ owned (c, e) -> holds P (c', e') /\ owned (c', e').
Proof.
  intros Hc He [H Ho]. unfold holds, owned in *. simpl in *. rewrite Hc.
  split.
  - eapply holds_list_env; eauto.
  - now apply calmer_owned with (e := e).
Qed.

Lemma barrier_then_holds (offset : num) (c : StreamCoordinator.t) (e : env) :
  (forall i, keeps i (exec i (Call (Stream (Some offset))))) ->
  holds P (c, e) /\ owned (c, e) ->
  holds P (StreamCoordinator.barrier_then offset c e) /\
  owned (StreamCoordinator.barrier_then offset c e).
Proof.
  intros Hk [H Ho]. unfold StreamCoordinator.barrier_then.
  set (c1 := match StreamCoordinator.startTime c with
             | None => _ | Some _ => _ end).
  assert (Hc1 : StreamCoordinator.streamers c1 = StreamCoordinator.streamers c).
  { subst c1. now destruct (StreamCoordinator.startTime c). }
  rewrite Hc1.
  pose proof (forEach_holds (StreamCoordinator.do_stream offset) Hk
                (fun i s e => exec_ext i (Call (Stream (Some offset))) s e)
                (StreamCoordinator.streamers c) [] e H Ho) as Hf.
  simpl in Hf.
  destruct (StreamCoordinator.forEach _ 0 _ e) as [res [l e1]].
  simpl in *. destruct Hf as (A & B & C).
  unfold holds, owned. simpl. rewrite C. auto.
Qed.

Lemma settle_holds (c : StreamCoordinator.t) (e : env) :
  (barriers e = [] \/
   forall o i, keeps i (exec i (Call (Stream (Some o))))) ->
  holds P (c, e) /\ owned (c, e) ->
  holds P (StreamCoordinator.settle c e) /\
  owned (StreamCoordinator.settle c e).
Proof.
  intros Hk H. unfold StreamCoordinator.settle.
  set (e1 := set_barriers _ e).
  assert (H1 : holds P (c, e1) /\ owned (c, e1)).
  { apply calmer_holds with (c := c) (e := e); auto.
    intros i. subst e1. unfold ext. simpl. auto 10. }
  clearbody e1. clear H.
  destruct Hk as [-> | Hall]; [exact H1|].
  revert c e1 H1.
  induction (List.filter StreamCoordinator.is_settled (barriers e)) as [|b l IH];
    intros c e1 H1; simpl.
  - exact H1.
  - pose proof (barrier_then_holds (b_offset b) c e1 (Hall _) H1) as H2.
    destruct (StreamCoordinator.barrier_then (b_offset b) c e1) as [c2 e2].
    apply (IH c2 e2 H2).
Qed.

Lemma cstop_holds (c : StreamCoordinator.t) (e : env) :
  (forall i, keeps i (exec i (Call Stop))) ->
  holds P (c, e) /\ owned (c, e) ->
  holds P (StreamCoordinator.stop c e) /\ owned (StreamCoordinator.stop c e).
Proof.
  intros Hk [H Ho]. unfold StreamCoordinator.stop.
  destruct (StreamCoordinator.stopped c); [auto|].
  pose proof (forEach_holds StreamCoordinator.do_stop Hk
                (fun i s e => exec_ext i (Call Stop) s e)
                (StreamCoordinator.streamers c) [] e H Ho) as Hf.
  simpl in Hf.
  destruct (StreamCoordinator.forEach _ 0 _ e) as [res [l e1]].
  simpl in *. destruct Hf as (A & B & C).
  unfold holds, owned. simpl. rewrite C. auto.
Qed.

Lemma cstream_holds (offset : option num) (c : StreamCoordinator.t) (e : env) :
  (forall o i, keeps i (exec i (Call (Prime (Some o))))) ->
  (forall o i, keeps i (exec i (Call (Stream (Some o))))) ->
  holds P (c, e) /\ owned (c, e) ->
  holds P (StreamCoordinator.stream offset c e) /\
  owned (StreamCoordinator.stream offset c e).
Proof.
  intros Hp Hs H. unfold StreamCoordinator.stream.
  set (o := match offset with Some _ => _ | None => _ end). clearbody o.
  set (w1 := if StreamCoordinator.garbageBuffer c then _ else _).
  assert (H1 : holds P w1 /\ owned w1).
  { subst w1. destruct (StreamCoordinator.garbageBuffer c); [|exact H].
    apply calmer_holds with (c := c) (e := e); auto.
    apply calmer_same; simpl; auto. }
  destruct w1 as [c1 e1]. destruct H1 as [H1 Ho1].
  pose proof (map_prime_holds o (Hp o) (StreamCoordinator.streamers c1) [] e1
                H1 Ho1) as Hm.
  simpl in Hm.
  destruct (StreamCoordinator.map_prime o 0 _ e1) as [ps e2]. simpl in Hm.
  apply settle_holds; [right; exact Hs|].
  apply calmer_holds with (c := c1) (e := e2); auto.
  unfold StreamCoordinator.promise_all.
  destruct (StreamCoordinator.awaited ps); apply calmer_same; simpl; auto.
Qed.

Lemma cseek_holds (offset : num) (c : StreamCoordinator.t) (e : env) :
  (forall i, keeps i (exec i (Call Stop))) ->
  (forall o i, keeps i (exec i (Call (Prime (Some o))))) ->
  (forall o i, keeps i (exec i (Call (Stream (Some o))))) ->
  holds P (c, e) /\ owned (c, e) ->
  holds P (StreamCoordinator.seek offset c e) /\
  owned (StreamCoordinator.seek offset c e).
Proof.
  intros Hst Hp Hs H. unfold StreamCoordinator.seek.
  destruct (negb (StreamCoordinator.stopped c)).
  - pose proof (cstop_holds c e Hst H) as H1.
    destruct (StreamCoordinator.stop c e) as [c1 e1].
    now apply cstream_holds.
  - apply calmer_holds with (c := c) (e := e); auto. intros i. apply ext_refl.
Qed.

Lemma ccurrentTime_holds (c : StreamCoordinator.t) (e : env) :
  (forall i, keeps i (exec i (Call Stop))) ->
  holds P (c, e) /\ owned (c, e) ->
  holds P (snd (StreamCoordinator.currentTime c e)) /\
  owned (snd (StreamCoordinator.currentTime c e)).
Proof.
  intros Hst H. unfold StreamCoordinator.currentTime.
  destruct (StreamCoordinator.stopped c); [exact H|].
  destruct (Num.ge _ _); simpl; [now apply cstop_holds | exact H].
Qed.

Lemma map_load_lookup store (l : list Streamer.t) (i j : nat) (s' : Streamer.t) :
  snd (StreamCoordinator.map_load store i l) !! j = Some s' ->
  exists s, l !! j = Some s /\
    s' = snd (Streamer.load false (fst (store (i + j))) (snd (store (i + j))) s).
Proof.
  revert i j. induction l as [|s l IH]; intros i j; simpl.
  - intros H. discriminate H.
  - destruct (Streamer.load false (store i).1 (store i).2 s) as [p s1] eqn:Hl.
    specialize (IH (S i)).
    destruct (StreamCoordinator.map_load store (S i) l) as [ps r']. simpl in *.
    destruct j as [|j]; simpl.
    + intros [= <-]. exists s. rewrite Nat.add_0_r, Hl. auto.
    + intros H. destruct (IH j H) as (s0 & H0 & ->). exists s0.
      replace (i + S j) with (S i + j) by lia. auto.
Qed.

Lemma map_load_length store (l : list Streamer.t) (i : nat) :
  length (snd (StreamCoordinator.map_load store i l)) = length l.
Proof.
  revert i. induction l as [|s l IH]; intros i; simpl; [reflexivity|].
  destruct (Streamer.load false (store i).1 (store i).2 s) as [p s1].
  specialize (IH (S i)).
  destruct (StreamCoordinator.map_load store (S i) l) as [ps r']. simpl in *.
  now rewrite IH.
Qed.

Lemma cload_holds store (c : StreamCoordinator.t) (e : env) :
  (forall cached fetched i, keeps i (exec i (Call (Load false cached fetched)))) ->
  holds P (c, e) /\ owned (c, e) ->
  holds P (snd (StreamCoordinator.load store c), e) /\
  owned (snd (StreamCoordinator.load store c), e).
Proof.
  intros Hk [H Ho]. unfold StreamCoordinator.load.
  pose proof (map_load_lookup store (StreamCoordinator.streamers c) 0) as Hl.
  pose proof (map_load_length store (StreamCoordinator.streamers c) 0) as Hn.
  destruct (StreamCoordinator.map_load store 0 _) as [ps l]. simpl in *.
  assert (Hh : holds_list P l e).
  { intros j s' Hj. destruct (Hl j s' Hj) as (s & Hs & ->).
    apply (Hk (store j).1 (store j).2 j s e). now apply H. }
  destruct (forallb _ ps); unfold holds, owned; simpl; rewrite Hn; auto.
Qed.

Lemma push_holds (c : StreamCoordinator.t) (e e1 : env) (s : Streamer.t) :
  calmer e e1 ->
  P (length (StreamCoordinator.streamers c)) s e1 ->
  holds P (c, e) /\ owned (c, e) ->
  holds P (StreamCoordinator.set_streamers
             (StreamCoordinator.streamers c ++ [s]) c, e1) /\
  owned (StreamCoordinator.set_streamers
           (StreamCoordinator.streamers c ++ [s]) c, e1).
Proof.
  intros He Hnew H.
  destruct (calmer_holds c c e e1 eq_refl He H) as [H1 Ho1].
  unfold holds, owned in *. simpl in *. split.
  - intros j s0 Hj.
    destruct (decide (j < length (StreamCoordinator.streamers c))) as [Hlt|Hge].
    + rewrite lookup_app_l in Hj by lia. now apply H1.
    + rewrite lookup_app_r in Hj by lia.
      destruct (j - length (StreamCoordinator.streamers c)) eqn:Hd;
        simpl in Hj; [|destruct n; discriminate Hj].
      injection Hj as <-.
      replace j with (length (StreamCoordinator.streamers c)) by lia.
      exact Hnew.
  - rewrite length_app. simpl. destruct Ho1 as (Of & Ot & Oi).
    split; [|split; [|exact Oi]].
    + intros f Hin. apply Of in Hin. lia.
    + intros t Hin. apply Ot in Hin. lia.
Qed.

Lemma createStream_holds (c : StreamCoordinator.t) (e : env) :
  (forall s e', Streamer.constructor None e = (Ok s, e') ->
                P (length (StreamCoordinator.streamers c)) s e') ->
  holds P (c, e) /\ owned (c, e) ->
  holds P (snd (StreamCoordinator.createStream c e)) /\
  owned (snd (StreamCoordinator.createStream c e)).
Proof.
  intros Hnew H. unfold StreamCoordinator.createStream.
  pose proof (fun i => constructor_ext i None e) as He.
  destruct (Streamer.constructor None e) as [[s|err] e1] eqn:Hc; simpl in He.
  - specialize (Hnew s e1 eq_refl).
    destruct (StreamCoordinator.playbackMode c); simpl; auto.
    all: apply push_holds with (e := e); auto.
  - destruct (StreamCoordinator.playbackMode c); simpl; auto.
    all: apply calmer_holds with (c := c) (e := e); auto.
Qed.

Lemma addClipToStream_holds id fileName (c : StreamCoordinator.t) (e : env) :
  (forall i, keeps i (exec i (Call (AddClip fileName)))) ->
  holds P (c, e) /\ owned (c, e) ->
  holds P (StreamCoordinator.addClipToStream id fileName c e) /\
  owned (StreamCoordinator.addClipToStream id fileName c e).
Proof.
  intros Hk H. unfold StreamCoordinator.addClipToStream,
    StreamCoordinator.findStreamer.
  destruct (StreamCoordinator.index_of id 0 _) as [i|].
  - destruct H as [H Ho].
    apply at_streamer_holds; [exact (Hk i) | intros; apply ext_refl | exact H
                             | exact Ho].
  - pose proof (fun i => constructor_ext i None e) as He.
    destruct (Streamer.constructor None e) as [d e1]. simpl in He.
    apply calmer_holds with (c := c) (e := e); auto.
Qed.

Lemma drop_fetch_calmer (id : nat) (e : env) : calmer e (drop_fetch id e).
Proof.
  apply calmer_same; simpl; auto.
  intros f Hin. now apply filter_In in Hin.
Qed.

Lemma drop_timer_calmer (id : nat) (e : env) : calmer e (drop_timer id e).
Proof.
  apply calmer_same; simpl; auto.
  intros t Hin. now apply filter_In in Hin.
Qed.

Lemma at_streamer_barriers (i : nat) f (c : StreamCoordinator.t) (e : env) :
  (forall s e', barriers (snd (f s e')) = barriers e') ->
  barriers (snd (StreamCoordinator.at_streamer i f c e)) = barriers e.
Proof.
  intros Hf. unfold StreamCoordinator.at_streamer.
  destruct (StreamCoordinator.streamers c !! i) as [s|]; [|reflexivity].
  specialize (Hf s e). now destruct (f s e).
Qed.

Lemma resolve_holds (id : nat) (record : num) (c : StreamCoordinator.t)
    (e : env) :
  (forall i p, uses (Resolved id record) (c, e) i p -> keeps i (exec i p)) ->
  holds P (c, e) /\ owned (c, e) ->
  holds P (resolve id record c e) /\ owned (resolve id record c e).
Proof.
  intros Hk H. unfold resolve.
  destruct (List.find (has_id id) (fetches e)) as [f|]; [|exact H].
  assert (H1 : holds P (c, drop_fetch id e) /\ owned (c, drop_fetch id e)).
  { apply calmer_holds with (c := c) (e := e);
      auto using drop_fetch_calmer. }
  destruct (f_then f) as [offset|when offset output].
  - assert (Hb : barriers (snd (StreamCoordinator.at_streamer (f_self f)
                   (Streamer.prime_resume offset record) c (drop_fetch id e)))
                 = barriers e).
    { rewrite at_streamer_barriers; [reflexivity|]. intros s e'. reflexivity. }
    assert (H2 : holds P (StreamCoordinator.at_streamer (f_self f)
                   (Streamer.prime_resume offset record) c (drop_fetch id e)) /\
                 owned (StreamCoordinator.at_streamer (f_self f)
                   (Streamer.prime_resume offset record) c (drop_fetch id e))).
    { destruct H1 as [H1 Ho1].
      apply at_streamer_holds; [| | exact H1 | exact Ho1].
      - apply (Hk (f_self f) (PrimeResume offset record)). simpl. eauto.
      - intros s e'. apply (exec_ext (f_self f) (PrimeResume offset record)). }
    destruct (StreamCoordinator.at_streamer (f_self f) _ c (drop_fetch id e))
      as [c1 e2]. simpl in Hb.
    apply settle_holds.
    + destruct (barriers e) as [|b bs] eqn:Hbe.
      * left. unfold fulfil. simpl. now rewrite Hb.
      * right. intros o i. apply (Hk i (Call (Stream (Some o)))).
        simpl. right. right. rewrite Hbe. split; [discriminate | eauto].
    + apply calmer_holds with (c := c1) (e := e2); auto.
      apply calmer_same; simpl; auto.
  - destruct H1 as [H1 Ho1].
    apply at_streamer_holds; [| | exact H1 | exact Ho1].
    + apply (Hk (f_self f) (NextThen when offset output record)).
      simpl. right. left. eauto.
    + intros s e'.
      apply (exec_ext (f_self f) (NextThen when offset output record)).
Qed.

Lemma reject_holds (id : nat) (c : StreamCoordinator.t) (e : env) :
  holds P (c, e) /\ owned (c, e) ->
  holds P (reject id c e) /\ owned (reject id c e).
Proof.
  intros H. unfold reject.
  destruct (List.find (has_id id) (fetches e)) as [f|]; [|exact H].
  destruct (f_then f); apply calmer_holds with (c := c) (e := e); auto.
  all: apply calmer_same; simpl; auto.
  all: intros g Hin; now apply filter_In in Hin.
Qed.

Lemma fire_holds (id : nat) (c : StreamCoordinator.t) (e : env) :
  (forall t s, In t (timers e) ->
     P (t_self t) s e ->
     P (t_self t) s
       (Streamer.next (t_self t) (t_when t) (t_offset t) (t_output t) s
          (drop_timer (t_id t) e))) ->
  holds P (c, e) /\ owned (c, e) ->
  holds P (fire id c e) /\ owned (fire id c e).
Proof.
  intros Ht [H Ho]. unfold fire.
  destruct (List.find _ (timers e)) as [t|] eqn:Hfind; [|auto].
  apply find_some in Hfind. destruct Hfind as [Hin Hid].
  apply Nat.eqb_eq in Hid. subst id.
  unfold StreamCoordinator.at_streamer.
  destruct (StreamCoordinator.streamers c !! t_self t) as [s|] eqn:Hs.
  - rewrite list_insert_id by exact Hs.
    assert (He : ext (t_self t) e
                   (Streamer.next (t_self t) (t_when t) (t_offset t)
                      (t_output t) s (drop_timer (t_id t) e))).
    { eapply ext_trans; [apply drop_timer_calmer | apply next_ext]. }
    split.
    + unfold holds. simpl.
      rewrite <- (list_insert_id _ _ _ Hs).
      apply holds_list_insert with (e := e); [exact H | | exact He].
      apply Ht; [exact Hin | now apply H].
    + unfold owned in *. simpl in *. apply lookup_lt_Some in Hs.
      eapply owned_by_ext; [exact Hs | | exact He | exact Ho]. lia.
  - apply calmer_holds with (c := c) (e := e);
      auto using drop_timer_calmer.
Qed.

Lemma ended_holds (src : nat) (c : StreamCoordinator.t) (e : env) :
  (forall i, keeps i (exec i (Call Stop))) ->
  holds P (c, e) /\ owned (c, e) ->
  holds P (ended src c e) /\ owned (ended src c e).
Proof.
  intros Hk H. unfold ended.
  destruct (List.find _ (ac_onended e)) as [[src' self]|]; [|exact H].
  assert (H1 : holds P (c, on_ended_nothing src e) /\
               owned (c, on_ended_nothing src e)).
  { apply calmer_holds with (c := c) (e := e); auto.
    apply calmer_same; simpl; auto. }
  destruct H1 as [H1 Ho1].
  apply at_streamer_holds;
    [exact (Hk self) | intros s e'; apply (exec_ext self (Call Stop))
    | exact H1 | exact Ho1].
Qed.

(** One task of the event loop keeps a property of the streamers, if
    what it runs on each of them does. *)
Lemma step_holds (a : action) (w : world) :
  (forall i p, uses a w i p -> keeps i (exec i p)) ->
  (forall t s, In t (timers (snd w)) ->
     P (t_self t) s (snd w) ->
     P (t_self t) s
       (Streamer.next (t_self t) (t_when t) (t_offset t) (t_output t) s
          (drop_timer (t_id t) (snd w)))) ->
  (forall s e', Streamer.constructor None (snd w) = (Ok s, e') ->
                P (length (StreamCoordinator.streamers (fst w))) s e') ->
  holds P w /\ owned w -> holds P (step a w) /\ owned (step a w).
Proof.
  destruct w as [c e]. intros Hk Ht Hnew H. simpl in Ht, Hnew.
  destruct a as [dt|i m|m|id record|id|id|src]; simpl.
  - destruct (Qle_bool 0 dt); [|exact H].
    apply calmer_holds with (c := c) (e := e); auto.
    apply calmer_same; simpl; auto.
  - destruct H as [H Ho]. apply at_streamer_holds; [| | exact H | exact Ho].
    + apply (Hk i (Call m)). simpl. auto.
    + intros s e'. apply (exec_ext i (Call m)).
  - destruct m as [o| |o| |store| |id fileName]; simpl.
    + apply cstream_holds; auto.
      * intros o' i. apply (Hk i). simpl. eauto.
      * intros o' i. apply (Hk i). simpl. eauto.
    + apply cstop_holds; auto. intros i. now apply (Hk i).
    + apply cseek_holds; auto.
      * intros i. apply (Hk i). simpl. auto.
      * intros o' i. apply (Hk i). simpl. eauto.
      * intros o' i. apply (Hk i). simpl. eauto.
    + apply ccurrentTime_holds; auto. intros i. now apply (Hk i).
    + apply cload_holds; auto. intros cached fetched i. apply (Hk i).
      simpl. eauto.
    + now apply createStream_holds.
    + apply addClipToStream_holds; auto. intros i. now apply (Hk i).
  - now apply resolve_holds.
  - now apply reject_holds.
  - now apply fire_holds.
  - apply ended_holds; auto. intros i. now apply (Hk i).
Qed.

End Lifting.

(* ================================================================== *)
(** ** Every reachable world is sound *)

(** [sound] looks at the output node, at [stopped] and at [ready] only. *)
Lemma sound_record (i : nat) (s s' : Streamer.t) (e : env) :
  Streamer.trackNode s' = Streamer.trackNode s ->
  Streamer.stopped s' = Streamer.stopped s ->
  Streamer.ready s' = Streamer.ready s ->
  sound i s e -> sound i s' e.
Proof.
  unfold sound, fresh_output. intros -> -> ->. auto.
Qed.

(** A streamer that plays may issue requests and set timers against its
    current output node. *)
Lemma sound_env (i : nat) (s : Streamer.t) (e e' : env) :
  Streamer.trackNode s < ac_nodes e' ->
  (forall f when offset output,
      In f (fetches e') -> f_then f = NextK when offset output ->
      In f (fetches e) \/
      (output = Streamer.trackNode s /\ Streamer.stopped s = false)) ->
  (forall t, In t (timers e') ->
      In t (timers e) \/
      (t_output t = Streamer.trackNode s /\ Streamer.stopped s = false)) ->
  sound i s e -> sound i s e'.
Proof.
  intros Hn Hf Ht (_ & Hr & Sf & St).
  split; [exact Hn | split; [exact Hr | split]].
  - intros f when offset output Hin Hself Hk.
    destruct (Hf f when offset output Hin Hk) as [Hold | [-> Hs]].
    + eapply Sf; eauto.
    + split; [lia | congruence].
  - intros t Hin Hself.
    destruct (Ht t Hin) as [Hold | [-> Hs]].
    + eapply St; eauto.
    + split; [lia | congruence].
Qed.

Lemma sound_frame (i j : nat) (s : Streamer.t) (e e' : env) :
  i <> j -> ext i e e' -> sound j s e -> sound j s e'.
Proof.
  intros Hne (Hn & Hf & Ht & _) (Sn & Sr & Sf & St).
  split; [lia | split; [exact Sr | split]].
  - intros f when offset output Hin Hself Hk.
    destruct (Hf f Hin) as [Hold|Hnew]; [|congruence]. eapply Sf; eauto.
  - intros t Hin Hself.
    destruct (Ht t Hin) as [Hold|Hnew]; [|congruence]. eapply St; eauto.
Qed.

Lemma stop_sound (i : nat) (s : Streamer.t) (e : env) :
  sound i s e ->
  sound i (fst (Streamer.stop s e)) (snd (Streamer.stop s e)) /\
  Streamer.trackNode s <= Streamer.trackNode (fst (Streamer.stop s e)).
Proof.
  intros H. unfold Streamer.stop.
  destruct (_ || _); [split; [exact H | simpl; lia]|].
  simpl. split; [|destruct H; lia].
  destruct H as (Sn & Sr & Sf & St).
  split; [simpl | split; [simpl; congruence | split]].
  - unfold clearTimeout, drop_timer. destruct (Streamer.fetchtimer s); simpl; lia.
  - intros f when offset output Hin Hself Hk.
    assert (Hin' : In f (fetches e)).
    { unfold clearTimeout, drop_timer in Hin.
      destruct (Streamer.fetchtimer s); exact Hin. }
    destruct (Sf f when offset output Hin' Hself Hk) as [Hle _].
    unfold fresh_output. simpl. lia.
  - intros t Hin Hself.
    assert (Hin' : In t (timers e)).
    { unfold clearTimeout, drop_timer in Hin.
      destruct (Streamer.fetchtimer s); simpl in Hin; members; auto. }
    destruct (St t Hin' Hself) as [Hle _].
    unfold fresh_output. simpl. lia.
Qed.

Lemma play_sound (i : nat) src when offset (s : Streamer.t) (e : env) :
  Streamer.stopped s = false -> sound i s e ->
  let r := Streamer.play i src when offset (Streamer.trackNode s) s e in
  sound i (fst r) (snd r) /\ Streamer.trackNode (fst r) = Streamer.trackNode s.
Proof.
  intros Hs H. unfold Streamer.play, setTimeout.
  destruct (Num.ge _ _); simpl; (split; [|reflexivity]).
  - apply sound_record with (s := s); auto.
  - apply sound_record with (s := s); auto.
    apply sound_env with (e := e); simpl; auto.
    + now destruct H.
    + intros t Hin. members; auto.
Qed.

Lemma next_sound (i : nat) when offset (s : Streamer.t) (e : env) :
  Streamer.stopped s = false -> sound i s e ->
  sound i s (Streamer.next i when offset (Streamer.trackNode s) s e).
Proof.
  intros Hs H. unfold Streamer.next, getAudioBuffer. simpl.
  apply sound_env with (e := e); simpl; auto.
  - now destruct H.
  - intros f w o out Hin Hk. members; auto. simpl in Hk.
    injection Hk as _ _ <-. auto.
Qed.

Lemma next_then_sound (i : nat) when offset output record
    (s : Streamer.t) (e : env) :
  sound i s e ->
  let r := Streamer.next_then i when offset output record s e in
  sound i (fst r) (snd r) /\ Streamer.trackNode s <= Streamer.trackNode (fst r).
Proof.
  intros H. unfold Streamer.next_then.
  destruct (Streamer.stopped s) eqn:Hs; simpl; [auto|].
  destruct (Nat.eqb output (Streamer.trackNode s)) eqn:Ho; simpl; [|auto].
  apply Nat.eqb_eq in Ho. subst output.
  set (s1 := match Streamer.startTime s with None => _ | Some _ => _ end).
  assert (Hs1 : Streamer.trackNode s1 = Streamer.trackNode s /\
                Streamer.stopped s1 = false /\
                Streamer.ready s1 = Streamer.ready s).
  { subst s1. destruct (Streamer.startTime s); simpl; auto. }
  destruct Hs1 as (Ht1 & Hst1 & Hr1). rewrite <- Ht1.
  match goal with
  | |- context [Streamer.play i ?src ?w ?o _ s1 ?e1] =>
      pose proof (play_sound i src w o s1 e1 Hst1) as Hp
  end.
  simpl in Hp. destruct Hp as [Hp1 Hp2].
  - apply sound_record with (s := s); auto; try congruence.
    apply sound_env with (e := e); simpl; auto. destruct H; lia.
  - split; [exact Hp1 | lia].
Qed.

Lemma stream_sound (i : nat) offset (s : Streamer.t) (e : env) :
  sound i s e ->
  let r := snd (Streamer.stream i offset s e) in
  sound i (fst r) (snd r) /\ Streamer.trackNode s <= Streamer.trackNode (fst r).
Proof.
  intros H. unfold Streamer.stream.
  destruct (Streamer.ready s) eqn:Hr; simpl; [|auto].
  destruct (Streamer.stopped s) eqn:Hs; simpl; [|auto].
  set (w1 := match Streamer.ending s with Some _ => _ | None => _ end).
  assert (H1 : sound i (fst w1) (snd w1) /\
               Streamer.trackNode (fst w1) = Streamer.trackNode s /\
               Streamer.ready (fst w1) = true).
  { subst w1. destruct (Streamer.ending s); simpl; auto. }
  destruct w1 as [s1 e1]. simpl in H1. destruct H1 as (H1 & Ht1 & Hr1).
  destruct (Num.ge _ _).
  { simpl. rewrite <- Ht1. now apply stop_sound. }
  set (w2 := if Streamer.garbageBuffer s1 then _ else _).
  assert (H2 : sound i (fst w2) (snd w2) /\
               Streamer.trackNode (fst w2) = Streamer.trackNode s /\
               Streamer.ready (fst w2) = true).
  { subst w2. destruct (Streamer.garbageBuffer s1); simpl; auto.
    split; auto. apply sound_record with (s := s1); auto.
    apply sound_env with (e := e1); simpl; auto. destruct H1; lia. }
  destruct w2 as [s2 e2]. simpl in H2. destruct H2 as (H2 & Ht2 & Hr2).
  set (s4 := Streamer.set_primed None _).
  assert (H4 : sound i s4 e2).
  { destruct H2 as (Sn & Sr & Sf & St). subst s4.
    split; [exact Sn | split; [intros _; exact Hr2 | split]].
    - intros f w o out Hin Hself Hk.
      destruct (Sf f w o out Hin Hself Hk) as [Hle _].
      split; [exact Hle | simpl; congruence].
    - intros t Hin Hself. destruct (St t Hin Hself) as [Hle _].
      split; [exact Hle | simpl; congruence]. }
  assert (Hs4 : Streamer.stopped s4 = false) by reflexivity.
  assert (Ht4 : Streamer.trackNode s4 = Streamer.trackNode s) by exact Ht2.
  cbn [Streamer.primed Streamer.set_startOffset Streamer.set_stopped].
  change (Streamer.trackNode s2) with (Streamer.trackNode s4).
  destruct (Streamer.primed s2) as [[at_offset src]|].
  - destruct (Num.seq _ _); cbn [fst snd].
    + destruct (play_sound i src (now e2) (Streamer.default_offset offset s)
                  s4 e2 Hs4 H4) as [A B].
      split; [exact A | rewrite B, Ht4; lia].
    + split; [now apply next_sound | rewrite Ht4; lia].
  - cbn [fst snd]. split; [now apply next_sound | rewrite Ht4; lia].
Qed.

Lemma seek_sound (i : nat) offset (s : Streamer.t) (e : env) :
  sound i s e ->
  let r := snd (Streamer.seek i offset s e) in
  sound i (fst r) (snd r) /\ Streamer.trackNode s <= Streamer.trackNode (fst r).
Proof.
  intros H. unfold Streamer.seek. destruct (negb (Streamer.stopped s)).
  - destruct (stop_sound i s e H) as [A B].
    destruct (Streamer.stop s e) as [s1 e1]. simpl in *.
    destruct (stream_sound i (Some offset) s1 e1 A) as [C D].
    split; [exact C | lia].
  - simpl. split; [|lia]. now apply sound_record with (s := s).
Qed.

Lemma exec_sound (i : nat) (p : prim) (s : Streamer.t) (e : env) :
  sound i s e ->
  sound i (fst (exec i p s e)) (snd (exec i p s e)) /\
  Streamer.trackNode s <= Streamer.trackNode (fst (exec i p s e)).
Proof.
  intros H. destruct p as [m|offset record|when offset output record];
    unfold exec.
  - destruct m as [o|o| |o| |force cached fetched|fileName]; unfold call.
    + simpl. split; [|lia]. unfold Streamer.prime, getAudioBuffer.
      destruct (negb _); [exact H|]. destruct (Num.ge _ _); [exact H|].
      simpl. apply sound_env with (e := e); simpl; auto.
      * now destruct H.
      * intros f w o' out Hin Hk. members; auto. discriminate Hk.
    + now apply stream_sound.
    + now apply stop_sound.
    + now apply seek_sound.
    + simpl. auto.
    + simpl. split.
      * unfold Streamer.load.
        destruct (if force then None else cached); [|destruct fetched];
          simpl; auto.
        all: destruct H as (Sn & Sr & Sf & St);
          (split; [exact Sn | split; [reflexivity | split]]).
        all: first [ intros f w o' out Hin Hself Hk;
                     exact (Sf f w o' out Hin Hself Hk)
                   | intros t Hin Hself; exact (St t Hin Hself) ].
      * unfold Streamer.load.
        destruct (if force then None else cached); [|destruct fetched];
          simpl; lia.
    + simpl. split; [|lia]. now apply sound_record with (s := s).
  - simpl. split; [|lia]. apply sound_record with (s := s); auto.
    apply sound_env with (e := e); simpl; auto. destruct H; lia.
  - now apply next_then_sound.
Qed.

(* ================================================================== *)
(** ** Streamers are never removed *)

Lemma at_streamer_length (i : nat) f (c : StreamCoordinator.t) (e : env) :
  length (StreamCoordinator.streamers (fst (StreamCoordinator.at_streamer i f c e)))
  = length (StreamCoordinator.streamers c).
Proof.
  unfold StreamCoordinator.at_streamer.
  destruct (StreamCoordinator.streamers c !! i); [|reflexivity].
  destruct (f t e). simpl. apply length_insert.
Qed.

Lemma forEach_length f (l : list Streamer.t) (i : nat) (e : env) :
  length (fst (snd (StreamCoordinator.forEach f i l e))) = length l.
Proof.
  revert i e. induction l as [|s l IH]; intros i e; simpl; [reflexivity|].
  destruct (f i s e) as [[[]|err] [s' e1]]; simpl; [|reflexivity].
  specialize (IH (S i) e1).
  destruct (StreamCoordinator.forEach f (S i) l e1) as [res [r' e2]].
  simpl in *. now rewrite IH.
Qed.

Lemma barrier_then_length (offset : num) (c : StreamCoordinator.t) (e : env) :
  length (StreamCoordinator.streamers (fst (StreamCoordinator.barrier_then offset c e)))
  = length (StreamCoordinator.streamers c).
Proof.
  unfold StreamCoordinator.barrier_then.
  set (c1 := match StreamCoordinator.startTime c with
             | None => _ | Some _ => _ end).
  assert (Hc1 : StreamCoordinator.streamers c1 = StreamCoordinator.streamers c).
  { subst c1. now destruct (StreamCoordinator.startTime c). }
  pose proof (forEach_length (StreamCoordinator.do_stream offset)
                (StreamCoordinator.streamers c1) 0 e) as Hl.
  destruct (StreamCoordinator.forEach _ 0 _ e) as [res [l e1]].
  simpl in *. now rewrite Hl, Hc1.
Qed.

Lemma settle_length (c : StreamCoordinator.t) (e : env) :
  length (StreamCoordinator.streamers (fst (StreamCoordinator.settle c e)))
  = length (StreamCoordinator.streamers c).
Proof.
  unfold StreamCoordinator.settle.
  generalize (set_barriers
                (List.filter (fun b => negb (StreamCoordinator.is_settled b))
                   (barriers e)) e).
  revert c.
  induction (List.filter StreamCoordinator.is_settled (barriers e)) as [|b l IH];
    intros c e1; simpl; [reflexivity|].
  pose proof (barrier_then_length (b_offset b) c e1) as Hb.
  destruct (StreamCoordinator.barrier_then (b_offset b) c e1) as [c2 e2].
  simpl in Hb. now rewrite IH.
Qed.

Lemma cstop_length (c : StreamCoordinator.t) (e : env) :
  length (StreamCoordinator.streamers (fst (StreamCoordinator.stop c e)))
  = length (StreamCoordinator.streamers c).
Proof.
  unfold StreamCoordinator.stop.
  destruct (StreamCoordinator.stopped c); [reflexivity|].
  pose proof (forEach_length StreamCoordinator.do_stop
                (StreamCoordinator.streamers c) 0 e) as Hl.
  destruct (StreamCoordinator.forEach _ 0 _ e) as [res [l e1]].
  simpl in *. exact Hl.
Qed.

Lemma cstream_length offset (c : StreamCoordinator.t) (e : env) :
  length (StreamCoordinator.streamers (fst (StreamCoordinator.stream offset c e)))
  = length (StreamCoordinator.streamers c).
Proof.
  unfold StreamCoordinator.stream.
  destruct (if StreamCoordinator.garbageBuffer c then _ else _)
    as [c1 e1] eqn:Hg.
  assert (Hc1 : StreamCoordinator.streamers c1 = StreamCoordinator.streamers c).
  { destruct (StreamCoordinator.garbageBuffer c); injection Hg as <- _;
      reflexivity. }
  destruct (StreamCoordinator.map_prime _ 0 _ e1) as [ps e2].
  rewrite settle_length. simpl. now rewrite Hc1.
Qed.

Lemma step_length (a : action) (w : world) :
  length (StreamCoordinator.streamers (fst w))
  <= length (StreamCoordinator.streamers (fst (step a w))).
Proof.
  destruct w as [c e].
  destruct a as [dt|i m|m|id record|id|id|src]; simpl.
  - destruct (Qle_bool 0 dt); simpl; lia.
  - rewrite at_streamer_length. lia.
  - destruct m as [o| |o| |store| |id fileName]; simpl.
    + rewrite cstream_length. lia.
    + rewrite cstop_length. lia.
    + unfold StreamCoordinator.seek.
      destruct (negb (StreamCoordinator.stopped c)); simpl; [|lia].
      pose proof (cstop_length c e) as Hs.
      destruct (StreamCoordinator.stop c e) as [c1 e1].
      rewrite cstream_length. simpl in Hs. lia.
    + unfold StreamCoordinator.currentTime.
      destruct (StreamCoordinator.stopped c); simpl; [lia|].
      destruct (Num.ge _ _); simpl; [rewrite cstop_length|]; lia.
    + unfold StreamCoordinator.load.
      pose proof (map_load_length store (StreamCoordinator.streamers c) 0) as Hn.
      destruct (StreamCoordinator.map_load store 0 _) as [ps l]. simpl in Hn.
      destruct (forallb _ ps); simpl; lia.
    + unfold StreamCoordinator.createStream.
      destruct (Streamer.constructor None e) as [[s|err] e1];
        destruct (StreamCoordinator.playbackMode c); simpl;
        try rewrite length_app; simpl; lia.
    + unfold StreamCoordinator.addClipToStream, StreamCoordinator.findStreamer.
      destruct (StreamCoordinator.index_of id 0 _).
      * rewrite at_streamer_length. lia.
      * destruct (Streamer.constructor None e). simpl. lia.
  - unfold resolve. destruct (List.find _ _) as [f|]; simpl; [|lia].
    destruct (f_then f).
    + pose proof (at_streamer_length (f_self f)
                    (Streamer.prime_resume offset record) c (drop_fetch id e)) as Ha.
      destruct (StreamCoordinator.at_streamer _ _ c _) as [c1 e2].
      rewrite settle_length. simpl in Ha. lia.
    + rewrite at_streamer_length. lia.
  - unfold reject. destruct (List.find _ _) as [f|]; simpl; [|lia].
    destruct (f_then f); simpl; lia.
  - unfold fire. destruct (List.find _ _) as [t|]; simpl; [|lia].
    rewrite at_streamer_length. lia.
  - unfold ended. destruct (List.find _ _) as [[src' self]|]; simpl; [|lia].
    rewrite at_streamer_length. lia.
Qed.

Lemma run_length (l : list action) (w : world) :
  length (StreamCoordinator.streamers (fst w))
  <= length (StreamCoordinator.streamers (fst (run l w))).
Proof.
  revert w. induction l as [|a l IH]; intros w; [simpl; lia|].
  change (run (a :: l) w) with (run l (step a w)).
  pose proof (step_length a w). specialize (IH (step a w)). lia.
Qed.

Lemma run_app (l l' : list action) (w : world) :
  run (l ++ l') w = run l' (run l w).
Proof. unfold run. apply fold_left_app. Qed.

Lemma reachable_run (l : list action) (w : world) :
  reachable w -> reachable (run l w).
Proof.
  revert w. induction l as [|a l IH]; intros w H; [exact H|].
  change (run (a :: l) w) with (run l (step a w)).
  apply IH. now constructor.
Qed.

(* ================================================================== *)
(** ** Playback of a whole track *)

(** A track of two and a half seconds played from the start, every
    answer of the store and every timer coming in turn: the windows
    requested are [0,1), [1,2) and [2,2.5), the chunks are started one
    second apart, and when the last chunk has ended the streamer is
    stopped with its cursor back at 0. *)
Example full_playback :
  let w0 := run [OnStreamer 0 (Stream (Some (Fin 0)))] short_track in
  let w1 := run [Resolved 0 (Fin 1); Timeout 0] w0 in
  let w2 := run [Resolved 1 (Fin 1); Timeout 1] w1 in
  let w3 := run [Resolved 2 (Fin 0.5)] w2 in
  let w4 := run [Tick 2.5; Ended 5] w3 in
  List.map window (fetches (snd w0)) = [(Fin 0, Fin 1)] /\
  List.map window (fetches (snd w1)) = [(Fin 1, Fin 1)] /\
  List.map window (fetches (snd w2)) = [(Fin 2, Fin 0.5)] /\
  ac_started (snd w3) = [(2, Fin 0); (3, Fin 10); (4, Fin 11); (5, Fin 12)] /\
  timers (snd w3) = [] /\ fetches (snd w3) = [] /\
  option_map Streamer.stopped (streamer_at 0 w3) = Some false /\
  option_map Streamer.stopped (streamer_at 0 w4) = Some true /\
  option_map Streamer.startOffset (streamer_at 0 w4) = Some (Some Num.zero).
Proof. vm_compute. repeat split. Qed.

(** A track stopped half a second after its first chunk was started has
    its cursor at 0.5, and [stream()] without an offset resumes there. *)
Example pause_and_resume :
  let w0 := run [OnStreamer 0 (Stream (Some (Fin 0))); Resolved 0 (Fin 1);
                 Tick 0.5; OnStreamer 0 Stop] one_track in
  let w1 := run [OnStreamer 0 (Stream None)] w0 in
  option_map Streamer.startOffset (streamer_at 0 w0) = Some (Some (Fin 0.5)) /\
  List.map window (fetches (snd w1)) = [(Fin 0.5, Fin 1)].
Proof. vm_compute. repeat split. Qed.

(* ================================================================== *)
(** ** Sound worlds *)

Lemma timer_sound (t : timer) (s : Streamer.t) (e : env) :
  In t (timers e) -> sound (t_self t) s e ->
  sound (t_self t) s
    (Streamer.next (t_self t) (t_when t) (t_offset t) (t_output t) s
       (drop_timer (t_id t) e)).
Proof.
  intros Hin (Sn & Sr & Sf & St).
  split; [exact Sn | split; [exact Sr | split]].
  - intros f when offset output Hf Hself Hk.
    unfold Streamer.next, getAudioBuffer in Hf. simpl in Hf. members.
    + eapply Sf; eauto.
    + simpl in Hk. injection Hk as _ _ <-. now apply St.
  - intros t' Hin' Hself.
    unfold Streamer.next, getAudioBuffer in Hin'. simpl in Hin'. members.
    now apply St.
Qed.

Lemma new_sound (n : nat) (s : Streamer.t) (e e' : env) :
  owned_by n e -> Streamer.constructor None e = (Ok s, e') -> sound n s e'.
Proof.
  intros (Of & Ot & _) Hc. unfold Streamer.constructor in Hc. simpl in Hc.
  injection Hc as <- <-.
  split; [simpl; lia | split; [discriminate | split]].
  - intros f when offset output Hin Hself. apply Of in Hin. lia.
  - intros t Hin Hself. apply Ot in Hin. lia.
Qed.

Lemma step_sound (a : action) (w : world) :
  holds sound w /\ owned w -> holds sound (step a w) /\ owned (step a w).
Proof.
  intros H. apply (step_holds sound sound_frame); [| | | exact H].
  - intros i p _ s e Hs. now apply exec_sound.
  - intros t s. apply timer_sound.
  - intros s e'. apply new_sound. apply H.
Qed.

Lemma reachable_sound (w : world) :
  reachable w -> holds sound w /\ owned w.
Proof.
  induction 1 as [m|a w _ IH].
  - split.
    + intros j s Hj. discriminate Hj.
    + split; [|split]; intros x [].
  - now apply step_sound.
Qed.

(** Once the output node of streamer [i] is newer than [n] it stays so. *)
Lemma newer_frame (i n : nat) (i' j : nat) (s : Streamer.t) (e e' : env) :
  i' <> j -> ext i' e e' -> newer i n j s e -> newer i n j s e'.
Proof. intros Hne He [Hs Hn]. split; [eapply sound_frame; eauto | exact Hn]. Qed.

Lemma step_newer (i n : nat) (a : action) (w : world) :
  i < length (StreamCoordinator.streamers (fst w)) ->
  holds (newer i n) w /\ owned w ->
  holds (newer i n) (step a w) /\ owned (step a w).
Proof.
  intros Hi H.
  apply (step_holds (newer i n) (newer_frame i n)); [| | | exact H].
  - intros j p _ s e [Hs Hn].
    destruct (exec_sound j p s e Hs) as [A B].
    split; [exact A | intros Hj; specialize (Hn Hj); lia].
  - intros t s Hin [Hs Hn]. split; [now apply timer_sound | exact Hn].
  - intros s e' Hc. split; [eapply new_sound; eauto; apply H | intros Hj; lia].
Qed.

Lemma run_newer (i n : nat) (l : list action) (w : world) :
  i < length (StreamCoordinator.streamers (fst w)) ->
  holds (newer i n) w /\ owned w ->
  holds (newer i n) (run l w) /\ owned (run l w).
Proof.
  revert w. induction l as [|a l IH]; intros w Hi H; [exact H|].
  change (run (a :: l) w) with (run l (step a w)).
  apply IH.
  - pose proof (step_length a w). lia.
  - now apply step_newer.
Qed.

Lemma stop_fetches (s : Streamer.t) (e : env) :
  fetches (snd (Streamer.stop s e)) = fetches e.
Proof.
  unfold Streamer.stop. destruct (_ || _); [reflexivity|].
  unfold clearTimeout. destruct (Streamer.fetchtimer s); reflexivity.
Qed.

Lemma stop_stopped_after (i : nat) (s : Streamer.t) (e : env) :
  sound i s e -> Streamer.stopped (fst (Streamer.stop s e)) = true.
Proof.
  intros (_ & Hr & _). unfold Streamer.stop.
  destruct (Streamer.stopped s) eqn:Hs; simpl; [exact Hs|].
  rewrite (Hr eq_refl). reflexivity.
Qed.

Lemma set_streamers_same (c : StreamCoordinator.t) :
  StreamCoordinator.set_streamers (StreamCoordinator.streamers c) c = c.
Proof. now destruct c. Qed.

Lemma at_streamer_lookup (i : nat) f (c : StreamCoordinator.t) (e : env)
    (s : Streamer.t) :
  StreamCoordinator.streamers c !! i = Some s ->
  StreamCoordinator.at_streamer i f c e
  = (StreamCoordinator.set_streamers
       (<[i := fst (f s e)]> (StreamCoordinator.streamers c)) c,
     snd (f s e)).
Proof.
  intros H. unfold StreamCoordinator.at_streamer. rewrite H.
  now destruct (f s e).
Qed.

(** While a streamer is stopped, each of its requests of [next] still
    in flight has an output node older than the node of the streamer,
    and so it is from then on. *)
Lemma stale_when_stopped (w : world) (i : nat) (s : Streamer.t) (f : fetch)
    when offset output (l : list action) :
  reachable w ->
  streamer_at i w = Some s -> Streamer.stopped s = true ->
  In f (fetches (snd w)) -> f_self f = i ->
  f_then f = NextK when offset output ->
  exists s', streamer_at i (run l w) = Some s' /\
             output < Streamer.trackNode s'.
Proof.
  intros Hr Hsi Hst Hin Hself Hk.
  destruct (reachable_sound w Hr) as [Hs Ho].
  assert (Hi : i < length (StreamCoordinator.streamers (fst w)))
    by (eapply lookup_lt_Some; exact Hsi).
  assert (H1 : holds (newer i output) w /\ owned w).
  { split; [|exact Ho].
    intros j s1 Hj. split; [now apply Hs|]. intros ->.
    unfold streamer_at in Hsi. rewrite Hsi in Hj. injection Hj as <-.
    destruct (Hs i s Hsi) as (_ & _ & Sf & _).
    destruct (Sf f when offset output Hin Hself Hk) as [_ Hlt]. auto. }
  destruct (run_newer i output l w Hi H1) as [H2 _].
  pose proof (run_length l w) as Hl.
  destruct (lookup_lt_is_Some_2 (StreamCoordinator.streamers (fst (run l w))) i)
    as [s2 Hs2]; [lia|].
  exists s2. split; [exact Hs2|]. now apply (H2 i s2 Hs2).
Qed.

(** [stop] called on a streamer leaves it stopped, with the requests in
    flight still in flight. *)
Lemma stopped_after_stop (w : world) (i : nat) (s : Streamer.t) :
  reachable w -> streamer_at i w = Some s ->
  (exists s', streamer_at i (step (OnStreamer i Stop) w) = Some s' /\
              Streamer.stopped s' = true) /\
  fetches (snd (step (OnStreamer i Stop) w)) = fetches (snd w).
Proof.
  intros Hr Hsi.
  destruct (reachable_sound w Hr) as [Hs _].
  destruct w as [c e]. unfold streamer_at in *. simpl in Hsi |- *.
  assert (Hi : i < length (StreamCoordinator.streamers c))
    by (eapply lookup_lt_Some; exact Hsi).
  unfold StreamCoordinator.at_streamer. rewrite Hsi. unfold call.
  pose proof (stop_stopped_after i s e (Hs i s Hsi)) as Hst.
  pose proof (stop_fetches s e) as Hfe.
  destruct (Streamer.stop s e) as [s' e']. simpl in *.
  split; [|exact Hfe].
  exists s'. split; [|exact Hst].
  now apply list_lookup_insert_eq.
Qed.

(** The answer to a request of [next] whose output node is older than
    the node of its streamer only removes the request. *)
Lemma stale_dropped (w : world) (s : Streamer.t) (f : fetch)
    when offset output record :
  streamer_at (f_self f) w = Some s -> output < Streamer.trackNode s ->
  f_then f = NextK when offset output ->
  List.find (has_id (f_id f)) (fetches (snd w)) = Some f ->
  step (Resolved (f_id f) record) w = (fst w, drop_fetch (f_id f) (snd w)).
Proof.
  intros Hs Hlt Hk Hfind. destruct w as [c e]. simpl in *.
  unfold resolve. rewrite Hfind, Hk.
  unfold StreamCoordinator.at_streamer. unfold streamer_at in Hs.
  simpl in Hs. rewrite Hs.
  unfold Streamer.next_then.
  assert (Hne : Nat.eqb output (Streamer.trackNode s) = false)
    by (apply Nat.eqb_neq; lia).
  rewrite Hne, orb_true_r.
  rewrite list_insert_id by exact Hs.
  now rewrite set_streamers_same.
Qed.

(** The answer to a request of [prime], no [Promise.all] waiting: the
    chunk becomes the primed chunk of the streamer, whatever its state. *)
Lemma prime_answered (w : world) (f : fetch) (o record : num)
    (s : Streamer.t) :
  List.find (has_id (f_id f)) (fetches (snd w)) = Some f ->
  f_then f = PrimeK o ->
  streamer_at (f_self f) w = Some s ->
  barriers (snd w) = [] ->
  let w' := step (Resolved (f_id f) record) w in
  streamer_at (f_self f) w'
  = Some (Streamer.set_primed
            (Some (o, {| src_node := ac_nodes (snd w); src_buffer := record |}))
            s) /\
  ac_nodes (snd w') = S (ac_nodes (snd w)) /\
  ac_started (snd w') = ac_started (snd w).
Proof.
  destruct w as [c e]. unfold streamer_at. cbn [fst snd step].
  intros Hf Hk Hs Hb. unfold resolve. rewrite Hf, Hk.
  rewrite (at_streamer_lookup (f_self f) _ c _ s Hs).
  unfold StreamCoordinator.settle, fulfil.
  cbn [snd fst barriers set_barriers Streamer.prime_resume createBufferSource
       createNode set_ac_nodes drop_fetch set_fetches].
  rewrite Hb. cbn [map List.filter fold_left fst snd
    StreamCoordinator.streamers StreamCoordinator.set_streamers
    ac_nodes ac_started set_barriers set_ac_nodes].
  split; [|split; reflexivity].
  apply list_lookup_insert_eq. now apply lookup_lt_Some in Hs.
Qed.

(** C1, amended. The continuation of a chunk request of [next] schedules
    playback only if the streamer is still playing and the output node
    the request was issued against is still the node of the streamer,
    and then it does schedule the chunk. A request of [next] that was in
    flight when [stop] was called, whatever is done afterwards, is
    dropped when it is answered: nothing changes but that the request is
    no longer pending, and nothing is scheduled; the same holds of a
    request of [next] in flight while its streamer is stopped, whichever
    call stopped it. The continuation of a request of [prime] has no
    such guard: whatever the state of the streamer, it creates a source
    and makes the chunk the primed chunk of the streamer; it starts
    nothing itself. *)
Theorem staleness_guard :
  (forall self when offset output record s e,
      (Streamer.stopped s = true \/ output <> Streamer.trackNode s ->
       Streamer.next_then self when offset output record s e = (s, e)) /\
      (Streamer.stopped s = false -> output = Streamer.trackNode s ->
       exists at_time,
         ac_started (snd (Streamer.next_then self when offset output record s e))
         = ac_started e ++ [(ac_nodes e, at_time)])) /\
  (forall offset record s e,
      ac_started (snd (Streamer.prime_resume offset record s e))
      = ac_started e) /\
  (forall w i f when offset output l record,
      reachable w ->
      In f (fetches (snd w)) -> f_self f = i ->
      f_then f = NextK when offset output ->
      let w' := run l (step (OnStreamer i Stop) w) in
      List.find (has_id (f_id f)) (fetches (snd w')) = Some f ->
      step (Resolved (f_id f) record) w'
      = (fst w', drop_fetch (f_id f) (snd w'))) /\
  (forall w i s f when offset output l record,
      reachable w ->
      streamer_at i w = Some s -> Streamer.stopped s = true ->
      In f (fetches (snd w)) -> f_self f = i ->
      f_then f = NextK when offset output ->
      let w' := run l w in
      List.find (has_id (f_id f)) (fetches (snd w')) = Some f ->
      step (Resolved (f_id f) record) w'
      = (fst w', drop_fetch (f_id f) (snd w'))) /\
  (forall offset record s e,
      Streamer.prime_resume offset record s e
      = (Streamer.set_primed
           (Some (offset, {| src_node := ac_nodes e; src_buffer := record |})) s,
         set_ac_nodes (S (ac_nodes e)) e)) /\
  (forall w f o record s,
      List.find (has_id (f_id f)) (fetches (snd w)) = Some f ->
      f_then f = PrimeK o ->
      streamer_at (f_self f) w = Some s ->
      barriers (snd w) = [] ->
      let w' := step (Resolved (f_id f) record) w in
      streamer_at (f_self f) w'
      = Some (Streamer.set_primed
                (Some (o, {| src_node := ac_nodes (snd w);
                             src_buffer := record |})) s) /\
      ac_nodes (snd w') = S (ac_nodes (snd w)) /\
      ac_started (snd w') = ac_started (snd w)).
Proof.
  split; [|split; [|split; [|split; [|split]]]].
  - intros self when offset output record s e. split.
    + intros H. unfold Streamer.next_then.
      destruct (Streamer.stopped s); [reflexivity|].
      destruct H as [H|H]; [discriminate H|].
      apply Nat.eqb_neq in H. now rewrite H.
    + intros Hs ->. unfold Streamer.next_then, Streamer.play.
      rewrite Hs, Nat.eqb_refl. simpl.
      destruct (Num.ge _ _); simpl; eauto.
  - reflexivity.
  - intros w i f when offset output l record Hr Hin Hself Hk w' Hfind.
    destruct (reachable_sound w Hr) as [_ (Of & _)].
    assert (Hi : i < length (StreamCoordinator.streamers (fst w)))
      by (apply Of in Hin; lia).
    destruct (lookup_lt_is_Some_2 _ _ Hi) as [s Hsi].
    destruct (stopped_after_stop w i s Hr Hsi) as [(s1 & Hs1 & Hst) Hfe].
    rewrite <- Hfe in Hin.
    destruct (stale_when_stopped _ i s1 f when offset output l
                (reachable_step _ _ Hr) Hs1 Hst Hin Hself Hk)
      as (s2 & Hs2 & Hlt).
    subst i. now apply (stale_dropped w' s2 f when offset output).
  - intros w i s f when offset output l record Hr Hsi Hst Hin Hself Hk w' Hfind.
    destruct (stale_when_stopped w i s f when offset output l
                Hr Hsi Hst Hin Hself Hk) as (s2 & Hs2 & Hlt).
    subst i. now apply (stale_dropped w' s2 f when offset output).
  - reflexivity.
  - exact prime_answered.
Qed.

(* ================================================================== *)
(** ** The claims about one streamer *)

(** Witness of C1: the request issued by a first [stream( 0 )] is still
    in flight when the track is stopped and started again; its answer
    then changes nothing. *)
Lemma staleness_guard_witness :
  step (Resolved 0 (Fin 1))
    (run [OnStreamer 0 (Stream (Some (Fin 0)))]
       (step (OnStreamer 0 Stop) one_track_waiting))
  = (fst (run [OnStreamer 0 (Stream (Some (Fin 0)))]
            (step (OnStreamer 0 Stop) one_track_waiting)),
     drop_fetch 0
       (snd (run [OnStreamer 0 (Stream (Some (Fin 0)))]
               (step (OnStreamer 0 Stop) one_track_waiting)))).
Proof.
  apply (proj1 (proj2 (proj2 staleness_guard)) one_track_waiting 0
           first_request (Fin 0) (Fin 0) 0
           [OnStreamer 0 (Stream (Some (Fin 0)))] (Fin 1)).
  - unfold one_track_waiting, one_track.
    apply reachable_run, reachable_run, reachable_boot.
  - vm_compute. auto.
  - reflexivity.
  - reflexivity.
  - vm_compute. reflexivity.
Defined.

(** C1 as stated fails on the requests of [prime]. A track that plays
    is primed at three seconds and stopped while the request is in
    flight: the answer, which comes after the [stop], creates a source
    and leaves it in the streamer as its primed chunk. And two tracks
    started together by the coordinator and stopped before the store
    has answered are both started by the answers, after the [stop]. *)
Lemma prime_answer_after_stop :
  (let w0 := run [OnStreamer 0 (Prime (Some (Fin 3)))] one_track_playing in
   let w1 := step (OnStreamer 0 Stop) w0 in
   let w2 := step (Resolved 1 (Fin 1)) w1 in
   option_map Streamer.stopped (streamer_at 0 w0) = Some false /\
   map f_then (fetches (snd w0)) = [PrimeK (Fin 3)] /\
   map f_id (fetches (snd w1)) = [1] /\
   option_map Streamer.stopped (streamer_at 0 w1) = Some true /\
   option_map Streamer.primed (streamer_at 0 w1) = Some None /\
   ac_nodes (snd w1) = 5 /\
   option_map Streamer.primed (streamer_at 0 w2)
   = Some (Some (Fin 3, {| src_node := 5; src_buffer := Fin 1 |})) /\
   ac_nodes (snd w2) = 6) /\
  (let v0 := run [OnCoordinator (CStream (Some (Fin 0)))] two_tracks_loaded in
   let v1 := step (OnCoordinator CStop) v0 in
   let v2 := run [Resolved 0 (Fin 1); Resolved 1 (Fin 1)] v1 in
   map f_then (fetches (snd v0)) = [PrimeK (Fin 0); PrimeK (Fin 0)] /\
   fetches (snd v1) = fetches (snd v0) /\
   StreamCoordinator.stopped (fst v1) = true /\
   map Streamer.stopped (StreamCoordinator.streamers (fst v1)) = [true; true] /\
   ac_started (snd v1) = [(4, Fin 0)] /\
   map Streamer.stopped (StreamCoordinator.streamers (fst v2))
   = [false; false] /\
   ac_started (snd v2)
   = [(4, Fin 0); (7, Fin 0); (5, Fin 1); (8, Fin 0); (6, Fin 1)] /\
   ac_edges (snd v2) = [(0, 1); (2, 3); (5, 0); (6, 2)]).
Proof. vm_compute. repeat split; reflexivity. Qed.




(** C5. [prime( offset )] is rejected with "not loaded" when the
    streamer is not ready, with "is greater than" when it is ready and
    the offset is at or beyond the duration; otherwise it requests
    exactly one chunk, at [offset] and of length
    [min( 1, duration - offset )], and on the answer stores that chunk
    with its offset as the primed chunk, whatever was primed before.
    An omitted offset stands for the cursor, or for 0 if there is none. *)
Theorem prime_spec (self : nat) (offset : option num) (s : Streamer.t)
    (e : env) :
  let o := Streamer.default_offset offset s in
  (Streamer.ready s = false ->
   Streamer.prime self offset s e = (Throw (NotLoaded (Streamer.name s)), e)) /\
  (Streamer.ready s = true ->
   Num.ge o (Num.of_optional (Streamer.duration s)) = true ->
   Streamer.prime self offset s e
   = (Throw (OffsetTooLarge o (Streamer.duration s)), e)) /\
  (Streamer.ready s = true ->
   Num.ge o (Num.of_optional (Streamer.duration s)) = false ->
   fst (Streamer.prime self offset s e) = Ok (fetch_next e) /\
   fetches (snd (Streamer.prime self offset s e))
   = fetches e ++
     [{| f_id := fetch_next e; f_self := self; f_name := Streamer.name s;
         f_offset := o;
         f_duration :=
           Num.min Num.one (Num.sub (Num.of_optional (Streamer.duration s)) o);
         f_then := PrimeK o |}] /\
   forall record s1 e1,
     Streamer.primed (fst (Streamer.prime_resume o record s1 e1))
     = Some (o, {| src_node := ac_nodes e1; src_buffer := record |})) /\
  Streamer.default_offset None s = Num.of_nullable (Streamer.startOffset s) /\
  (forall x, Streamer.default_offset (Some x) s = x).
Proof.
  unfold Streamer.prime. repeat split.
  - intros ->. reflexivity.
  - intros -> ->. reflexivity.
  - now rewrite H, H0.
  - now rewrite H, H0.
Qed.

Lemma prime_spec_witness :
  Streamer.ready paused_streamer = true /\
  Num.ge (Fin 2) (Num.of_optional (Streamer.duration paused_streamer)) = false /\
  fetches (snd (Streamer.prime 0 None paused_streamer env0))
  = [{| f_id := 0; f_self := 0; f_name := None; f_offset := Fin 2;
        f_duration := Num.min Num.one (Num.sub (Fin 5) (Fin 2));
        f_then := PrimeK (Fin 2) |}].
Proof.
  split; [reflexivity | split; [reflexivity|]].
  destruct (prime_spec 0 None paused_streamer env0) as (_ & _ & H & _).
  destruct (H eq_refl eq_refl) as (_ & H' & _). exact H'.
Defined.

(** C6. [stop()] is idempotent: a second [stop()] changes nothing of the
    streamer or of the browser; and on a streamer that is stopped or not
    ready the first one changes nothing either. *)
Theorem stop_idempotent (s : Streamer.t) (e : env) :
  Streamer.stop (fst (Streamer.stop s e)) (snd (Streamer.stop s e))
  = Streamer.stop s e /\
  (if Streamer.stopped s || negb (Streamer.ready s)
   then Streamer.stop s e = (s, e)
   else Streamer.stopped (fst (Streamer.stop s e)) = true).
Proof.
  unfold Streamer.stop.
  destruct (Streamer.stopped s || negb (Streamer.ready s)) eqn:H; simpl.
  - now rewrite H.
  - auto.
Qed.

(** C8. The constructor throws for every url that is neither null nor
    empty; with a null or an empty url it returns a streamer that has no
    url and no name, which [addClip] then sets, for a streamer of the
    coordinator through [addClipToStream]. *)
Theorem constructor_url (e : env) :
  (forall a r, fst (Streamer.constructor (Some (String a r)) e)
               = Throw TypeError) /\
  (exists s, fst (Streamer.constructor None e) = Ok s /\
             fst (Streamer.constructor (Some EmptyString) e) = Ok s /\
             Streamer.url s = None /\ Streamer.name s = None) /\
  (forall fileName s,
      Streamer.url (Streamer.addClip fileName s) = Some fileName /\
      Streamer.name (Streamer.addClip fileName s)
      = Some (asset_name fileName)) /\
  (forall id fileName c,
      match StreamCoordinator.index_of id 0 (StreamCoordinator.streamers c) with
      | Some i =>
          StreamCoordinator.streamers
            (fst (StreamCoordinator.addClipToStream id fileName c e)) !! i
          = option_map (Streamer.addClip fileName)
              (StreamCoordinator.streamers c !! i)
      | None =>
          StreamCoordinator.streamers
            (fst (StreamCoordinator.addClipToStream id fileName c e))
          = StreamCoordinator.streamers c
      end).
Proof.
  split; [reflexivity | split; [|split]].
  - eexists. repeat split; reflexivity.
  - intros fileName s. split; reflexivity.
  - intros id fileName c.
    unfold StreamCoordinator.addClipToStream, StreamCoordinator.findStreamer.
    destruct (StreamCoordinator.index_of id 0 _) as [i|]; [|reflexivity].
    unfold StreamCoordinator.at_streamer.
    destruct (StreamCoordinator.streamers c !! i) as [s|] eqn:Hi; simpl.
    + rewrite list_lookup_insert_eq; [reflexivity|].
      now apply lookup_lt_Some in Hi.
    + exact Hi.
Qed.

Lemma split_name_example :
  asset_name "http://host/audio/song.take1.mp3" = "song"%string.
Proof. reflexivity. Qed.

(* ================================================================== *)
(** ** The fields of the coordinator *)

Lemma at_streamer_fields (i : nat) f (c : StreamCoordinator.t) (e : env) :
  exists l, fst (StreamCoordinator.at_streamer i f c e)
            = StreamCoordinator.set_streamers l c.
Proof.
  unfold StreamCoordinator.at_streamer.
  destruct (StreamCoordinator.streamers c !! i) as [s|].
  - destruct (f s e). simpl. eauto.
  - exists (StreamCoordinator.streamers c). simpl. now destruct c.
Qed.





Lemma clock_ok_fields (c c' : StreamCoordinator.t) :
  StreamCoordinator.startTime c' = StreamCoordinator.startTime c ->
  clock_ok c -> clock_ok c'.
Proof. unfold clock_ok. now intros ->. Qed.



(* ================================================================== *)
(** ** No streamer touches the promises of the coordinator *)

Lemma stop_barriers (s : Streamer.t) (e : env) :
  barriers (snd (Streamer.stop s e)) = barriers e.
Proof.
  unfold Streamer.stop, clearTimeout. branch; reflexivity.
Qed.

Lemma play_barriers i src when offset output (s : Streamer.t) (e : env) :
  barriers (snd (Streamer.play i src when offset output s e)) = barriers e.
Proof. unfold Streamer.play. branch; reflexivity. Qed.

Lemma next_then_barriers i when offset output record (s : Streamer.t)
    (e : env) :
  barriers (snd (Streamer.next_then i when offset output record s e))
  = barriers e.
Proof.
  unfold Streamer.next_then. destruct (_ || _); [reflexivity|].
  simpl. now rewrite play_barriers.
Qed.

Lemma stream_barriers i offset (s : Streamer.t) (e : env) :
  barriers (snd (snd (Streamer.stream i offset s e))) = barriers e.
Proof.
  unfold Streamer.stream.
  destruct (negb (Streamer.ready s)); [reflexivity|].
  destruct (negb (Streamer.stopped s)); [reflexivity|].
  set (w1 := match Streamer.ending s with Some _ => _ | None => _ end).
  assert (H1 : barriers (snd w1) = barriers e).
  { subst w1. now destruct (Streamer.ending s). }
  destruct w1 as [s1 e1]. simpl in H1.
  destruct (Num.ge _ _).
  { simpl. now rewrite stop_barriers. }
  set (w2 := if Streamer.garbageBuffer s1 then _ else _).
  assert (H2 : barriers (snd w2) = barriers e).
  { subst w2. now destruct (Streamer.garbageBuffer s1). }
  destruct w2 as [s2 e2]. simpl in H2.
  simpl. destruct (Streamer.primed s2) as [[at_offset src]|]; simpl.
  - destruct (Num.seq _ _); simpl; [now rewrite play_barriers | exact H2].
  - exact H2.
Qed.

Lemma call_barriers (i : nat) (m : method) (s : Streamer.t) (e : env) :
  barriers (snd (call i m s e)) = barriers e.
Proof.
  destruct m; unfold call; cbn [snd]; auto using stop_barriers, stream_barriers.
  - unfold Streamer.prime. branch; reflexivity.
  - unfold Streamer.seek. destruct (negb (Streamer.stopped s)); [|reflexivity].
    pose proof (stop_barriers s e) as H.
    destruct (Streamer.stop s e) as [s1 e1]. simpl in H.
    now rewrite stream_barriers.
Qed.

(** A coordinator at rest stays at rest until [stream] or [seek] is
    called on it. *)
Lemma step_quiet (i : nat) (a : action) (w : world) :
  never_started i a = true -> quiet w -> quiet (step a w).
Proof.
  destruct w as [c e]. unfold quiet. simpl. intros Ha (Hs & Ho & Hb).
  destruct a as [dt|j m|m|id record|id|id|src]; simpl.
  - now destruct (Qle_bool 0 dt).
  - destruct (at_streamer_fields j (call j m) c e) as [l Hl].
    rewrite Hl. simpl. repeat split; auto.
    rewrite at_streamer_barriers; [exact Hb|]. intros. apply call_barriers.
  - destruct m as [o| |o| |store| |id fileName]; simpl; try discriminate Ha.
    + unfold StreamCoordinator.stop. rewrite Hs. auto.
    + unfold StreamCoordinator.currentTime. rewrite Hs. auto.
    + unfold StreamCoordinator.load.
      destruct (StreamCoordinator.map_load store 0 _) as [ps l].
      now destruct (forallb _ ps).
    + unfold StreamCoordinator.createStream.
      destruct (Streamer.constructor None e) as [[s|err] e1] eqn:Hc;
        unfold Streamer.constructor in Hc; simpl in Hc;
        injection Hc as _ <-;
        now destruct (StreamCoordinator.playbackMode c).
    + unfold StreamCoordinator.addClipToStream, StreamCoordinator.findStreamer.
      destruct (StreamCoordinator.index_of id 0 _) as [j|].
      * match goal with
        | |- context [StreamCoordinator.at_streamer j ?f c e] =>
            destruct (at_streamer_fields j f c e) as [l Hl];
            rewrite Hl, (at_streamer_barriers j f c e)
        end; simpl; auto.
      * destruct (Streamer.constructor None e) as [d e1] eqn:Hc.
        unfold Streamer.constructor in Hc. simpl in Hc.
        injection Hc as _ <-. auto.
  - unfold resolve. destruct (List.find _ _) as [f|]; simpl; [|auto].
    destruct (f_then f).
    + pose proof (at_streamer_fields (f_self f)
                    (Streamer.prime_resume offset record) c (drop_fetch id e))
        as [l Hl].
      pose proof (at_streamer_barriers (f_self f)
                    (Streamer.prime_resume offset record) c (drop_fetch id e)
                    (fun s e' => eq_refl)) as Hb'.
      destruct (StreamCoordinator.at_streamer _ _ c _) as [c1 e2].
      simpl in Hl, Hb'. subst c1.
      unfold StreamCoordinator.settle, fulfil. simpl.
      rewrite Hb', Hb. simpl. auto.
    + match goal with
      | |- context [StreamCoordinator.at_streamer ?j ?f c ?e0] =>
          destruct (at_streamer_fields j f c e0) as [l Hl];
          rewrite Hl, (at_streamer_barriers j f c e0)
      end; simpl; auto.
      intros. apply next_then_barriers.
  - unfold reject. destruct (List.find _ _) as [f|]; simpl; [|auto].
    destruct (f_then f); simpl; rewrite ?Hb; auto.
  - unfold fire. destruct (List.find _ _) as [t|]; simpl; [|auto].
    match goal with
    | |- context [StreamCoordinator.at_streamer ?j ?f c ?e0] =>
        destruct (at_streamer_fields j f c e0) as [l Hl];
        rewrite Hl, (at_streamer_barriers j f c e0)
    end; simpl; auto.
  - unfold ended. destruct (List.find _ _) as [[src' self]|]; simpl; [|auto].
    match goal with
    | |- context [StreamCoordinator.at_streamer ?j ?f c ?e0] =>
        destruct (at_streamer_fields j f c e0) as [l Hl];
        rewrite Hl, (at_streamer_barriers j f c e0)
    end; simpl; auto.
    intros. apply stop_barriers.
Qed.

(* ================================================================== *)
(** ** A streamer that was never started *)

Lemma untouched_frame (i : nat) (i' j : nat) (s : Streamer.t) (e e' : env) :
  i' <> j -> ext i' e e' -> untouched i j s e -> untouched i j s e'.
Proof. intros _ _ H. exact H. Qed.

Lemma untouched_keeps (i : nat) (a : action) (w : world) (j : nat) (p : prim) :
  never_started i a = true -> quiet w -> uses a w j p ->
  keeps (untouched i) j (exec j p).
Proof.
  intros Ha (_ & _ & Hb) Hu s e H Hj. specialize (H Hj).
  destruct H as [Hs Ho].
  assert (Hstop : Streamer.stop s e = (s, e)).
  { unfold Streamer.stop. now rewrite Hs. }
  destruct p as [m|offset record|when offset output record]; unfold exec.
  - destruct m as [o|o| |o| |force cached fetched|fileName]; unfold call;
      cbn [fst snd]; auto.
    + destruct a as [dt|j' m'|m'|id record|id|id|src]; simpl in Hu, Ha;
        try contradiction.
      * destruct Hu as [-> [= <-]]. subst j. now rewrite Nat.eqb_refl in Ha.
      * destruct m'; try discriminate Ha; try contradiction; try discriminate Hu.
        destruct Hu as [c' [f' Hu]]. discriminate Hu.
      * destruct Hu as [[o' Hu]|[[w' [o' [out Hu]]]|[Hne _]]];
          try discriminate Hu. contradiction.
      * discriminate Hu.
    + now rewrite Hstop.
    + destruct a as [dt|j' m'|m'|id record|id|id|src]; simpl in Hu, Ha;
        try contradiction.
      * destruct Hu as [-> [= <-]]. subst j. now rewrite Nat.eqb_refl in Ha.
      * destruct m'; try discriminate Ha; try contradiction; try discriminate Hu.
        destruct Hu as [c' [f' Hu]]. discriminate Hu.
      * destruct Hu as [[o' Hu]|[[w' [o' [out Hu]]]|[_ [o' Hu]]]];
          discriminate Hu.
      * discriminate Hu.
    + unfold Streamer.load.
      destruct (if force then None else cached); [|destruct fetched];
        simpl; auto.
  - simpl. auto.
  - unfold Streamer.next_then. rewrite Hs. simpl. auto.
Qed.

Lemma step_untouched (i : nat) (a : action) (w : world) :
  never_started i a = true -> quiet w ->
  holds (untouched i) w /\ owned w ->
  holds (untouched i) (step a w) /\ owned (step a w).
Proof.
  intros Ha Hq H.
  apply (step_holds (untouched i) (untouched_frame i)); [| | | exact H].
  - intros j p Hu. now apply untouched_keeps with (a := a) (w := w).
  - intros t s _ Hs. exact Hs.
  - intros s e' Hc _. unfold Streamer.constructor in Hc. simpl in Hc.
    injection Hc as <- _. auto.
Qed.

Lemma run_untouched (i : nat) (l : list action) (w : world) :
  forallb (never_started i) l = true -> quiet w ->
  holds (untouched i) w /\ owned w ->
  quiet (run l w) /\ holds (untouched i) (run l w) /\ owned (run l w).
Proof.
  revert w. induction l as [|a l IH]; intros w Hl Hq H; [tauto|].
  change (run (a :: l) w) with (run l (step a w)).
  simpl in Hl. apply andb_true_iff in Hl. destruct Hl as [Ha Hl].
  apply IH; [exact Hl | now apply step_quiet with (i := i)
            | now apply step_untouched].
Qed.

(** C9. On a streamer and on a coordinator that were just constructed
    [currentTime()] returns [null]; and it still does after any tasks
    among which there is no call of [stream] or [seek] on the
    coordinator or on that streamer. *)
Theorem currentTime_null :
  (forall e, match Streamer.constructor None e with
             | (Ok s, _) => forall e', Streamer.currentTime s e' = None
             | (Throw _, _) => False
             end) /\
  (forall m e,
      fst (StreamCoordinator.currentTime (StreamCoordinator.constructor m) e)
      = None) /\
  (forall m i l,
      forallb (never_started i) l = true ->
      let w := run l (boot m) in
      fst (StreamCoordinator.currentTime (fst w) (snd w)) = None /\
      forall s, streamer_at i w = Some s ->
                Streamer.currentTime s (snd w) = None).
Proof.
  split; [|split].
  - intros e. simpl. reflexivity.
  - intros m e. reflexivity.
  - intros m i l Hl w.
    assert (H0 : quiet (boot m)) by (repeat split; reflexivity).
    assert (H1 : holds (untouched i) (boot m) /\ owned (boot m)).
    { split; [intros j s Hj; discriminate Hj
             | split; [|split]; intros x []]. }
    destruct (run_untouched i l (boot m) Hl H0 H1) as ((Hs & Ho & _) & Hu & _).
    fold w in Hs, Ho, Hu. split.
    + unfold StreamCoordinator.currentTime. rewrite Hs. exact Ho.
    + intros s Hi. destruct (Hu i s Hi eq_refl) as [Hst Hso].
      unfold Streamer.currentTime. rewrite Hst. exact Hso.
Qed.

Lemma currentTime_null_witness :
  forallb (never_started 0)
    [OnCoordinator CreateStream; OnCoordinator (CLoad (cached_all 5));
     Tick 10; OnStreamer 0 (Prime None); Resolved 0 (Fin 1);
     OnStreamer 0 Stop; OnCoordinator CStop] = true /\
  fst (StreamCoordinator.currentTime
         (fst (run [OnCoordinator CreateStream;
                    OnCoordinator (CLoad (cached_all 5));
                    Tick 10; OnStreamer 0 (Prime None); Resolved 0 (Fin 1);
                    OnStreamer 0 Stop; OnCoordinator CStop]
                 (boot StreamCoordinator.AudioBufferSourceNode)))
         (snd (run [OnCoordinator CreateStream;
                    OnCoordinator (CLoad (cached_all 5));
                    Tick 10; OnStreamer 0 (Prime None); Resolved 0 (Fin 1);
                    OnStreamer 0 Stop; OnCoordinator CStop]
                 (boot StreamCoordinator.AudioBufferSourceNode)))) = None.
Proof.
  split; [reflexivity|].
  apply (proj2 (proj2 currentTime_null) StreamCoordinator.AudioBufferSourceNode 0).
  reflexivity.
Defined.

(* ================================================================== *)
(** ** The cursor and the end of the track *)

Lemma play_cursor i src when offset output (s : Streamer.t) (e : env) :
  Streamer.duration (fst (Streamer.play i src when offset output s e))
  = Streamer.duration s /\
  Streamer.startOffset (fst (Streamer.play i src when offset output s e))
  = Streamer.startOffset s.
Proof. unfold Streamer.play. destruct (Num.ge _ _); simpl; auto. Qed.

Lemma below_end_fields (s s' : Streamer.t) :
  Streamer.duration s' = Streamer.duration s ->
  Streamer.startOffset s' = Streamer.startOffset s ->
  below_end s -> below_end s'.
Proof. unfold below_end. now intros -> ->. Qed.

Lemma stop_below (s : Streamer.t) (e : env) (d : num) :
  Streamer.duration s = Some d -> Num.ge Num.zero d = false ->
  below_end s ->
  Streamer.duration (fst (Streamer.stop s e)) = Some d /\
  below_end (fst (Streamer.stop s e)).
Proof.
  intros Hd Hpos Hb. unfold Streamer.stop.
  destruct (_ || _); [auto|]. simpl. split; [exact Hd|].
  unfold below_end. simpl. rewrite Hd. simpl.
  match goal with
  | |- context [if ?b then _ else _] => destruct b eqn:Hge
  end.
  - exact Hpos.
  - exact Hge.
Qed.

Lemma next_then_below i when offset output record (s : Streamer.t) (e : env)
    (d : num) :
  Streamer.duration s = Some d -> below_end s ->
  Streamer.duration (fst (Streamer.next_then i when offset output record s e))
  = Some d /\
  below_end (fst (Streamer.next_then i when offset output record s e)).
Proof.
  intros Hd Hb. unfold Streamer.next_then.
  destruct (_ || _); [auto|]. simpl.
  match goal with
  | |- context [Streamer.play i ?src ?w ?o ?out ?s1 ?e1] =>
      destruct (play_cursor i src w o out s1 e1) as [A B]
  end.
  split.
  - rewrite A. now destruct (Streamer.startTime s).
  - eapply below_end_fields; [exact A | exact B |].
    destruct (Streamer.startTime s); exact Hb.
Qed.

Lemma stream_below i offset (s : Streamer.t) (e : env) (d : num) :
  Streamer.duration s = Some d -> Num.ge Num.zero d = false ->
  below_end s ->
  Streamer.duration (fst (snd (Streamer.stream i offset s e))) = Some d /\
  below_end (fst (snd (Streamer.stream i offset s e))).
Proof.
  intros Hd Hpos Hb. unfold Streamer.stream.
  destruct (negb (Streamer.ready s)); [auto|].
  destruct (negb (Streamer.stopped s)); [auto|].
  set (w1 := match Streamer.ending s with Some _ => _ | None => _ end).
  assert (H1 : Streamer.duration (fst w1) = Some d /\ below_end (fst w1)).
  { subst w1. destruct (Streamer.ending s); simpl; auto. }
  destruct w1 as [s1 e1]. simpl in H1. destruct H1 as [Hd1 Hb1].
  destruct (Num.ge (Streamer.default_offset offset s) _) eqn:Hge.
  { simpl. now apply stop_below. }
  set (w2 := if Streamer.garbageBuffer s1 then _ else _).
  assert (H2 : Streamer.duration (fst w2) = Some d).
  { subst w2. now destruct (Streamer.garbageBuffer s1). }
  destruct w2 as [s2 e2]. simpl in H2.
  set (s4 := Streamer.set_primed None _).
  assert (H4 : Streamer.duration s4 = Some d /\ below_end s4).
  { subst s4. split; [exact H2|]. unfold below_end. simpl.
    rewrite H2. rewrite Hd1 in Hge. exact Hge. }
  cbn [Streamer.primed Streamer.set_startOffset Streamer.set_stopped].
  destruct (Streamer.primed s2) as [[at_offset src]|]; cbn [fst snd];
    [destruct (Num.seq _ _); cbn [fst snd]|]; try exact H4.
  match goal with
  | |- context [Streamer.play i ?src ?w ?o ?out ?s1 ?e1] =>
      destruct (play_cursor i src w o out s1 e1) as [A B]
  end.
  destruct H4 as [Hd4 Hb4]. split; [now rewrite A|].
  eapply below_end_fields; eauto.
Qed.

Lemma seek_below i offset (s : Streamer.t) (e : env) (d : num) :
  Streamer.duration s = Some d -> Num.ge Num.zero d = false ->
  Num.ge offset d = false -> below_end s ->
  Streamer.duration (fst (snd (Streamer.seek i offset s e))) = Some d /\
  below_end (fst (snd (Streamer.seek i offset s e))).
Proof.
  intros Hd Hpos Ho Hb. unfold Streamer.seek.
  destruct (negb (Streamer.stopped s)).
  - destruct (stop_below s e d Hd Hpos Hb) as [A B].
    destruct (Streamer.stop s e) as [s1 e1]. now apply stream_below.
  - simpl. split; [exact Hd|]. unfold below_end. simpl. now rewrite Hd.
Qed.

Lemma cursor_frame (i : nat) (d : num) (i' j : nat) (s : Streamer.t)
    (e e' : env) :
  i' <> j -> ext i' e e' -> cursor_ok i d j s e -> cursor_ok i d j s e'.
Proof. intros _ _ H. exact H. Qed.

Lemma cursor_keeps (i : nat) (d : num) (a : action) (w : world) (j : nat)
    (p : prim) :
  Num.ge Num.zero d = false -> gentle i d a = true -> uses a w j p ->
  keeps (cursor_ok i d) j (exec j p).
Proof.
  intros Hpos Ha Hu s e H Hj. specialize (H Hj). destruct H as [Hd Hb].
  destruct p as [m|offset record|when offset output record]; unfold exec.
  - destruct m as [o|o| |o| |force cached fetched|fileName]; unfold call;
      cbn [fst snd]; auto using stream_below, stop_below.
    + apply seek_below; auto.
      destruct a as [dt|j' m'|m'|id record|id|id|src]; simpl in Hu, Ha;
        try contradiction.
      * destruct Hu as [-> [= <-]]. subst j. rewrite Nat.eqb_refl in Ha.
        simpl in Ha. now apply negb_true_iff in Ha.
      * destruct m'; try discriminate Ha; try contradiction;
          try discriminate Hu.
        -- destruct Hu as [o' [Hu|Hu]]; discriminate Hu.
        -- destruct Hu as [Hu|[o' [Hu|Hu]]]; discriminate Hu.
      * destruct Hu as [[o' Hu]|[[w' [o' [out Hu]]]|[_ [o' Hu]]]];
          discriminate Hu.
      * discriminate Hu.
    + exfalso.
      destruct a as [dt|j' m'|m'|id record|id|id|src]; simpl in Hu, Ha;
        try contradiction.
      * destruct Hu as [-> [= <-]]. subst j. now rewrite Nat.eqb_refl in Ha.
      * destruct m'; try discriminate Ha; try contradiction;
          try discriminate Hu.
        -- destruct Hu as [o' [Hu|Hu]]; discriminate Hu.
        -- destruct Hu as [Hu|[o' [Hu|Hu]]]; discriminate Hu.
      * destruct Hu as [[o' Hu]|[[w' [o' [out Hu]]]|[_ [o' Hu]]]];
          discriminate Hu.
      * discriminate Hu.
  - simpl. auto.
  - now apply next_then_below.
Qed.

(** [seek] on a streamer that plays is [stop] and [stream], and
    [stream] checks the offset. *)
Lemma seek_playing_below i offset (s : Streamer.t) (e : env) (d : num) :
  Streamer.duration s = Some d -> Num.ge Num.zero d = false ->
  Streamer.stopped s = false -> below_end s ->
  Streamer.duration (fst (snd (Streamer.seek i offset s e))) = Some d /\
  below_end (fst (snd (Streamer.seek i offset s e))).
Proof.
  intros Hd Hpos Hs Hb. unfold Streamer.seek. rewrite Hs. cbn [negb].
  destruct (stop_below s e d Hd Hpos Hb) as [A B].
  destruct (Streamer.stop s e) as [s1 e1]. now apply stream_below.
Qed.

Lemma step_cursor (i : nat) (d : num) (a : action) (w : world) :
  Num.ge Num.zero d = false -> tame i d w a = true ->
  reachable w -> i < length (StreamCoordinator.streamers (fst w)) ->
  holds (cursor_ok i d) w -> holds (cursor_ok i d) (step a w).
Proof.
  intros Hpos Ha Hr Hi H. unfold tame in Ha. apply orb_true_iff in Ha.
  destruct Ha as [Ha|Ha].
  - apply (step_holds (cursor_ok i d) (cursor_frame i d) a w).
    + intros j p Hu. now apply cursor_keeps with (a := a) (w := w).
    + intros t s _ Hs. exact Hs.
    + intros s e' _ Hj. lia.
    + split; [exact H | now apply reachable_sound].
  - destruct a as [dt|j m|m|id record|id|id|src]; try discriminate Ha.
    destruct m as [o|o| |o| |force cached fetched|fileName];
      try discriminate Ha.
    apply andb_true_iff in Ha. destruct Ha as [Hj Hp].
    apply Nat.eqb_eq in Hj. subst j.
    unfold playing in Hp.
    destruct (streamer_at i w) as [s|] eqn:Hs; [|discriminate Hp].
    apply negb_true_iff in Hp.
    destruct w as [c e].
    unfold streamer_at in Hs. cbn [fst snd step] in *.
    rewrite (at_streamer_lookup i _ c e s Hs).
    intros j s' Hj'. cbn [fst snd StreamCoordinator.streamers
      StreamCoordinator.set_streamers] in Hj'.
    destruct (decide (j = i)) as [->|Hne].
    + rewrite list_lookup_insert_eq in Hj' by exact Hi.
      injection Hj' as <-. intros _.
      destruct (H i s Hs eq_refl) as [Hd Hb].
      unfold call. now apply seek_playing_below.
    + rewrite list_lookup_insert_ne in Hj' by auto.
      intros ->. contradiction.
Qed.

Lemma run_cursor (i : nat) (d : num) (l : list action) (w : world) :
  Num.ge Num.zero d = false -> tame_run i d l w = true ->
  reachable w -> i < length (StreamCoordinator.streamers (fst w)) ->
  holds (cursor_ok i d) w -> holds (cursor_ok i d) (run l w).
Proof.
  intros Hpos. revert w.
  induction l as [|a l IH]; intros w Hl Hr Hi H; [exact H|].
  change (run (a :: l) w) with (run l (step a w)).
  cbn [tame_run] in Hl. apply andb_true_iff in Hl. destruct Hl as [Ha Hl].
  apply IH.
  - exact Hl.
  - now apply reachable_step.
  - pose proof (step_length a w). lia.
  - now apply step_cursor.
Qed.

(** C4 as stated fails: on a ready, stopped track of five seconds
    [seek( 7 )] stores 7 as the cursor, which is not in [[0, 5)]. *)
Lemma seek_leaves_range :
  option_map Streamer.ready (streamer_at 0 one_track) = Some true /\
  option_map Streamer.duration
    (streamer_at 0 (step (OnStreamer 0 (Seek (Fin 7))) one_track))
  = Some (Some (Fin 5)) /\
  option_map Streamer.startOffset
    (streamer_at 0 (step (OnStreamer 0 (Seek (Fin 7))) one_track))
  = Some (Some (Fin 7)) /\
  ~ (exists s,
        streamer_at 0 (step (OnStreamer 0 (Seek (Fin 7))) one_track) = Some s /\
        in_range s).
Proof.
  repeat split; try (vm_compute; reflexivity).
  intros (s & Hs & x & d & Hx & Hd & H0 & Hlt).
  vm_compute in Hs. injection Hs as <-. simpl in Hx, Hd.
  injection Hx as <-. injection Hd as <-.
  unfold Qlt in Hlt. simpl in Hlt. lia.
Qed.

(** C4, amended. Take a streamer of positive duration whose cursor is
    unset or below the duration. After any tasks that do not load the
    track again and whose calls of [seek] on it, made while it is
    stopped, carry an offset below the duration, the cursor is still
    unset or below the duration: [seek] on a streamer that plays may
    carry any offset. And [stop()] on a ready streamer that plays leaves
    it stopped, with the cursor at 0 when the cursor with the elapsed
    time folded in is at or beyond the duration, and at that sum
    otherwise. *)
Theorem cursor_below_end :
  (forall w i s d l,
      reachable w ->
      streamer_at i w = Some s ->
      Streamer.duration s = Some d -> Num.ge Num.zero d = false ->
      below_end s ->
      tame_run i d l w = true ->
      exists s', streamer_at i (run l w) = Some s' /\
                 Streamer.duration s' = Some d /\ below_end s') /\
  (forall s e,
      Streamer.stopped s = false -> Streamer.ready s = true ->
      let folded :=
        Num.add (Num.of_nullable (Streamer.startOffset s))
          (Num.sub (now e) (Num.of_nullable (Streamer.startTime s))) in
      Streamer.stopped (fst (Streamer.stop s e)) = true /\
      Streamer.startOffset (fst (Streamer.stop s e))
      = Some (if Num.ge folded (Num.of_optional (Streamer.duration s))
              then Num.zero else folded)).
Proof.
  split.
  - intros w i s d l Hr Hi Hd Hpos Hb Hl.
    assert (Hlt : i < length (StreamCoordinator.streamers (fst w))).
    { now apply lookup_lt_Some in Hi. }
    assert (H0 : holds (cursor_ok i d) w).
    { intros j s0 Hj ->. unfold streamer_at in Hi. rewrite Hi in Hj.
      injection Hj as <-. auto. }
    pose proof (run_cursor i d l w Hpos Hl Hr Hlt H0) as H1.
    pose proof (run_length l w) as Hlen.
    destruct (lookup_lt_is_Some_2
                (StreamCoordinator.streamers (fst (run l w))) i) as [s' Hs'];
      [lia|].
    exists s'. split; [exact Hs'|]. now apply (H1 i s' Hs').
  - intros s e Hs Hr folded. unfold Streamer.stop. rewrite Hs, Hr. simpl.
    split; reflexivity.
Qed.

(** Witness of C4: a track of five seconds is started at one second,
    sought to seven seconds while it plays, which stops it, and sought
    to four seconds while it is stopped. *)
Lemma cursor_below_end_witness :
  tame_run 0 (Fin 5)
    [OnStreamer 0 (Stream (Some (Fin 1))); Resolved 0 (Fin 1); Tick 0.5;
     OnStreamer 0 (Seek (Fin 7)); OnStreamer 0 (Seek (Fin 4));
     OnCoordinator CCurrentTime] one_track = true /\
  exists s',
    streamer_at 0
      (run [OnStreamer 0 (Stream (Some (Fin 1))); Resolved 0 (Fin 1); Tick 0.5;
            OnStreamer 0 (Seek (Fin 7)); OnStreamer 0 (Seek (Fin 4));
            OnCoordinator CCurrentTime]
         one_track) = Some s' /\
    Streamer.duration s' = Some (Fin 5) /\ below_end s'.
Proof.
  split; [vm_compute; reflexivity|].
  destruct (lookup_lt_is_Some_2
              (StreamCoordinator.streamers (fst one_track)) 0) as [s Hs];
    [vm_compute; lia|].
  apply (proj1 cursor_below_end one_track 0 s (Fin 5)).
  - unfold one_track. apply reachable_run, reachable_boot.
  - exact Hs.
  - vm_compute in Hs. injection Hs as <-. reflexivity.
  - reflexivity.
  - vm_compute in Hs. injection Hs as <-. exact I.
  - vm_compute. reflexivity.
Defined.

(* ================================================================== *)
(** ** The coordinator reads its position *)

Lemma forEach_stop_all (l : list Streamer.t) (i : nat) (e : env) :
  Forall (fun s => Streamer.stopped s = false -> Streamer.ready s = true) l ->
  Forall (fun s => Streamer.stopped s = true)
    (fst (snd (StreamCoordinator.forEach StreamCoordinator.do_stop i l e))).
Proof.
  revert i e. induction l as [|s l IH]; intros i e H; simpl; [constructor|].
  inversion H as [|s0 l0 Hs Hl]; subst.
  unfold StreamCoordinator.do_stop at 1.
  destruct (Streamer.stop s e) as [s' e1] eqn:Hstop.
  specialize (IH (S i) e1 Hl).
  destruct (StreamCoordinator.forEach _ (S i) l e1) as [res [r' e2]].
  simpl in *. constructor; [|exact IH].
  replace s' with (fst (Streamer.stop s e)) by now rewrite Hstop.
  unfold Streamer.stop.
  destruct (Streamer.stopped s) eqn:Hst; simpl; [exact Hst|].
  now rewrite (Hs eq_refl).
Qed.

Lemma sound_ready (w : world) :
  holds sound w ->
  Forall (fun s => Streamer.stopped s = false -> Streamer.ready s = true)
    (StreamCoordinator.streamers (fst w)).
Proof.
  intros H. apply Forall_forall. intros s Hin.
  apply (proj1 (list_elem_of_lookup _ _)) in Hin. destruct Hin as [j Hj].
  now destruct (H j s Hj) as (_ & Hr & _).
Qed.

Lemma tick_step (dt : Q) (w : world) :
  (0 <= dt)%Q ->
  step (Tick dt) w
  = (fst w, set_ac_currentTime (ac_currentTime (snd w) + dt)%Q (snd w)).
Proof.
  intros H. destruct w as [c e]. cbn [step fst snd].
  apply Qle_bool_iff in H. now rewrite H.
Qed.

Lemma two_tracks_read_fields (t0 d1 d2 t : Q) (swapped : bool) :
  (0 <= t0)%Q -> (0 <= d1)%Q -> (0 <= d2)%Q -> (0 <= t)%Q ->
  let w := two_tracks_read t0 d1 d2 t swapped in
  map Streamer.duration (StreamCoordinator.streamers (fst w))
  = [Some (Fin 3); Some (Fin 5)] /\
  map Streamer.stopped (StreamCoordinator.streamers (fst w)) = [false; false] /\
  StreamCoordinator.duration (fst w) = Some (Fin 5) /\
  StreamCoordinator.stopped (fst w) = false /\
  StreamCoordinator.startOffset (fst w) = Some (Fin 0) /\
  StreamCoordinator.startTime (fst w) = Some (Fin (0 + t0 + d1 + d2)) /\
  ac_currentTime (snd w) = (0 + t0 + d1 + d2 + t)%Q.
Proof.
  intros H0 H1 H2 H3 w. subst w. unfold two_tracks_read.
  unfold run. cbn [fold_left].
  rewrite !tick_step by assumption.
  destruct swapped; vm_compute; repeat split; reflexivity.
Qed.

(** A read of the position at or beyond the end stops the coordinator
    and every streamer, and returns 0. *)
Lemma read_at_end (w : world) :
  reachable w ->
  StreamCoordinator.stopped (fst w) = false ->
  Num.ge (StreamCoordinator.position (fst w) (snd w))
    (Num.of_optional (StreamCoordinator.duration (fst w))) = true ->
  let r := StreamCoordinator.currentTime (fst w) (snd w) in
  fst r = Some Num.zero /\
  snd r = StreamCoordinator.stop (fst w) (snd w) /\
  StreamCoordinator.stopped (fst (snd r)) = true /\
  StreamCoordinator.startTime (fst (snd r)) = None /\
  Forall (fun s => Streamer.stopped s = true)
    (StreamCoordinator.streamers (fst (snd r))).
Proof.
  destruct w as [c e]. intros Hr Hs Hge. simpl in *.
  unfold StreamCoordinator.currentTime. rewrite Hs, Hge. simpl.
  split; [reflexivity | split; [reflexivity|]].
  destruct (reachable_sound _ Hr) as [Hsound _].
  pose proof (forEach_stop_all (StreamCoordinator.streamers c) 0 e
                (sound_ready _ Hsound)) as Hall.
  unfold StreamCoordinator.stop. rewrite Hs.
  destruct (StreamCoordinator.forEach _ 0 _ e) as [res [l e1]].
  simpl in *. auto.
Qed.

(** The position while the coordinator plays from 0: the time since the
    anchor, or no time at all when the anchor is 0. *)
Lemma position_from_anchor (c : StreamCoordinator.t) (e : env) (a : Q) :
  StreamCoordinator.startTime c = Some (Fin a) ->
  StreamCoordinator.startOffset c = Some (Fin 0) ->
  StreamCoordinator.position c e
  = Num.add Num.zero
      (Num.sub (now e) (if Num.truthy (Fin a) then Fin a else now e)).
Proof.
  intros Ha Ho. unfold StreamCoordinator.position. rewrite Ha, Ho.
  reflexivity.
Qed.

Lemma sub_self_below (x d : Q) :
  (0 < d)%Q ->
  Num.ge (Num.add Num.zero (Num.sub (Fin x) (Fin x))) (Fin d) = false.
Proof.
  intros Hd. simpl. destruct (Qle_bool d (0 + (x + - x))) eqn:H; [|reflexivity].
  apply Qle_bool_iff in H. lra.
Qed.

(** C7, amended. When the coordinator is not stopped and the position
    [currentTime()] computes is at or beyond its duration, the call is
    a [stop()] of the coordinator that returns 0: the coordinator is
    stopped, its anchor cleared, and every streamer is stopped. For two
    tracks of three and five seconds started together from 0, the
    anchor is the device time of the task in which the second answer of
    the store arrived, and the position is the time since the anchor, as
    the code computes it, whichever track was answered first: the read
    returns 0 and stops everything when that is at or beyond 5, and
    returns it and stops nothing when it is not. An anchor of 0 counts
    as no anchor: the read then returns [clock - clock] and stops
    nothing. *)
Theorem lazy_end_detection :
  (forall w,
      reachable w ->
      StreamCoordinator.stopped (fst w) = false ->
      Num.ge (StreamCoordinator.position (fst w) (snd w))
        (Num.of_optional (StreamCoordinator.duration (fst w))) = true ->
      let r := StreamCoordinator.currentTime (fst w) (snd w) in
      fst r = Some Num.zero /\
      snd r = StreamCoordinator.stop (fst w) (snd w) /\
      StreamCoordinator.stopped (fst (snd r)) = true /\
      StreamCoordinator.startTime (fst (snd r)) = None /\
      Forall (fun s => Streamer.stopped s = true)
        (StreamCoordinator.streamers (fst (snd r)))) /\
  (forall t0 d1 d2 t swapped,
      (0 <= t0)%Q -> (0 <= d1)%Q -> (0 <= d2)%Q -> (0 <= t)%Q ->
      let w := two_tracks_read t0 d1 d2 t swapped in
      let anchor := (0 + t0 + d1 + d2)%Q in
      let clock := (anchor + t)%Q in
      let r := StreamCoordinator.currentTime (fst w) (snd w) in
      map Streamer.duration (StreamCoordinator.streamers (fst w))
      = [Some (Fin 3); Some (Fin 5)] /\
      StreamCoordinator.duration (fst w) = Some (Fin 5) /\
      StreamCoordinator.stopped (fst w) = false /\
      map Streamer.stopped (StreamCoordinator.streamers (fst w))
      = [false; false] /\
      StreamCoordinator.startTime (fst w) = Some (Fin anchor) /\
      ac_currentTime (snd w) = clock /\
      (Num.truthy (Fin anchor) = true ->
       Num.ge (Num.add Num.zero (Num.sub (Fin clock) (Fin anchor))) (Fin 5)
       = true ->
       fst r = Some Num.zero /\
       StreamCoordinator.stopped (fst (snd r)) = true /\
       Forall (fun s => Streamer.stopped s = true)
         (StreamCoordinator.streamers (fst (snd r)))) /\
      (Num.truthy (Fin anchor) = true ->
       Num.ge (Num.add Num.zero (Num.sub (Fin clock) (Fin anchor))) (Fin 5)
       = false ->
       fst r = Some (Num.add Num.zero (Num.sub (Fin clock) (Fin anchor))) /\
       snd r = w) /\
      (Num.truthy (Fin anchor) = false ->
       fst r = Some (Num.add Num.zero (Num.sub (Fin clock) (Fin clock))) /\
       snd r = w)).
Proof.
  split; [exact read_at_end|].
  intros t0 d1 d2 t swapped H0 H1 H2 H3 w anchor clock r.
  destruct (two_tracks_read_fields t0 d1 d2 t swapped H0 H1 H2 H3)
    as (Fd & Fs & Fcd & Fcs & Fo & Fa & Fc).
  fold w anchor in Fd, Fs, Fcd, Fcs, Fo, Fa, Fc. fold clock in Fc.
  assert (Hr : reachable w) by (apply reachable_run, reachable_boot).
  pose proof (position_from_anchor (fst w) (snd w) anchor Fa Fo) as Hp.
  unfold now in Hp. rewrite Fc in Hp.
  split; [exact Fd|]. split; [exact Fcd|]. split; [exact Fcs|].
  split; [exact Fs|]. split; [exact Fa|]. split; [exact Fc|].
  split; [|split].
  - intros Ht Hge. rewrite Ht in Hp.
    destruct (read_at_end w Hr Fcs) as (A & _ & B & _ & C).
    { rewrite Hp, Fcd. exact Hge. }
    auto.
  - intros Ht Hge. rewrite Ht in Hp. subst r.
    unfold StreamCoordinator.currentTime. rewrite Fcs, Hp, Fcd.
    cbn [Num.of_optional]. rewrite Hge. cbn [fst snd].
    split; [reflexivity | now destruct w].
  - intros Ht. rewrite Ht in Hp. subst r.
    unfold StreamCoordinator.currentTime. rewrite Fcs, Hp, Fcd.
    cbn [Num.of_optional]. rewrite sub_self_below by reflexivity.
    cbn [fst snd]. split; [reflexivity | now destruct w].
Qed.

(** Witness of C7: the tracks are started at device time 1, the store
    answers at once, and the position is read 5.1 seconds later. *)
Lemma lazy_end_detection_witness :
  fst (StreamCoordinator.currentTime
         (fst (two_tracks_read 1 0 0 5.1 false))
         (snd (two_tracks_read 1 0 0 5.1 false)))
  = Some Num.zero /\
  StreamCoordinator.stopped
    (fst (snd (StreamCoordinator.currentTime
                 (fst (two_tracks_read 1 0 0 5.1 false))
                 (snd (two_tracks_read 1 0 0 5.1 false))))) = true.
Proof.
  destruct (proj2 lazy_end_detection 1%Q 0%Q 0%Q 5.1%Q false)
    as (_ & _ & _ & _ & _ & _ & H & _); try discriminate.
  destruct H as (A & B & _); [reflexivity | reflexivity |].
  split; [exact A | exact B].
Defined.

(** C7 as stated fails. Two tracks of three and five seconds are started
    together from 0 at device time 1. When the store takes half a
    second to answer, the read 5.1 seconds after [stream( 0 )] returns
    a position that is neither 0 nor at or beyond 5, and the coordinator
    is not stopped. And when they are started at device time 0, the
    store answering at once, the read 5.1 seconds later returns 0 and
    the coordinator and the streamers are not stopped. *)
Lemma late_answer_keeps_playing :
  (let w := two_tracks_read 1 0.5 0 4.6 false in
   let r := StreamCoordinator.currentTime (fst w) (snd w) in
   StreamCoordinator.duration (fst w) = Some (Fin 5) /\
   Qeq_bool (ac_currentTime (snd w)) (1 + 5.1) = true /\
   option_map (fun x => Num.seq x Num.zero) (fst r) = Some false /\
   option_map (fun x => Num.ge x (Fin 5)) (fst r) = Some false /\
   StreamCoordinator.stopped (fst (snd r)) = false) /\
  (let w := two_tracks_read 0 0 0 5.1 false in
   let r := StreamCoordinator.currentTime (fst w) (snd w) in
   StreamCoordinator.duration (fst w) = Some (Fin 5) /\
   Qeq_bool (ac_currentTime (snd w)) 5.1 = true /\
   option_map (fun x => Num.seq x Num.zero) (fst r) = Some true /\
   StreamCoordinator.stopped (fst (snd r)) = false /\
   map Streamer.stopped (StreamCoordinator.streamers (fst (snd r)))
   = [false; false]).
Proof. vm_compute. repeat split; reflexivity. Qed.



(* ================================================================== *)
(** ** The barrier of the coordinator *)




Lemma find_old (k x : nat) (old l : list fetch) :
  (forall f, In f old -> f_id f < k) -> k <= x ->
  List.find (has_id x) (old ++ l) = List.find (has_id x) l.
Proof.
  intros Hold Hx. induction old as [|f old IH]; simpl; [reflexivity|].
  assert (Hf : has_id x f = false).
  { unfold has_id. apply Nat.eqb_neq.
    specialize (Hold f (or_introl eq_refl)). lia. }
  rewrite Hf. apply IH. intros g Hg. apply Hold. now right.
Qed.





Lemma tick_waiting offset k l0 st0 pend (dt : Q) (w : world) :
  waiting offset k l0 st0 pend w ->
  waiting offset k l0 st0 pend (step (Tick dt) w).
Proof.
  destruct w as [c e]. simpl. now destruct (Qle_bool 0 dt).
Qed.




(* ================================================================== *)
(** ** The name of an asset *)

Lemma split_cons (sep : ascii) (s : string) :
  exists h t, split sep s = h :: t.
Proof.
  induction s as [|a r (h & t & IH)]; simpl; [eauto|].
  destruct (Ascii.eqb a sep); [eauto|]. rewrite IH. eauto.
Qed.

Lemma includes_app (c : ascii) (a b : string) :
  includes c (a ++ b) = includes c a || includes c b.
Proof.
  induction a as [|x a IH]; simpl; [reflexivity|].
  now rewrite IH, orb_assoc.
Qed.

(** No piece of [s.split( sep )] includes [sep], nor a character that
    [s] does not include. *)
Lemma split_pieces (sep c : ascii) (s : string) :
  (c = sep \/ includes c s = false) ->
  Forall (fun p => includes c p = false) (split sep s).
Proof.
  induction s as [|a r IH]; simpl; intros H.
  - constructor; [reflexivity | constructor].
  - assert (Hr : c = sep \/ includes c r = false).
    { destruct H as [H|H]; [now left|].
      apply orb_false_iff in H. now right. }
    specialize (IH Hr).
    destruct (Ascii.eqb a sep) eqn:Ha.
    + constructor; [reflexivity | exact IH].
    + destruct (split_cons sep r) as (h & t & Hs). rewrite Hs in IH |- *.
      apply Forall_cons in IH. destruct IH as [Hh Ht].
      constructor; [|exact Ht]. simpl. rewrite Hh, orb_false_r.
      destruct H as [-> | H]; [exact Ha|].
      now apply orb_false_iff in H.
Qed.

Lemma pop_piece (P : string -> Prop) (l : list string) :
  l <> [] -> Forall P l -> P (pop l).
Proof.
  unfold pop. induction l as [|x l IH]; intros Hne H; [congruence|].
  apply Forall_cons in H. destruct H as [Hx Hl].
  destruct l as [|y l]; [exact Hx|].
  change (P (List.last (y :: l) EmptyString)). apply IH; [discriminate | exact Hl].
Qed.

Lemma first_piece (P : string -> Prop) (l : list string) :
  l <> [] -> Forall P l -> P (first l).
Proof.
  unfold first. destruct l as [|x l]; intros Hne H; [congruence|].
  apply Forall_cons in H. apply H.
Qed.

Lemma split_not_nil (sep : ascii) (s : string) : split sep s <> [].
Proof. destruct (split_cons sep s) as (h & t & ->). discriminate. Qed.

Lemma asset_name_includes (c : ascii) (url : string) :
  (c = "/"%char \/ c = "."%char) -> includes c (asset_name url) = false.
Proof.
  intros Hc. unfold asset_name.
  apply (first_piece (fun p => includes c p = false)); [apply split_not_nil|].
  apply split_pieces.
  destruct Hc as [-> | ->]; [right | now left].
  apply (pop_piece (fun p => includes "/"%char p = false));
    [apply split_not_nil|].
  apply split_pieces. now left.
Qed.

Lemma split_app (sep : ascii) (a b : string) :
  split sep (a ++ String sep b) = split sep a ++ split sep b.
Proof.
  induction a as [|x a IH]; simpl.
  - now rewrite Ascii.eqb_refl.
  - destruct (Ascii.eqb x sep); [now rewrite IH|].
    rewrite IH. destruct (split_cons sep a) as (h & t & ->). reflexivity.
Qed.

Lemma split_whole (sep : ascii) (s : string) :
  includes sep s = false -> split sep s = [s].
Proof.
  induction s as [|x s IH]; simpl; [reflexivity|].
  intros H. apply orb_false_iff in H. destruct H as [Hx Hs].
  rewrite Hx, (IH Hs). reflexivity.
Qed.

Lemma pop_app (l l' : list string) : l' <> [] -> pop (l ++ l') = pop l'.
Proof.
  unfold pop. intros H. destruct l' as [|x l'] using rev_ind; [congruence|].
  rewrite app_assoc, !last_last. reflexivity.
Qed.

Lemma first_app (l l' : list string) : l <> [] -> first (l ++ l') = first l.
Proof. destruct l; [congruence | reflexivity]. Qed.

(** X2. The name of an asset is its file name without the directories
    before it and without what follows its first dot: for a base name
    that holds neither a slash nor a dot and an extension that holds no
    slash, [dir/base.ext], [dir/base], [base.ext] and [base] all have
    the name [base]. *)
Theorem asset_name_path (dir base ext : string) :
  includes "/"%char base = false -> includes "."%char base = false ->
  includes "/"%char ext = false ->
  asset_name (dir ++ "/" ++ base ++ "." ++ ext) = base /\
  asset_name (dir ++ "/" ++ base) = base /\
  asset_name (base ++ "." ++ ext) = base /\
  asset_name base = base.
Proof.
  intros Hb Hd He.
  assert (Hfile : includes "/"%char (base ++ "." ++ ext) = false).
  { rewrite includes_app. simpl. now rewrite Hb, He. }
  assert (Hdot : first (split "."%char (base ++ "." ++ ext)) = base).
  { change (base ++ "." ++ ext)%string with (base ++ String "."%char ext)%string.
    rewrite split_app, first_app by apply split_not_nil.
    now rewrite split_whole. }
  assert (Hone : first (split "."%char base) = base)
    by now rewrite split_whole.
  unfold asset_name. repeat split.
  - change (dir ++ "/" ++ base ++ "." ++ ext)%string
      with (dir ++ String "/"%char (base ++ "." ++ ext))%string.
    rewrite split_app, pop_app by apply split_not_nil.
    rewrite (split_whole _ _ Hfile). exact Hdot.
  - change (dir ++ "/" ++ base)%string with (dir ++ String "/"%char base)%string.
    rewrite split_app, pop_app by apply split_not_nil.
    rewrite (split_whole _ _ Hb). exact Hone.
  - rewrite (split_whole _ _ Hfile). exact Hdot.
  - rewrite (split_whole _ _ Hb). exact Hone.
Qed.

(** Witness of X2. *)
Lemma asset_name_path_witness : asset_name "audio/drums/kick.wav" = "kick"%string.
Proof.
  apply (asset_name_path "audio/drums" "kick" "wav"); reflexivity.
Defined.

(** X1. [addClip] stores the file name as the url and derives the name
    from it; the name holds neither a slash nor a dot, whatever the file
    name is. *)
Theorem addClip_name (fileName : string) (s : Streamer.t) :
  Streamer.url (Streamer.addClip fileName s) = Some fileName /\
  Streamer.name (Streamer.addClip fileName s) = Some (asset_name fileName) /\
  includes "/"%char (asset_name fileName) = false /\
  includes "."%char (asset_name fileName) = false.
Proof.
  split; [reflexivity|]. split; [reflexivity|].
  split; apply asset_name_includes; auto.
Qed.

(* ================================================================== *)
(** ** The window of a chunk *)

(** X3. The length of a chunk: for a track of duration [d] and an offset
    [o] that passes the test [offset >= this.duration] of [prime] and of
    [stream], [Math.min( 1, duration - offset )] is a number that is
    positive and at most one second. *)
Theorem chunk_window (s : Streamer.t) (d o : Q) :
  Streamer.duration s = Some (Fin d) ->
  Num.ge (Fin o) (Num.of_optional (Streamer.duration s)) = false ->
  exists c, Streamer.chunk_duration s (Fin o) = Fin c /\
            (0 < c)%Q /\ (c <= 1)%Q.
Proof.
  intros Hd Hge. rewrite Hd in Hge. simpl in Hge.
  assert (Hlt : (o < d)%Q).
  { apply Qnot_le_lt. intros H. apply Qle_bool_iff in H. congruence. }
  unfold Streamer.chunk_duration. rewrite Hd. simpl.
  destruct (Qle_bool 1 (d + - o)) eqn:Hle.
  - exists 1%Q. repeat split; lra.
  - assert (Hn : ~ (1 <= d + - o)%Q).
    { intros H. apply Qle_bool_iff in H. congruence. }
    exists (d + - o)%Q. repeat split; lra.
Qed.

(** Witness of X3: half a second is left of a track of five seconds at
    offset 4.5. *)
Lemma chunk_window_witness :
  exists c, Streamer.chunk_duration paused_streamer (Fin 4.5%Q) = Fin c /\
            (0 < c)%Q /\ (c <= 1)%Q.
Proof.
  apply (chunk_window paused_streamer 5%Q 4.5%Q); reflexivity.
Defined.

(* ================================================================== *)
(** ** The same track *)

Lemma exec_same_track (i : nat) (p : prim) (s : Streamer.t) (e : env) :
  same_track s (fst (exec i p s e)).
Proof.
  unfold same_track.
  destruct p as [[]| |]; unfold_exec; cbn [fst snd]; cases; simpl; auto.
Qed.

Lemma exec_anchored (i : nat) (p : prim) (s : Streamer.t) (e : env) :
  anchored i s e -> anchored i (fst (exec i p s e)) (snd (exec i p s e)).
Proof.
  unfold anchored.
  destruct p as [[]| |]; unfold_exec; cbn [fst snd]; cases; simpl; auto;
    absurd_bools.
Qed.

Lemma same_track_refl (s : Streamer.t) : same_track s s.
Proof. unfold same_track. auto. Qed.

Lemma same_track_trans (s1 s2 s3 : Streamer.t) :
  same_track s1 s2 -> same_track s2 s3 -> same_track s1 s3.
Proof.
  unfold same_track. intros (A & B & C) (A' & B' & C').
  repeat split; try congruence. auto.
Qed.

Lemma step_since (l0 : list Streamer.t) (a : action) (w : world) :
  length l0 <= length (StreamCoordinator.streamers (fst w)) ->
  holds (since l0) w /\ owned w ->
  holds (since l0) (step a w) /\ owned (step a w).
Proof.
  intros Hl H.
  apply (step_holds (since l0)); [| | | | exact H].
  - intros i j s e e' _ _ Hs. exact Hs.
  - intros i p _ s e Hs s0 Hs0.
    eapply same_track_trans; [exact (Hs s0 Hs0) | apply exec_same_track].
  - intros t s _ Hs. exact Hs.
  - intros s e' _ s0 Hs0. apply lookup_lt_Some in Hs0. lia.
Qed.

Lemma run_since (l0 : list Streamer.t) (l : list action) (w : world) :
  length l0 <= length (StreamCoordinator.streamers (fst w)) ->
  holds (since l0) w /\ owned w ->
  holds (since l0) (run l w) /\ owned (run l w).
Proof.
  revert w. induction l as [|a l IH]; intros w Hl H; [exact H|].
  change (run (a :: l) w) with (run l (step a w)).
  apply IH.
  - pose proof (step_length a w). lia.
  - now apply step_since.
Qed.

(** Whatever happens, the streamer at an index stays the same track:
    its id and its gain node stay, and once loaded it stays loaded. *)
Lemma run_same_track (w : world) (l : list action) (j : nat) (s0 : Streamer.t) :
  reachable w -> streamer_at j w = Some s0 ->
  exists s, streamer_at j (run l w) = Some s /\ same_track s0 s.
Proof.
  intros Hr Hj.
  destruct (reachable_sound w Hr) as [_ Ho].
  destruct (run_since (StreamCoordinator.streamers (fst w)) l w) as [H _].
  - lia.
  - split; [|exact Ho]. intros k s Hk s0' Hk'.
    rewrite Hk in Hk'. injection Hk' as <-. apply same_track_refl.
  - pose proof (run_length l w) as Hl.
    apply lookup_lt_Some in Hj as Hlt.
    destruct (lookup_lt_is_Some_2 (StreamCoordinator.streamers (fst (run l w))) j)
      as [s Hs]; [unfold streamer_at in *; lia|].
    exists s. split; [exact Hs|]. exact (H j s Hs s0 Hj).
Qed.

Lemma step_anchored (a : action) (w : world) :
  holds anchored w /\ owned w -> holds anchored (step a w) /\ owned (step a w).
Proof.
  intros H. apply (step_holds anchored); [| | | | exact H].
  - intros i j s e e' _ _ Hs. exact Hs.
  - intros i p _ s e. apply exec_anchored.
  - intros t s _ Hs. exact Hs.
  - intros s e' Hc _. unfold Streamer.constructor in Hc. simpl in Hc.
    now injection Hc as <- _.
Qed.

Lemma reachable_anchored (w : world) : reachable w -> holds anchored w.
Proof.
  intros Hr.
  assert (H : holds anchored w /\ owned w); [|apply H].
  induction Hr as [m|a w Hr IH].
  - split; [intros j s Hj; discriminate Hj|].
    split; [|split]; intros x [].
  - now apply step_anchored.
Qed.

(** X4. Whatever tasks run, the streamer at an index keeps its id and
    its gain node, and a streamer that was loaded stays loaded: nothing
    ever resets [ready], a failed reload included. *)
Theorem loaded_stays_loaded (w : world) (i : nat) (s : Streamer.t)
    (l : list action) :
  reachable w -> streamer_at i w = Some s ->
  exists s', streamer_at i (run l w) = Some s' /\
             Streamer.streamID s' = Streamer.streamID s /\
             Streamer.gain s' = Streamer.gain s /\
             (Streamer.ready s = true -> Streamer.ready s' = true).
Proof.
  intros Hr Hi.
  destruct (run_same_track w l i s Hr Hi) as (s' & Hs' & A & B & C).
  exists s'. auto.
Qed.

(** Witness of X4: a reload that fails, a start and a stop. *)
Lemma loaded_stays_loaded_witness :
  exists s', streamer_at 0
               (run [OnStreamer 0 (Load true None None);
                     OnStreamer 0 (Stream None); OnStreamer 0 Stop] one_track)
             = Some s' /\
             Streamer.ready s' = true.
Proof.
  destruct (lookup_lt_is_Some_2
              (StreamCoordinator.streamers (fst one_track)) 0)
    as [s Hs]; [vm_compute; lia|].
  destruct (loaded_stays_loaded one_track 0 s
              [OnStreamer 0 (Load true None None);
               OnStreamer 0 (Stream None); OnStreamer 0 Stop])
    as (s' & A & _ & _ & B).
  - unfold one_track. apply reachable_run, reachable_boot.
  - exact Hs.
  - exists s'. split; [exact A|]. apply B.
    vm_compute in Hs. injection Hs as <-. reflexivity.
Defined.

(* ================================================================== *)
(** ** The id counter *)

Lemma exec_nextID (i : nat) (p : prim) (s : Streamer.t) (e : env) :
  nextID (snd (exec i p s e)) = nextID e.
Proof.
  destruct p as [[]| |]; unfold_exec; unfold clearTimeout; cbn [fst snd];
    cases; reflexivity.
Qed.

Lemma at_streamer_nextID (i : nat) f (c : StreamCoordinator.t) (e : env) :
  (forall s e', nextID (snd (f s e')) = nextID e') ->
  nextID (snd (StreamCoordinator.at_streamer i f c e)) = nextID e.
Proof.
  intros Hf. unfold StreamCoordinator.at_streamer.
  destruct (StreamCoordinator.streamers c !! i) as [s|]; [|reflexivity].
  specialize (Hf s e). now destruct (f s e).
Qed.

Lemma forEach_nextID f (l : list Streamer.t) (i : nat) (e : env) :
  (forall i s e, nextID (snd (snd (f i s e))) = nextID e) ->
  nextID (snd (snd (StreamCoordinator.forEach f i l e))) = nextID e.
Proof.
  intros Hf. revert i e. induction l as [|s l IH]; intros i e; simpl;
    [reflexivity|].
  specialize (Hf i s e).
  destruct (f i s e) as [[[]|err] [s' e1]]; simpl in *; [|exact Hf].
  specialize (IH (S i) e1).
  destruct (StreamCoordinator.forEach f (S i) l e1) as [res [r' e2]].
  simpl in *. congruence.
Qed.

Lemma map_prime_nextID offset (l : list Streamer.t) (i : nat) (e : env) :
  nextID (snd (StreamCoordinator.map_prime offset i l e)) = nextID e.
Proof.
  revert i e. induction l as [|s l IH]; intros i e; simpl; [reflexivity|].
  pose proof (exec_nextID i (Call (Prime (Some offset))) s e) as Hp.
  simpl in Hp.
  destruct (Streamer.prime i (Some offset) s e) as [p e1].
  specialize (IH (S i) e1).
  destruct (StreamCoordinator.map_prime offset (S i) l e1) as [ps e2].
  simpl in *. congruence.
Qed.

Lemma barrier_then_nextID offset (c : StreamCoordinator.t) (e : env) :
  nextID (snd (StreamCoordinator.barrier_then offset c e)) = nextID e.
Proof.
  unfold StreamCoordinator.barrier_then.
  set (c1 := match StreamCoordinator.startTime c with None => _ | Some _ => _ end).
  pose proof (forEach_nextID (StreamCoordinator.do_stream offset)
                (StreamCoordinator.streamers c1) 0 e) as H.
  destruct (StreamCoordinator.forEach _ 0 _ e) as [res [l e1]].
  simpl in *. apply H. intros i s e'.
  apply (exec_nextID i (Call (Stream (Some offset)))).
Qed.

Lemma settle_nextID (c : StreamCoordinator.t) (e : env) :
  nextID (snd (StreamCoordinator.settle c e)) = nextID e.
Proof.
  unfold StreamCoordinator.settle.
  change (nextID e)
    with (nextID (set_barriers
                    (List.filter (fun b => negb (StreamCoordinator.is_settled b))
                       (barriers e)) e)).
  generalize (set_barriers
                (List.filter (fun b => negb (StreamCoordinator.is_settled b))
                   (barriers e)) e).
  revert c.
  induction (List.filter StreamCoordinator.is_settled (barriers e)) as [|b l IH];
    intros c e1; simpl; [reflexivity|].
  pose proof (barrier_then_nextID (b_offset b) c e1) as Hb.
  destruct (StreamCoordinator.barrier_then (b_offset b) c e1) as [c2 e2].
  simpl in Hb. now rewrite IH.
Qed.

Lemma cstop_nextID (c : StreamCoordinator.t) (e : env) :
  nextID (snd (StreamCoordinator.stop c e)) = nextID e.
Proof.
  unfold StreamCoordinator.stop.
  destruct (StreamCoordinator.stopped c); [reflexivity|].
  pose proof (forEach_nextID StreamCoordinator.do_stop
                (StreamCoordinator.streamers c) 0 e) as H.
  destruct (StreamCoordinator.forEach _ 0 _ e) as [res [l e1]].
  simpl in *. apply H. intros i s e'. apply (exec_nextID i (Call Stop)).
Qed.

Lemma cstream_nextID offset (c : StreamCoordinator.t) (e : env) :
  nextID (snd (StreamCoordinator.stream offset c e)) = nextID e.
Proof.
  unfold StreamCoordinator.stream.
  destruct (if StreamCoordinator.garbageBuffer c then _ else _)
    as [c1 e1] eqn:Hg.
  assert (H1 : nextID e1 = nextID e).
  { destruct (StreamCoordinator.garbageBuffer c); injection Hg as _ <-;
      reflexivity. }
  pose proof (map_prime_nextID
                (match offset with
                 | Some o => o
                 | None => match StreamCoordinator.startOffset c with
                           | Some o => o | None => Num.zero end
                 end) (StreamCoordinator.streamers c1) 0 e1) as Hm.
  destruct (StreamCoordinator.map_prime _ 0 _ e1) as [ps e2].
  rewrite settle_nextID. simpl in Hm.
  unfold StreamCoordinator.promise_all.
  destruct (StreamCoordinator.awaited ps); simpl; congruence.
Qed.

(** A task other than [createStream], or [addClipToStream] with a handle
    that no streamer has, leaves the id counter alone; these two take
    one id. *)
Lemma step_nextID (a : action) (w : world) :
  nextID (snd (step a w)) = nextID (snd w) \/
  nextID (snd (step a w)) = S (nextID (snd w)).
Proof.
  destruct w as [c e].
  destruct a as [dt|i m|m|id record|id|id|src]; simpl.
  - left. now destruct (Qle_bool 0 dt).
  - left. apply at_streamer_nextID. intros s e'.
    apply (exec_nextID i (Call m)).
  - destruct m as [o| |o| |store| |id fileName]; simpl.
    + left. apply cstream_nextID.
    + left. apply cstop_nextID.
    + left. unfold StreamCoordinator.seek.
      destruct (negb (StreamCoordinator.stopped c)); simpl; [|reflexivity].
      pose proof (cstop_nextID c e) as Hs.
      destruct (StreamCoordinator.stop c e) as [c1 e1].
      rewrite cstream_nextID. exact Hs.
    + left. unfold StreamCoordinator.currentTime.
      destruct (StreamCoordinator.stopped c); simpl; [reflexivity|].
      destruct (Num.ge _ _); simpl; [apply cstop_nextID | reflexivity].
    + now left.
    + unfold StreamCoordinator.createStream, Streamer.constructor. simpl.
      destruct (StreamCoordinator.playbackMode c); simpl; auto.
    + unfold StreamCoordinator.addClipToStream, StreamCoordinator.findStreamer.
      destruct (StreamCoordinator.index_of id 0 _) as [i|].
      * left. now apply at_streamer_nextID.
      * right. reflexivity.
  - left. unfold resolve. destruct (List.find _ _) as [f|]; simpl; [|reflexivity].
    destruct (f_then f).
    + pose proof (at_streamer_nextID (f_self f)
                    (Streamer.prime_resume offset record) c (drop_fetch id e)
                    (fun s e' => eq_refl)) as Ha.
      destruct (StreamCoordinator.at_streamer _ _ c _) as [c1 e2].
      rewrite settle_nextID. exact Ha.
    + rewrite at_streamer_nextID; [reflexivity|]. intros s e'.
      apply (exec_nextID (f_self f) (NextThen when offset output record)).
  - left. unfold reject. destruct (List.find _ _) as [f|]; simpl; [|reflexivity].
    now destruct (f_then f).
  - left. unfold fire. destruct (List.find _ _) as [t|]; simpl; [|reflexivity].
    now rewrite at_streamer_nextID.
  - left. unfold ended. destruct (List.find _ _) as [[src' self]|]; simpl;
      [|reflexivity].
    rewrite at_streamer_nextID; [reflexivity|]. intros s e'.
    apply (exec_nextID self (Call Stop)).
Qed.

(* ================================================================== *)
(** ** Handles and gain nodes *)

Lemma step_gain_ok (a : action) (w : world) :
  holds gain_ok w /\ owned w -> holds gain_ok (step a w) /\ owned (step a w).
Proof.
  intros H. apply (step_holds gain_ok); [| | | | exact H].
  - unfold gain_ok. intros i j s e e' _ (Hn & _) Hs. lia.
  - unfold gain_ok. intros i p _ s e Hs.
    destruct (exec_same_track i p s e) as (_ & -> & _).
    destruct (exec_ext i p s e) as (Hn & _). lia.
  - unfold gain_ok. intros t s _ Hs. exact Hs.
  - unfold gain_ok. intros s e' Hc.
    unfold Streamer.constructor in Hc. simpl in Hc.
    injection Hc as <- <-. simpl. lia.
Qed.

Lemma step_length_same (a : action) (w : world) :
  a <> OnCoordinator CreateStream ->
  length (StreamCoordinator.streamers (fst (step a w)))
  = length (StreamCoordinator.streamers (fst w)).
Proof.
  intros Ha. destruct w as [c e].
  destruct a as [dt|i m|m|id record|id|id|src]; simpl.
  - now destruct (Qle_bool 0 dt).
  - now rewrite at_streamer_length.
  - destruct m as [o| |o| |store| |id fileName]; simpl.
    + now rewrite cstream_length.
    + now rewrite cstop_length.
    + unfold StreamCoordinator.seek.
      destruct (negb (StreamCoordinator.stopped c)); simpl; [|reflexivity].
      pose proof (cstop_length c e) as Hs.
      destruct (StreamCoordinator.stop c e) as [c1 e1].
      rewrite cstream_length. exact Hs.
    + unfold StreamCoordinator.currentTime.
      destruct (StreamCoordinator.stopped c); simpl; [reflexivity|].
      destruct (Num.ge _ _); simpl; [now rewrite cstop_length | reflexivity].
    + unfold StreamCoordinator.load.
      pose proof (map_load_length store (StreamCoordinator.streamers c) 0) as Hn.
      destruct (StreamCoordinator.map_load store 0 _) as [ps l]. simpl in Hn.
      now destruct (forallb _ ps).
    + congruence.
    + unfold StreamCoordinator.addClipToStream, StreamCoordinator.findStreamer.
      destruct (StreamCoordinator.index_of id 0 _).
      * now rewrite at_streamer_length.
      * now destruct (Streamer.constructor None e).
  - unfold resolve. destruct (List.find _ _) as [f|]; simpl; [|reflexivity].
    destruct (f_then f).
    + pose proof (at_streamer_length (f_self f)
                    (Streamer.prime_resume offset record) c (drop_fetch id e)) as Ha'.
      destruct (StreamCoordinator.at_streamer _ _ c _) as [c1 e2].
      rewrite settle_length. exact Ha'.
    + now rewrite at_streamer_length.
  - unfold reject. destruct (List.find _ _) as [f|]; simpl; [|reflexivity].
    now destruct (f_then f).
  - unfold fire. destruct (List.find _ _) as [t|]; simpl; [|reflexivity].
    now rewrite at_streamer_length.
  - unfold ended. destruct (List.find _ _) as [[src' self]|]; simpl; [|reflexivity].
    now rewrite at_streamer_length.
Qed.

Lemma reachable_gain_ok (w : world) : reachable w -> holds gain_ok w.
Proof.
  intros Hr.
  assert (H : holds gain_ok w /\ owned w); [|apply H].
  induction Hr as [m|a w Hr IH].
  - split; [intros j s Hj; discriminate Hj|].
    split; [|split]; intros x [].
  - now apply step_gain_ok.
Qed.

Lemma step_roster (a : action) (w : world) :
  reachable w -> roster w -> roster (step a w).
Proof.
  intros Hr [Hb Hs].
  assert (Hcase : a = OnCoordinator CreateStream \/
                 a <> OnCoordinator CreateStream).
  { destruct a as [| |m| | | |]; try (right; discriminate).
    destruct m; try (right; discriminate). now left. }
  destruct Hcase as [->|Ha].
  - destruct w as [c e]. unfold roster, streamer_at in *. simpl in *.
    unfold StreamCoordinator.createStream, Streamer.constructor.
    cbn [Streamer.getNextID createGain createNode].
    destruct (StreamCoordinator.playbackMode c); simpl.
    3: { split; assumption. }
    all: split.
    all: try (intros j s Hj; destruct (decide (j < length (StreamCoordinator.streamers c))) as [Hlt|Hge];
      [rewrite lookup_app_l in Hj by exact Hlt; destruct (Hb j s Hj); simpl; lia
      |rewrite lookup_app_r in Hj by lia;
       destruct (j - length (StreamCoordinator.streamers c)) as [|n] eqn:Hn;
       [injection Hj as <-; simpl; lia | destruct n; discriminate Hj]]).
    all: intros j k s s' Hjk Hj Hk;
      assert (Hjl : j < length (StreamCoordinator.streamers c))
        by (apply lookup_lt_Some in Hk; rewrite length_app in Hk; simpl in Hk; lia);
      rewrite lookup_app_l in Hj by exact Hjl;
      destruct (decide (k < length (StreamCoordinator.streamers c))) as [Hlt|Hge];
      [rewrite lookup_app_l in Hk by exact Hlt; eauto
      |rewrite lookup_app_r in Hk by lia;
       destruct (k - length (StreamCoordinator.streamers c)) as [|n] eqn:Hn;
       [injection Hk as <-; destruct (Hb j s Hj); simpl; lia
       | destruct n; discriminate Hk]].
  - pose proof (step_length_same a w Ha) as Hlen.
    assert (Hsame : forall j s', streamer_at j (step a w) = Some s' ->
              exists s, streamer_at j w = Some s /\ same_track s s').
    { intros j s' Hj. apply lookup_lt_Some in Hj as Hlt. rewrite Hlen in Hlt.
      destruct (lookup_lt_is_Some_2 _ _ Hlt) as [s Hs0].
      destruct (run_same_track w [a] j s Hr Hs0) as (s2 & Hs2 & Ht).
      change (run [a] w) with (step a w) in Hs2.
      rewrite Hj in Hs2. injection Hs2 as <-. eauto. }
    pose proof (step_nextID a w) as Hid.
    pose proof (reachable_gain_ok (step a w) (reachable_step a w Hr)) as Hg.
    split.
    + intros j s' Hj. destruct (Hsame j s' Hj) as (s & Hs0 & (Hi & _)).
      destruct (Hb j s Hs0) as [Hb1 _].
      split; [rewrite Hi; lia | exact (Hg j s' Hj)].
    + intros j k s1 s2 Hjk Hj Hk.
      destruct (Hsame j s1 Hj) as (t1 & Ht1 & (Hi1 & Hg1 & _)).
      destruct (Hsame k s2 Hk) as (t2 & Ht2 & (Hi2 & Hg2 & _)).
      rewrite Hi1, Hi2, Hg1, Hg2. eauto.
Qed.

Lemma reachable_roster (w : world) : reachable w -> roster w.
Proof.
  induction 1 as [m|a w Hr IH].
  - split; [intros j s Hj | intros j k s s' _ Hj]; discriminate Hj.
  - now apply step_roster.
Qed.

Lemma roster_distinct (w : world) (j k : nat) (s s' : Streamer.t) :
  roster w -> streamer_at j w = Some s -> streamer_at k w = Some s' ->
  j <> k ->
  Streamer.streamID s <> Streamer.streamID s' /\
  Streamer.gain s <> Streamer.gain s'.
Proof.
  intros [_ Hs] Hj Hk Hne.
  destruct (decide (j < k)) as [Hlt|Hge].
  - destruct (Hs j k s s' Hlt Hj Hk). lia.
  - assert (Hlt : k < j) by lia. destruct (Hs k j s' s Hlt Hk Hj). lia.
Qed.

Lemma index_of_found (l : list Streamer.t) (k i : nat) (s : Streamer.t) :
  l !! i = Some s ->
  (forall j s', j < i -> l !! j = Some s' ->
                Streamer.streamID s' <> Streamer.streamID s) ->
  StreamCoordinator.index_of (Streamer.streamID s) k l = Some (k + i).
Proof.
  revert k i. induction l as [|x l IH]; intros k i Hi Hd; [discriminate Hi|].
  simpl. destruct i as [|i].
  - injection Hi as ->. rewrite Nat.eqb_refl. f_equal. lia.
  - assert (Hx : Nat.eqb (Streamer.streamID x) (Streamer.streamID s) = false).
    { apply Nat.eqb_neq. apply (Hd 0 x); [lia | reflexivity]. }
    rewrite Hx. rewrite (IH (S k) i Hi).
    + f_equal. lia.
    + intros j s' Hj Hs'. apply (Hd (S j) s'); [lia | exact Hs'].
Qed.

Lemma index_of_missing (l : list Streamer.t) (k id : nat) :
  (forall j s, l !! j = Some s -> Streamer.streamID s <> id) ->
  StreamCoordinator.index_of id k l = None.
Proof.
  revert k. induction l as [|x l IH]; intros k H; [reflexivity|].
  simpl. assert (Hx : Nat.eqb (Streamer.streamID x) id = false).
  { apply Nat.eqb_neq. apply (H 0 x). reflexivity. }
  rewrite Hx. apply IH. intros j s Hj. apply (H (S j) s). exact Hj.
Qed.

Lemma find_roster (w : world) (i : nat) (s : Streamer.t) :
  roster w -> streamer_at i w = Some s ->
  StreamCoordinator.index_of (Streamer.streamID s) 0
    (StreamCoordinator.streamers (fst w)) = Some i.
Proof.
  intros Hr Hi. apply (index_of_found _ 0 i s Hi).
  intros j s' Hlt Hj.
  apply (roster_distinct w j i s' s Hr Hj Hi). lia.
Qed.

Lemma mute_all_spec (l : list Streamer.t) (g : StreamCoordinator.gains) (n : nat) :
  StreamCoordinator.mute_all l g n
  = if existsb (fun s => Nat.eqb n (Streamer.gain s)) l then Num.zero else g n.
Proof.
  unfold StreamCoordinator.mute_all. revert g.
  induction l as [|s l IH]; intros g; simpl; [reflexivity|].
  rewrite IH. unfold StreamCoordinator.set_gain.
  destruct (existsb _ l); [now rewrite orb_true_r|].
  rewrite orb_false_r. reflexivity.
Qed.

Lemma existsb_gain (l : list Streamer.t) (n : nat) :
  existsb (fun s => Nat.eqb n (Streamer.gain s)) l = true <->
  exists j s, l !! j = Some s /\ Streamer.gain s = n.
Proof.
  rewrite existsb_exists. split.
  - intros (s & Hin & Hn). apply Nat.eqb_eq in Hn.
    apply list_elem_of_In in Hin. apply list_elem_of_lookup in Hin.
    destruct Hin as [j Hj]. eauto.
  - intros (j & s & Hj & Hn). exists s. split.
    + apply list_elem_of_In. eapply list_elem_of_lookup_2. exact Hj.
    + apply Nat.eqb_eq. auto.
Qed.

(** X9. [solo( i )], [i] being the index of a streamer: the gain of that
    streamer is 1 afterwards and the gain of every other streamer 0; a
    gain node of no streamer keeps its value. *)
Theorem solo_spec (w : world) (i : nat) (s : Streamer.t)
    (g : StreamCoordinator.gains) :
  reachable w -> streamer_at i w = Some s ->
  let r := StreamCoordinator.solo (Z.of_nat i) (fst w) g in
  fst r = Ok tt /\
  snd r (Streamer.gain s) = Num.one /\
  (forall j s', j <> i -> streamer_at j w = Some s' ->
                snd r (Streamer.gain s') = Num.zero) /\
  (forall n, (forall j s', streamer_at j w = Some s' -> Streamer.gain s' <> n) ->
             snd r n = g n).
Proof.
  intros Hr Hi. pose proof (reachable_roster w Hr) as Hro.
  unfold StreamCoordinator.solo.
  assert (Hz : (0 <=? Z.of_nat i)%Z = true) by (apply Z.leb_le; lia).
  rewrite Hz, Nat2Z.id. unfold streamer_at in Hi. rewrite Hi. cbn [fst snd].
  split; [reflexivity|]. unfold StreamCoordinator.set_gain.
  split; [now rewrite Nat.eqb_refl|]. split.
  - intros j s' Hne Hj.
    destruct (roster_distinct w j i s' s Hro Hj Hi Hne) as [_ Hg].
    apply Nat.eqb_neq in Hg. rewrite Hg, mute_all_spec.
    assert (He : existsb (fun s0 => Nat.eqb (Streamer.gain s') (Streamer.gain s0))
                   (StreamCoordinator.streamers (fst w)) = true).
    { apply existsb_gain. eauto. }
    now rewrite He.
  - intros n Hn.
    assert (Hs : Nat.eqb n (Streamer.gain s) = false).
    { apply Nat.eqb_neq. intros ->. now apply (Hn i s). }
    rewrite Hs, mute_all_spec.
    destruct (existsb _ _) eqn:He; [|reflexivity].
    apply existsb_gain in He. destruct He as (j & s' & Hj & Hg).
    now destruct (Hn j s' Hj).
Qed.

(** Witness of X9. *)
Lemma solo_spec_witness :
  exists s, streamer_at 1 two_tracks_loaded = Some s /\
    fst (StreamCoordinator.solo 1 (fst two_tracks_loaded) (fun _ => Num.one))
    = Ok tt /\
    snd (StreamCoordinator.solo 1 (fst two_tracks_loaded) (fun _ => Num.one))
      (Streamer.gain s) = Num.one.
Proof.
  destruct (lookup_lt_is_Some_2
              (StreamCoordinator.streamers (fst two_tracks_loaded)) 1)
    as [s Hs]; [vm_compute; lia|].
  exists s. split; [exact Hs|].
  destruct (solo_spec two_tracks_loaded 1 s (fun _ => Num.one)) as (A & B & _).
  - unfold two_tracks_loaded. apply reachable_run, reachable_boot.
  - exact Hs.
  - split; assumption.
Defined.

(** X10. [solo( index )] with a negative index, or one at or beyond the
    number of streamers, throws, after it has set the gain of every
    streamer to 0. *)
Theorem solo_out_of_range (c : StreamCoordinator.t) (index : Z)
    (g : StreamCoordinator.gains) :
  (index < 0 \/ Z.of_nat (length (StreamCoordinator.streamers c)) <= index)%Z ->
  let r := StreamCoordinator.solo index c g in
  fst r = Throw TypeError /\
  (forall j s, StreamCoordinator.streamers c !! j = Some s ->
               snd r (Streamer.gain s) = Num.zero) /\
  (forall n, (forall j s, StreamCoordinator.streamers c !! j = Some s ->
                          Streamer.gain s <> n) -> snd r n = g n).
Proof.
  intros Hout. unfold StreamCoordinator.solo.
  assert (Hnone : (if (0 <=? index)%Z
                   then StreamCoordinator.streamers c !! Z.to_nat index
                   else None) = None).
  { destruct (0 <=? index)%Z eqn:Hz; [|reflexivity].
    apply Z.leb_le in Hz. apply lookup_ge_None. lia. }
  rewrite Hnone. cbn [fst snd]. split; [reflexivity|]. split.
  - intros j s Hj. rewrite mute_all_spec.
    assert (He : existsb (fun s0 => Nat.eqb (Streamer.gain s) (Streamer.gain s0))
                   (StreamCoordinator.streamers c) = true).
    { apply existsb_gain. eauto. }
    now rewrite He.
  - intros n Hn. rewrite mute_all_spec.
    destruct (existsb _ _) eqn:He; [|reflexivity].
    apply existsb_gain in He. destruct He as (j & s' & Hj & Hg).
    now destruct (Hn j s' Hj).
Qed.

(** Witness of X10: index 2 with two tracks. *)
Lemma solo_out_of_range_witness :
  fst (StreamCoordinator.solo 2 (fst two_tracks_loaded) (fun _ => Num.one))
  = Throw TypeError.
Proof.
  apply (solo_out_of_range (fst two_tracks_loaded) 2 (fun _ => Num.one)).
  right. vm_compute. discriminate.
Defined.

(** X5. In every reachable world the ids of the streamers are pairwise
    distinct: [findStreamer] with the id of the streamer at index [i]
    finds that streamer and creates nothing, and [getNode] returns its
    current output node. *)
Theorem handle_finds_streamer (w : world) (i : nat) (s : Streamer.t) :
  reachable w -> streamer_at i w = Some s ->
  StreamCoordinator.findStreamer (Streamer.streamID s) (fst w) (snd w)
  = (inl i, snd w) /\
  StreamCoordinator.getNode (Streamer.streamID s) (fst w) (snd w)
  = (Ok (Streamer.trackNode s), snd w) /\
  (forall j s', streamer_at j w = Some s' ->
                Streamer.streamID s' = Streamer.streamID s -> j = i).
Proof.
  intros Hr Hi. pose proof (reachable_roster w Hr) as Hro.
  pose proof (find_roster w i s Hro Hi) as Hf.
  unfold StreamCoordinator.getNode, StreamCoordinator.findStreamer.
  rewrite Hf. unfold streamer_at in Hi. rewrite Hi.
  repeat split.
  intros j s' Hj Hid. destruct (decide (j = i)) as [->|Hne]; [reflexivity|].
  destruct (roster_distinct w j i s' s Hro Hj Hi Hne). congruence.
Qed.

(** Witness of X5: the second of two tracks. *)
Lemma handle_finds_streamer_witness :
  exists s, streamer_at 1 two_tracks_loaded = Some s /\
    StreamCoordinator.findStreamer (Streamer.streamID s)
      (fst two_tracks_loaded) (snd two_tracks_loaded)
    = (inl 1, snd two_tracks_loaded).
Proof.
  destruct (lookup_lt_is_Some_2
              (StreamCoordinator.streamers (fst two_tracks_loaded)) 1)
    as [s Hs]; [vm_compute; lia|].
  exists s. split; [exact Hs|].
  apply (handle_finds_streamer two_tracks_loaded 1 s); [|exact Hs].
  unfold two_tracks_loaded. apply reachable_run, reachable_boot.
Defined.

(** X6. [createStream] in a mode that is neither of the two known ones
    returns [undefined] and changes nothing. In the [AudioBufferSourceNode]
    mode it returns the value of the id counter as the handle, which no
    streamer had before, leaves the streamers there were as they are,
    and appends the new one; whatever tasks follow, [findStreamer] with
    that handle finds the streamer at that index. *)
Theorem createStream_handle (w : world) :
  reachable w ->
  let r := StreamCoordinator.createStream (fst w) (snd w) in
  let n := length (StreamCoordinator.streamers (fst w)) in
  (StreamCoordinator.playbackMode (fst w) = StreamCoordinator.OtherMode ->
   r = (None, w)) /\
  (StreamCoordinator.playbackMode (fst w)
   = StreamCoordinator.AudioBufferSourceNode ->
   fst r = Some (nextID (snd w)) /\
   (forall j s, streamer_at j w = Some s ->
                streamer_at j (snd r) = Some s /\
                Streamer.streamID s <> nextID (snd w)) /\
   forall l, exists s,
     streamer_at n (run l (snd r)) = Some s /\
     Streamer.streamID s = nextID (snd w) /\
     StreamCoordinator.findStreamer (nextID (snd w))
       (fst (run l (snd r))) (snd (run l (snd r)))
     = (inl n, snd (run l (snd r)))).
Proof.
  destruct w as [c e]. intros Hr. cbn [fst snd].
  set (r := StreamCoordinator.createStream c e).
  set (n := length (StreamCoordinator.streamers c)). split.
  - intros Hm. subst r. unfold StreamCoordinator.createStream. now rewrite Hm.
  - intros Hm.
    assert (Hr1 : reachable (snd r)).
    { change (snd r) with (step (OnCoordinator CreateStream) (c, e)).
      now constructor. }
    assert (Hnew : fst r = Some (nextID e) /\
                   StreamCoordinator.streamers (fst (snd r))
                   = StreamCoordinator.streamers c
                     ++ [{| Streamer.streamID := nextID e;
                            Streamer.trackNode := ac_nodes e;
                            Streamer.gain := S (ac_nodes e);
                            Streamer.url := None; Streamer.name := None;
                            Streamer.garbageBuffer := true;
                            Streamer.startTime := None;
                            Streamer.startOffset := None;
                            Streamer.stopped := true; Streamer.ready := false;
                            Streamer.duration := None; Streamer.primed := None;
                            Streamer.ending := None;
                            Streamer.fetchtimer := None |}]).
    { subst r. unfold StreamCoordinator.createStream.
      rewrite Hm. split; reflexivity. }
    destruct Hnew as [Hh Hl]. split; [exact Hh|]. split.
    + intros j s Hj. split.
      * unfold streamer_at in *. rewrite Hl.
        rewrite lookup_app_l; [exact Hj | now apply lookup_lt_Some in Hj].
      * destruct (reachable_roster (c, e) Hr) as [Hb _].
        destruct (Hb j s Hj) as [H1 _]. simpl in H1. lia.
    + intros l.
      assert (Hn : streamer_at n (snd r)
                   = Some {| Streamer.streamID := nextID e;
                            Streamer.trackNode := ac_nodes e;
                            Streamer.gain := S (ac_nodes e);
                            Streamer.url := None; Streamer.name := None;
                            Streamer.garbageBuffer := true;
                            Streamer.startTime := None;
                            Streamer.startOffset := None;
                            Streamer.stopped := true; Streamer.ready := false;
                            Streamer.duration := None; Streamer.primed := None;
                            Streamer.ending := None;
                            Streamer.fetchtimer := None |}).
      { unfold streamer_at. rewrite Hl. rewrite lookup_app_r by (subst n; lia).
        subst n. now rewrite Nat.sub_diag. }
      destruct (run_same_track (snd r) l n _ Hr1 Hn) as (s & Hs & (Hid & _)).
      simpl in Hid. exists s. split; [exact Hs|]. split; [exact Hid|].
      unfold StreamCoordinator.findStreamer. rewrite <- Hid.
      rewrite (find_roster (run l (snd r)) n s); [reflexivity | | exact Hs].
      apply reachable_roster. now apply reachable_run.
Qed.

(** Witness of X6: a third track. *)
Lemma createStream_handle_witness :
  fst (StreamCoordinator.createStream (fst two_tracks_loaded)
         (snd two_tracks_loaded)) = Some (nextID (snd two_tracks_loaded)).
Proof.
  apply (createStream_handle two_tracks_loaded).
  - unfold two_tracks_loaded. apply reachable_run, reachable_boot.
  - reflexivity.
Defined.

Lemma at_streamer_lookup_ne (i j : nat) f (c : StreamCoordinator.t) (e : env) :
  j <> i ->
  StreamCoordinator.streamers (fst (StreamCoordinator.at_streamer i f c e)) !! j
  = StreamCoordinator.streamers c !! j.
Proof.
  intros Hne. unfold StreamCoordinator.at_streamer.
  destruct (StreamCoordinator.streamers c !! i) as [s|]; [|reflexivity].
  destruct (f s e). simpl. now apply list_lookup_insert_ne.
Qed.

(** X7. [addClipToStream] with the id of the streamer at index [i] gives
    that streamer the url and the name of the clip and changes nothing
    else: not another streamer, and not the browser. *)
Theorem addClipToStream_names (w : world) (i : nat) (s : Streamer.t)
    (fileName : string) :
  reachable w -> streamer_at i w = Some s ->
  let w' := StreamCoordinator.addClipToStream (Streamer.streamID s) fileName
              (fst w) (snd w) in
  snd w' = snd w /\
  streamer_at i w' = Some (Streamer.addClip fileName s) /\
  (forall j, j <> i -> streamer_at j w' = streamer_at j w).
Proof.
  intros Hr Hi. pose proof (reachable_roster w Hr) as Hro.
  pose proof (find_roster w i s Hro Hi) as Hf.
  unfold StreamCoordinator.addClipToStream, StreamCoordinator.findStreamer.
  rewrite Hf. cbn zeta. split; [|split].
  - unfold StreamCoordinator.at_streamer. unfold streamer_at in Hi.
    now rewrite Hi.
  - unfold StreamCoordinator.at_streamer, streamer_at in *. rewrite Hi.
    simpl. apply list_lookup_insert_eq. now apply lookup_lt_Some in Hi.
  - intros j Hne. unfold streamer_at. now apply at_streamer_lookup_ne.
Qed.

(** Witness of X7. *)
Lemma addClipToStream_names_witness :
  exists s, streamer_at 1 two_tracks_loaded = Some s /\
    streamer_at 1
      (StreamCoordinator.addClipToStream (Streamer.streamID s)
         "audio/kick.wav" (fst two_tracks_loaded) (snd two_tracks_loaded))
    = Some (Streamer.addClip "audio/kick.wav" s).
Proof.
  destruct (lookup_lt_is_Some_2
              (StreamCoordinator.streamers (fst two_tracks_loaded)) 1)
    as [s Hs]; [vm_compute; lia|].
  exists s. split; [exact Hs|].
  apply (addClipToStream_names two_tracks_loaded 1 s "audio/kick.wav");
    [|exact Hs].
  unfold two_tracks_loaded. apply reachable_run, reachable_boot.
Defined.

(** X8. [addClipToStream] with an id that no streamer has changes no
    streamer: the clip goes to a streamer built for the occasion and
    thrown away, which takes one id from the counter and two audio
    nodes. [getNode] with such an id returns the output node of such a
    streamer, which is the output node and the gain node of no streamer
    of the coordinator. *)
Theorem unknown_handle (w : world) (id : nat) (fileName : string) :
  reachable w ->
  (forall j s, streamer_at j w = Some s -> Streamer.streamID s <> id) ->
  let w' := StreamCoordinator.addClipToStream id fileName (fst w) (snd w) in
  fst w' = fst w /\
  nextID (snd w') = S (nextID (snd w)) /\
  ac_nodes (snd w') = S (S (ac_nodes (snd w))) /\
  fst (StreamCoordinator.getNode id (fst w) (snd w)) = Ok (ac_nodes (snd w)) /\
  (forall j s, streamer_at j w = Some s ->
               Streamer.trackNode s <> ac_nodes (snd w) /\
               Streamer.gain s <> ac_nodes (snd w)).
Proof.
  intros Hr Hid.
  pose proof (index_of_missing (StreamCoordinator.streamers (fst w)) 0 id Hid)
    as Hf.
  unfold StreamCoordinator.addClipToStream, StreamCoordinator.getNode,
    StreamCoordinator.findStreamer.
  rewrite Hf. simpl. repeat split.
  - destruct (reachable_sound w Hr) as [Hs _].
    destruct (Hs j s H) as (Hn & _). lia.
  - pose proof (reachable_gain_ok w Hr j s H) as Hg. unfold gain_ok in Hg. lia.
Qed.

(** Witness of X8: two tracks have the ids 0 and 1, and none has 7. *)
Lemma unknown_handle_witness :
  fst (StreamCoordinator.addClipToStream 7 "audio/kick.wav"
         (fst two_tracks_loaded) (snd two_tracks_loaded))
  = fst two_tracks_loaded.
Proof.
  apply (unknown_handle two_tracks_loaded 7 "audio/kick.wav").
  - unfold two_tracks_loaded. apply reachable_run, reachable_boot.
  - intros j s Hj.
    destruct j as [|[|j]]; vm_compute in Hj;
      [injection Hj as <-; discriminate
      |injection Hj as <-; discriminate
      |discriminate Hj].
Defined.

(* ================================================================== *)
(** ** One chunk under way *)

Lemma idle_flight (i : nat) (s : Streamer.t) (e : env) :
  idle i s e -> flight i s e.
Proof.
  intros [Ht Hf]. split; [|split].
  - intros t Hin Hself. now destruct (Ht t Hin).
  - intros t f Hin Hself. now destruct (Ht t Hin).
  - intros f f' Hin _ Hl. now destruct (Hf f Hin).
Qed.

Lemma flight_record (i : nat) (s s' : Streamer.t) (e : env) :
  Streamer.stopped s' = Streamer.stopped s ->
  Streamer.fetchtimer s' = Streamer.fetchtimer s ->
  Streamer.trackNode s' = Streamer.trackNode s ->
  flight i s e -> flight i s' e.
Proof. unfold flight, live. intros -> -> ->. auto. Qed.

Lemma idle_record (i : nat) (s s' : Streamer.t) (e : env) :
  Streamer.trackNode s' = Streamer.trackNode s ->
  idle i s e -> idle i s' e.
Proof. unfold idle, live. intros ->. auto. Qed.

Lemma idle_env (i : nat) (s : Streamer.t) (e e' : env) :
  timers e' = timers e -> fetches e' = fetches e ->
  idle i s e -> idle i s e'.
Proof. unfold idle. intros -> ->. auto. Qed.

Lemma flight_env (i : nat) (s : Streamer.t) (e e' : env) :
  timers e' = timers e -> fetches e' = fetches e ->
  flight i s e -> flight i s e'.
Proof. unfold flight. intros -> ->. auto. Qed.

Lemma flight_frame (i j : nat) (s : Streamer.t) (e e' : env) :
  i <> j -> ext i e e' -> flight j s e -> flight j s e'.
Proof.
  intros Hne (_ & Hf & Ht & _) (T & X1 & X2).
  assert (Ht' : forall t, In t (timers e') -> t_self t = j -> In t (timers e)).
  { intros t Hin Hs. destruct (Ht t Hin); [assumption | congruence]. }
  assert (Hf' : forall f, In f (fetches e') -> live j s f -> In f (fetches e)).
  { intros f Hin [Hs _]. destruct (Hf f Hin); [assumption | congruence]. }
  split; [|split].
  - intros t Hin Hs. auto.
  - intros t f Hin Hs Hinf Hl. apply (X1 t f); auto.
  - intros f f' Hin Hin' Hl Hl'. apply X2; auto.
Qed.

Lemma single_frame (i j : nat) (s : Streamer.t) (e e' : env) :
  i <> j -> ext i e e' -> single j s e -> single j s e'.
Proof.
  intros Hne He [Hs Hf].
  split; [eapply sound_frame | eapply flight_frame]; eauto.
Qed.

(** A stopped streamer has nothing under way. *)
Lemma stopped_idle (i : nat) (s : Streamer.t) (e : env) :
  single i s e -> Streamer.stopped s = true -> idle i s e.
Proof.
  intros [(_ & _ & Sf & _) (T & _)] Hs. split.
  - intros t Hin Hself. destruct (T t Hin Hself). congruence.
  - intros f Hin [Hself (when & offset & Hk)].
    destruct (Sf f when offset _ Hin Hself Hk) as [_ Hlt].
    specialize (Hlt Hs). lia.
Qed.

Lemma stop_flight (i : nat) (s : Streamer.t) (e : env) :
  single i s e -> flight i (fst (Streamer.stop s e)) (snd (Streamer.stop s e)).
Proof.
  intros [Hs Hf]. unfold Streamer.stop.
  destruct (_ || _); [exact Hf|]. cbn [fst snd].
  apply idle_flight. destruct Hs as (Sn & _ & Sf & _).
  destruct Hf as (T & _). split.
  - intros t Hin Hself.
    unfold clearTimeout, drop_timer, connect, createGain, createNode in Hin.
    destruct (Streamer.fetchtimer s) as [id|] eqn:Hft; simpl in Hin.
    + apply filter_In in Hin. destruct Hin as [Hin Hid].
      destruct (T t Hin Hself) as (_ & Hft' & _).
      injection Hft' as ->. rewrite Nat.eqb_refl in Hid. discriminate.
    + destruct (T t Hin Hself) as (_ & Hft' & _). discriminate.
  - intros f Hin [Hself (when & offset & Hk)]. simpl in Hk.
    assert (Hin' : In f (fetches e)).
    { unfold clearTimeout, drop_timer in Hin.
      destruct (Streamer.fetchtimer s); exact Hin. }
    destruct (Sf f when offset _ Hin' Hself Hk) as [Hle _]. lia.
Qed.

Lemma play_flight (i : nat) src when offset (s : Streamer.t) (e : env) :
  Streamer.stopped s = false -> idle i s e ->
  let r := Streamer.play i src when offset (Streamer.trackNode s) s e in
  flight i (fst r) (snd r).
Proof.
  intros Hs [It If]. unfold Streamer.play, setTimeout.
  destruct (Num.ge _ _); cbn [fst snd].
  - apply idle_flight. split; assumption.
  - split; [|split].
    + intros t Hin Hself. simpl in Hin. apply in_app_iff in Hin.
      destruct Hin as [Hin|[<-|[]]]; [now destruct (It t Hin)|].
      simpl. auto.
    + intros t f _ _ Hin. simpl in Hin. now apply If.
    + intros f f' Hin _ Hl. simpl in Hin. now destruct (If f Hin).
Qed.

Lemma next_flight (i : nat) when offset (s : Streamer.t) (e : env) :
  idle i s e ->
  flight i s (Streamer.next i when offset (Streamer.trackNode s) s e).
Proof.
  intros [It If]. unfold Streamer.next, getAudioBuffer. cbn [snd].
  split; [|split].
  - intros t Hin Hself. simpl in Hin. now destruct (It t Hin).
  - intros t f Hin Hself. simpl in Hin. now destruct (It t Hin).
  - intros f f' Hin Hin' Hl Hl'. simpl in Hin, Hin'.
    apply in_app_iff in Hin. apply in_app_iff in Hin'.
    destruct Hin as [Hin|[<-|[]]]; [now destruct (If f Hin)|].
    destruct Hin' as [Hin'|[<-|[]]]; [now destruct (If f' Hin')|].
    reflexivity.
Qed.

Lemma next_then_flight (i : nat) when offset output record
    (s : Streamer.t) (e : env) :
  flight i s e ->
  (Streamer.stopped s = false -> output = Streamer.trackNode s -> idle i s e) ->
  let r := Streamer.next_then i when offset output record s e in
  flight i (fst r) (snd r).
Proof.
  intros Hf Hidle. unfold Streamer.next_then.
  destruct (Streamer.stopped s) eqn:Hs; [exact Hf|].
  destruct (Nat.eqb output (Streamer.trackNode s)) eqn:Ho; [|exact Hf].
  apply Nat.eqb_eq in Ho. specialize (Hidle eq_refl Ho). subst output.
  cbn [orb negb]. unfold createBufferSource, createNode.
  set (s1 := match Streamer.startTime s with None => _ | Some _ => _ end).
  assert (Hs1 : Streamer.trackNode s1 = Streamer.trackNode s /\
                Streamer.stopped s1 = false).
  { subst s1. destruct (Streamer.startTime s); simpl; auto. }
  destruct Hs1 as [Ht1 Hst1]. rewrite <- Ht1.
  apply play_flight; [exact Hst1|].
  apply idle_record with (s := s); [exact Ht1|].
  apply idle_env with (e := e); auto.
Qed.

Lemma stream_flight (i : nat) offset (s : Streamer.t) (e : env) :
  single i s e ->
  let r := snd (Streamer.stream i offset s e) in flight i (fst r) (snd r).
Proof.
  intros H. pose proof H as [Hsound Hf]. unfold Streamer.stream.
  destruct (Streamer.ready s) eqn:Hr; simpl; [|exact Hf].
  destruct (Streamer.stopped s) eqn:Hs; simpl; [|exact Hf].
  pose proof (stopped_idle i s e H Hs) as Hi.
  set (w1 := match Streamer.ending s with Some _ => _ | None => _ end).
  assert (H1 : idle i (fst w1) (snd w1) /\
               Streamer.trackNode (fst w1) = Streamer.trackNode s /\
               Streamer.stopped (fst w1) = true).
  { subst w1. destruct (Streamer.ending s); simpl; auto. }
  destruct w1 as [s1 e1]. simpl in H1. destruct H1 as (H1 & Ht1 & Hs1).
  destruct (Num.ge _ _).
  { unfold Streamer.stop. rewrite Hs1. simpl. now apply idle_flight. }
  set (w2 := if Streamer.garbageBuffer s1 then _ else _).
  assert (H2 : idle i (fst w2) (snd w2) /\
               Streamer.trackNode (fst w2) = Streamer.trackNode s).
  { subst w2. destruct (Streamer.garbageBuffer s1); simpl;
      (split; [|exact Ht1]); [|exact H1].
    apply idle_record with (s := s1); [reflexivity|].
    apply idle_env with (e := e1); auto. }
  destruct w2 as [s2 e2]. simpl in H2. destruct H2 as (H2 & Ht2).
  set (s4 := Streamer.set_primed None _).
  assert (H4 : idle i s4 e2) by (apply idle_record with (s := s2); auto).
  assert (Hs4 : Streamer.stopped s4 = false) by reflexivity.
  cbn [Streamer.primed Streamer.set_startOffset Streamer.set_stopped].
  change (Streamer.trackNode s2) with (Streamer.trackNode s4).
  destruct (Streamer.primed s2) as [[at_offset src]|].
  - destruct (Num.seq _ _); cbn [fst snd].
    + now apply play_flight.
    + now apply next_flight.
  - cbn [fst snd]. now apply next_flight.
Qed.

Lemma stop_single (i : nat) (s : Streamer.t) (e : env) :
  single i s e -> single i (fst (Streamer.stop s e)) (snd (Streamer.stop s e)).
Proof.
  intros H. split; [apply stop_sound, H | now apply stop_flight].
Qed.

Lemma stream_single (i : nat) offset (s : Streamer.t) (e : env) :
  single i s e ->
  let r := snd (Streamer.stream i offset s e) in single i (fst r) (snd r).
Proof.
  intros H. split; [apply stream_sound, H | now apply stream_flight].
Qed.

Lemma exec_single (i : nat) (p : prim) (s : Streamer.t) (e : env) :
  (forall when offset output record, p <> NextThen when offset output record) ->
  single i s e -> single i (fst (exec i p s e)) (snd (exec i p s e)).
Proof.
  intros Hp H. split; [apply exec_sound, H|].
  destruct p as [m|offset record|when offset output record]; unfold exec.
  - destruct m as [o|o| |o| |force cached fetched|fileName]; unfold call.
    + cbn [fst snd]. destruct H as [_ (T & X1 & X2)].
      unfold Streamer.prime, getAudioBuffer.
      destruct (negb _); [exact (conj T (conj X1 X2))|].
      destruct (Num.ge _ _); [exact (conj T (conj X1 X2))|]. cbn [snd].
      assert (Hold : forall f, In f (fetches e ++
                 [{| f_id := fetch_next e; f_self := i;
                     f_name := Streamer.name s;
                     f_offset := Streamer.default_offset o s;
                     f_duration := Streamer.chunk_duration s
                                     (Streamer.default_offset o s);
                     f_then := PrimeK (Streamer.default_offset o s) |}]) ->
                 live i s f -> In f (fetches e)).
      { intros f Hin [_ (w & o' & Hk)]. apply in_app_iff in Hin.
        destruct Hin as [Hin|[<-|[]]]; [assumption | discriminate Hk]. }
      split; [|split]; simpl.
      * exact T.
      * intros t f Hin Hself Hinf Hl. apply (X1 t f); auto.
      * intros f f' Hin Hin' Hl Hl'. apply X2; auto.
    + now apply stream_flight.
    + now apply stop_flight.
    + unfold Streamer.seek. destruct (negb (Streamer.stopped s)).
      * pose proof (stop_single i s e H) as H1.
        destruct (Streamer.stop s e) as [s1 e1].
        now apply stream_flight.
      * cbn [fst snd]. apply flight_record with (s := s); auto. apply H.
    + apply H.
    + cbn [fst snd]. unfold Streamer.load.
      destruct (if force then None else cached); [|destruct fetched];
        cbn [fst snd]; try apply H.
      all: apply flight_record with (s := s); auto; apply H.
    + cbn [fst snd]. apply flight_record with (s := s); auto. apply H.
  - cbn [fst snd]. unfold Streamer.prime_resume, createBufferSource, createNode.
    cbn [fst snd]. apply flight_record with (s := s); auto.
    apply flight_env with (e := e); auto. apply H.
  - now destruct (Hp when offset output record).
Qed.

Lemma timer_single (t : timer) (s : Streamer.t) (e : env) :
  In t (timers e) -> single (t_self t) s e ->
  single (t_self t) s
    (Streamer.next (t_self t) (t_when t) (t_offset t) (t_output t) s
       (drop_timer (t_id t) e)).
Proof.
  intros Hin [Hs Hf]. split; [now apply timer_sound|].
  destruct Hf as (T & X1 & X2).
  destruct (T t Hin eq_refl) as (Hst & Hft & Hout).
  rewrite Hout. apply next_flight. split.
  - intros t' Hin' Hself. simpl in Hin'.
    apply filter_In in Hin'. destruct Hin' as [Hin' Hid].
    destruct (T t' Hin' Hself) as (_ & Hft' & _).
    rewrite Hft in Hft'. injection Hft' as Heq.
    rewrite Heq, Nat.eqb_refl in Hid. discriminate.
  - intros f Hinf Hl. simpl in Hinf. now apply (X1 t f).
Qed.

Lemma new_single (n : nat) (s : Streamer.t) (e e' : env) :
  owned_by n e -> Streamer.constructor None e = (Ok s, e') -> single n s e'.
Proof.
  intros Ho Hc. split; [eapply new_sound; eauto|].
  destruct Ho as (Of & Ot & _).
  unfold Streamer.constructor in Hc. simpl in Hc. injection Hc as <- <-.
  apply idle_flight. split.
  - intros t Hin. simpl in Hin. apply Ot in Hin. lia.
  - intros f Hin [Hself _]. simpl in Hin. apply Of in Hin. lia.
Qed.

Lemma resolve_single (id : nat) (record : num) (c : StreamCoordinator.t)
    (e : env) :
  holds single (c, e) /\ owned (c, e) ->
  holds single (resolve id record c e) /\ owned (resolve id record c e).
Proof.
  intros H. unfold resolve.
  destruct (List.find (has_id id) (fetches e)) as [f|] eqn:Hfind; [|exact H].
  apply find_some in Hfind. destruct Hfind as [Hin Hid].
  assert (H1 : holds single (c, drop_fetch id e) /\ owned (c, drop_fetch id e)).
  { apply (calmer_holds single single_frame) with (c := c) (e := e);
      auto using drop_fetch_calmer. }
  destruct (f_then f) as [offset|when offset output] eqn:Hk.
  - assert (Hb : barriers (snd (StreamCoordinator.at_streamer (f_self f)
                   (Streamer.prime_resume offset record) c (drop_fetch id e)))
                 = barriers e).
    { rewrite at_streamer_barriers; [reflexivity|]. intros s e'. reflexivity. }
    assert (H2 : holds single (StreamCoordinator.at_streamer (f_self f)
                   (Streamer.prime_resume offset record) c (drop_fetch id e)) /\
                 owned (StreamCoordinator.at_streamer (f_self f)
                   (Streamer.prime_resume offset record) c (drop_fetch id e))).
    { destruct H1 as [H1 Ho1].
      apply (at_streamer_holds single single_frame); [| | exact H1 | exact Ho1].
      - intros s e' Hs.
        apply (exec_single (f_self f) (PrimeResume offset record));
          [discriminate | exact Hs].
      - intros s e'. apply (exec_ext (f_self f) (PrimeResume offset record)). }
    destruct (StreamCoordinator.at_streamer (f_self f) _ c (drop_fetch id e))
      as [c1 e2]. simpl in Hb.
    apply (settle_holds single single_frame).
    + right. intros o i s e' Hs.
      apply (exec_single i (Call (Stream (Some o)))); [discriminate | exact Hs].
    + apply (calmer_holds single single_frame) with (c := c1) (e := e2); auto.
      apply calmer_same; simpl; auto.
  - destruct H as [H Ho]. destruct H1 as [H1 Ho1].
    unfold StreamCoordinator.at_streamer.
    destruct (StreamCoordinator.streamers c !! f_self f) as [s|] eqn:Hs;
      [|split; assumption].
    destruct (H1 _ s Hs) as [Hsound Hflight].
    destruct (H _ s Hs) as [_ (T & X1 & X2)].
    pose proof (next_then_sound (f_self f) when offset output record s
                  (drop_fetch id e) Hsound) as [Hsound' _].
    assert (Hfl : flight (f_self f)
              (fst (Streamer.next_then (f_self f) when offset output record s
                      (drop_fetch id e)))
              (snd (Streamer.next_then (f_self f) when offset output record s
                      (drop_fetch id e)))).
    { apply next_then_flight; [exact Hflight|].
      intros Hst Hout.
      assert (Hl : live (f_self f) s f).
      { split; [reflexivity|]. exists when, offset. now rewrite Hk, Hout. }
      split.
      - intros t Hint Hself. simpl in Hint. now apply (X1 t f Hint Hself Hin).
      - intros f' Hin' Hl'. simpl in Hin'.
        apply filter_In in Hin'. destruct Hin' as [Hin' Hid'].
        pose proof (X2 f f' Hin Hin' Hl Hl') as Heq.
        unfold has_id in Hid, Hid'. rewrite <- Heq, Hid in Hid'.
        discriminate. }
    pose proof (next_then_ext (f_self f) when offset output record s
                  (drop_fetch id e)) as He.
    destruct (Streamer.next_then (f_self f) when offset output record s
                (drop_fetch id e)) as [s' e']. cbn [fst snd] in *.
    split.
    + unfold holds. cbn [fst snd].
      apply (holds_list_insert single single_frame) with (e := drop_fetch id e);
        [exact H1 | split; assumption | exact He].
    + unfold owned in *. simpl. simpl in Ho1. rewrite length_insert.
      apply lookup_lt_Some in Hs.
      eapply owned_by_ext; [exact Hs | | exact He | exact Ho1]. lia.
Qed.

Lemma step_single (a : action) (w : world) :
  holds single w /\ owned w -> holds single (step a w) /\ owned (step a w).
Proof.
  intros H.
  assert (Hcase : (exists id record, a = Resolved id record) \/
                  forall id record, a <> Resolved id record).
  { destruct a; try (right; discriminate). left. eauto. }
  destruct Hcase as [(id & record & ->)|Ha].
  - destruct w as [c e]. now apply resolve_single.
  - apply (step_holds single single_frame); [| | | exact H].
    + intros i p Hu. intros s e Hs. apply exec_single; [|exact Hs].
      intros when offset output record ->.
      destruct a as [dt|j m|m|id record'|id|id|src]; simpl in Hu.
      * exact Hu.
      * destruct Hu as [_ Hu]. discriminate Hu.
      * destruct m; simpl in Hu;
          repeat match goal with
                 | H : exists _, _ |- _ => destruct H
                 | H : _ \/ _ |- _ => destruct H
                 end; try discriminate; try contradiction.
      * now destruct (Ha id record').
      * exact Hu.
      * exact Hu.
      * discriminate Hu.
    + intros t s. apply timer_single.
    + intros s e'. apply new_single. apply H.
Qed.

Lemma reachable_single (w : world) : reachable w -> holds single w.
Proof.
  intros Hr.
  assert (H : holds single w /\ owned w); [|apply H].
  induction Hr as [m|a w Hr IH].
  - split; [intros j s Hj; discriminate Hj|].
    split; [|split]; intros x [].
  - now apply step_single.
Qed.

(** X11. In every reachable world at most one thing of the scheduling
    loop of a streamer is under way. A pending timer of the streamer is
    the one [fetchtimer] names, the streamer plays and the timer was set
    against its current output node; no timer is pending together with
    a live request; two live requests bear the same number; and a
    stopped streamer has neither a timer nor a live request. *)
Theorem one_chunk_in_flight (w : world) (i : nat) (s : Streamer.t) :
  reachable w -> streamer_at i w = Some s ->
  (forall t, In t (timers (snd w)) -> t_self t = i ->
     Streamer.stopped s = false /\
     Streamer.fetchtimer s = Some (t_id t) /\
     t_output t = Streamer.trackNode s) /\
  (forall t f, In t (timers (snd w)) -> t_self t = i ->
     In f (fetches (snd w)) -> ~ live i s f) /\
  (forall f f', In f (fetches (snd w)) -> In f' (fetches (snd w)) ->
     live i s f -> live i s f' -> f_id f = f_id f') /\
  (Streamer.stopped s = true -> idle i s (snd w)).
Proof.
  intros Hr Hi. pose proof (reachable_single w Hr i s Hi) as H.
  destruct H as [Hs (T & X1 & X2)].
  split; [exact T | split; [exact X1 | split; [exact X2|]]].
  intros Hst. apply stopped_idle; [split; [exact Hs | exact (conj T (conj X1 X2))] | exact Hst].
Qed.

(** Witness of X11: a track whose first chunk plays. *)
Lemma one_chunk_in_flight_witness :
  exists s, streamer_at 0 one_track_playing = Some s /\
    forall t, In t (timers (snd one_track_playing)) -> t_self t = 0 ->
      Streamer.stopped s = false /\
      Streamer.fetchtimer s = Some (t_id t) /\
      t_output t = Streamer.trackNode s.
Proof.
  destruct (lookup_lt_is_Some_2
              (StreamCoordinator.streamers (fst one_track_playing)) 0)
    as [s Hs]; [vm_compute; lia|].
  exists s. split; [exact Hs|].
  apply (one_chunk_in_flight one_track_playing 0 s); [|exact Hs].
  unfold one_track_playing, one_track.
  apply reachable_run, reachable_run, reachable_boot.
Defined.

Lemma no_timers (w : world) :
  holds single w -> owned w ->
  (forall j s, streamer_at j w = Some s -> Streamer.stopped s = true) ->
  timers (snd w) = [].
Proof.
  intros H (_ & Ot & _) Hall.
  destruct (timers (snd w)) as [|t l] eqn:Ht; [reflexivity|].
  assert (Hin : In t (timers (snd w))) by (rewrite Ht; now left).
  specialize (Ot t (or_introl eq_refl)).
  destruct (lookup_lt_is_Some_2 _ _ Ot) as [s Hs].
  destruct (H _ s Hs) as [_ (T & _)].
  destruct (T t Hin eq_refl) as [Hst _].
  rewrite (Hall _ s Hs) in Hst. discriminate.
Qed.

(** X12. [stop()] on a coordinator that plays, in a reachable world:
    the coordinator is stopped and has no anchor, every streamer is
    stopped with neither a timer nor a live request, no timer is pending
    at all, and a second [stop()] changes nothing. *)
Theorem coordinator_stop_all (w : world) :
  reachable w -> StreamCoordinator.stopped (fst w) = false ->
  let w' := step (OnCoordinator CStop) w in
  StreamCoordinator.stopped (fst w') = true /\
  StreamCoordinator.startTime (fst w') = None /\
  (forall j s, streamer_at j w' = Some s ->
     Streamer.stopped s = true /\ idle j s (snd w')) /\
  timers (snd w') = [] /\
  step (OnCoordinator CStop) w' = w'.
Proof.
  intros Hr Hs w'.
  assert (Hr' : reachable w') by now constructor.
  destruct (reachable_sound w Hr) as [Hsound _].
  destruct (reachable_sound w' Hr') as [_ Ho'].
  pose proof (reachable_single w' Hr') as Hsingle.
  assert (Hw' : StreamCoordinator.stopped (fst w') = true /\
                StreamCoordinator.startTime (fst w') = None /\
                Forall (fun s => Streamer.stopped s = true)
                  (StreamCoordinator.streamers (fst w'))).
  { subst w'. destruct w as [c e]. simpl in *.
    pose proof (forEach_stop_all (StreamCoordinator.streamers c) 0 e
                  (sound_ready _ Hsound)) as Hall.
    unfold StreamCoordinator.stop. rewrite Hs.
    destruct (StreamCoordinator.forEach _ 0 _ e) as [res [l e1]].
    simpl in *. auto. }
  destruct Hw' as (Hst & Htime & Hall).
  assert (Hall' : forall j s, streamer_at j w' = Some s ->
                               Streamer.stopped s = true).
  { intros j s Hj. rewrite Forall_lookup in Hall. exact (Hall j s Hj). }
  split; [exact Hst | split; [exact Htime | split; [|split]]].
  - intros j s Hj. split; [now apply (Hall' j s)|].
    apply stopped_idle; [now apply Hsingle | now apply (Hall' j s)].
  - now apply no_timers.
  - destruct w' as [c' e']. simpl in *. unfold StreamCoordinator.stop.
    now rewrite Hst.
Qed.

(** Witness of X12. *)
Lemma coordinator_stop_all_witness :
  timers (snd (step (OnCoordinator CStop) two_tracks_playing)) = [].
Proof.
  apply (coordinator_stop_all two_tracks_playing).
  - unfold two_tracks_playing. apply reachable_run, reachable_boot.
  - reflexivity.
Defined.

(* ================================================================== *)
(** ** Nothing starts by itself *)

Lemma at_streamer_same (i : nat) f (c : StreamCoordinator.t) (e : env) :
  (forall s, StreamCoordinator.streamers c !! i = Some s -> fst (f s e) = s) ->
  fst (StreamCoordinator.at_streamer i f c e) = c.
Proof.
  intros Hf. unfold StreamCoordinator.at_streamer.
  destruct (StreamCoordinator.streamers c !! i) as [s|] eqn:Hs; [|reflexivity].
  specialize (Hf s eq_refl). destruct (f s e) as [s' e']. simpl in *. subst s'.
  rewrite list_insert_id by exact Hs. apply set_streamers_same.
Qed.

Lemma at_streamer_started (i : nat) f (c : StreamCoordinator.t) (e : env) :
  (forall s, StreamCoordinator.streamers c !! i = Some s ->
             ac_started (snd (f s e)) = ac_started e) ->
  ac_started (snd (StreamCoordinator.at_streamer i f c e)) = ac_started e.
Proof.
  intros Hf. unfold StreamCoordinator.at_streamer.
  destruct (StreamCoordinator.streamers c !! i) as [s|] eqn:Hs; [|reflexivity].
  specialize (Hf s eq_refl). now destruct (f s e).
Qed.

Lemma step_at_rest (a : action) (w : world) :
  browser a = true -> at_rest w ->
  at_rest (step a w) /\ ac_started (snd (step a w)) = ac_started (snd w).
Proof.
  destruct w as [c e]. unfold at_rest, streamer_at. cbn [fst snd].
  intros Ha [Hb Hall].
  destruct a as [dt|i m|m|id record|id|id|src]; try discriminate Ha;
    cbn [step].
  - destruct (Qle_bool 0 dt); cbn [fst snd]; auto.
  - unfold resolve. destruct (List.find _ _) as [f|]; [|cbn [fst snd]; auto].
    destruct (f_then f) as [offset|when offset output].
    + pose proof (at_streamer_barriers (f_self f)
                    (Streamer.prime_resume offset record) c (drop_fetch id e)
                    (fun s e' => eq_refl)) as Hb'.
      pose proof (at_streamer_started (f_self f)
                    (Streamer.prime_resume offset record) c (drop_fetch id e)
                    (fun s _ => eq_refl)) as Hst.
      assert (Hl : forall j s',
                 StreamCoordinator.streamers
                   (fst (StreamCoordinator.at_streamer (f_self f)
                           (Streamer.prime_resume offset record) c
                           (drop_fetch id e))) !! j = Some s' ->
                 Streamer.stopped s' = true).
      { intros j s'. unfold StreamCoordinator.at_streamer.
        destruct (StreamCoordinator.streamers c !! f_self f) as [s|] eqn:Hs;
          [|exact (Hall j s')].
        cbn [fst snd StreamCoordinator.streamers StreamCoordinator.set_streamers
             Streamer.prime_resume createBufferSource createNode].
        intros Hj. destruct (decide (f_self f = j)) as [<-|Hne].
        - rewrite list_lookup_insert_eq in Hj by now apply lookup_lt_Some in Hs.
          injection Hj as <-. simpl. exact (Hall _ s Hs).
        - rewrite list_lookup_insert_ne in Hj by exact Hne. exact (Hall j s' Hj). }
      destruct (StreamCoordinator.at_streamer _ _ c _) as [c1 e2].
      cbn [fst snd] in *.
      change (barriers (drop_fetch id e)) with (barriers e) in Hb'.
      change (ac_started (drop_fetch id e)) with (ac_started e) in Hst.
      unfold StreamCoordinator.settle, fulfil. cbn [barriers set_barriers].
      rewrite Hb', Hb. cbn. rewrite Hst. auto.
    + assert (Hsame : forall s,
                 StreamCoordinator.streamers c !! f_self f = Some s ->
                 Streamer.next_then (f_self f) when offset output record s
                   (drop_fetch id e) = (s, drop_fetch id e)).
      { intros s Hs. unfold Streamer.next_then. now rewrite (Hall _ s Hs). }
      rewrite at_streamer_same, at_streamer_started, at_streamer_barriers.
      * cbn [fst snd]. auto.
      * intros. apply next_then_barriers.
      * intros s Hs. now rewrite (Hsame s Hs).
      * intros s Hs. now rewrite (Hsame s Hs).
  - unfold reject. destruct (List.find _ _) as [f|]; [|cbn [fst snd]; auto].
    destruct (f_then f); cbn; rewrite ?Hb; auto.
  - unfold fire. destruct (List.find _ _) as [t|]; [|cbn [fst snd]; auto].
    rewrite at_streamer_same, at_streamer_started, at_streamer_barriers; auto.
  - unfold ended. destruct (List.find _ _) as [[src' self]|];
      [|cbn [fst snd]; auto].
    assert (Hsame : forall s (e' : env),
               StreamCoordinator.streamers c !! self = Some s ->
               Streamer.stop s e' = (s, e')).
    { intros s e' Hs. unfold Streamer.stop. now rewrite (Hall _ s Hs). }
    rewrite at_streamer_same, at_streamer_started, at_streamer_barriers.
    + cbn [fst snd]. auto.
    + intros. apply stop_barriers.
    + intros s Hs. now rewrite (Hsame s _ Hs).
    + intros s Hs. now rewrite (Hsame s _ Hs).
Qed.

(** A world at rest stays at rest through the tasks of the browser, and
    none of them starts a source. *)
Lemma run_at_rest (w : world) (l : list action) :
  at_rest w -> forallb browser l = true ->
  at_rest (run l w) /\ ac_started (snd (run l w)) = ac_started (snd w).
Proof.
  revert w. induction l as [|a l IH]; intros w Hw Hl; [auto|].
  simpl in Hl. apply andb_true_iff in Hl. destruct Hl as [Ha Hl].
  change (run (a :: l) w) with (run l (step a w)).
  destruct (step_at_rest a w Ha Hw) as [H1 H2].
  destruct (IH (step a w) H1 Hl) as [H3 H4].
  split; [exact H3 | congruence].
Qed.

(** X13. While every streamer is stopped and no [Promise.all] is
    pending, nothing the browser does (the clock, answers and failures
    of the store, timers, ended sources) starts a source, makes a
    streamer play or leaves a [Promise.all] pending. *)
Theorem nothing_starts_by_itself (w : world) (l : list action) :
  at_rest w -> forallb browser l = true ->
  at_rest (run l w) /\ ac_started (snd (run l w)) = ac_started (snd w).
Proof.
  intros Hw Hl. exact (run_at_rest w l Hw Hl).
Qed.

(** Witness of X13: a paused track. *)
Lemma nothing_starts_by_itself_witness :
  ac_started (snd (run [Tick 1; Timeout 0; Resolved 1 (Fin 1); Ended 3]
                     paused_at_two))
  = ac_started (snd paused_at_two).
Proof.
  apply (nothing_starts_by_itself paused_at_two
           [Tick 1; Timeout 0; Resolved 1 (Fin 1); Ended 3]).
  - split; [reflexivity|].
    intros j s Hj.
    destruct j as [|j]; vm_compute in Hj;
      [injection Hj as <-; reflexivity | discriminate Hj].
  - reflexivity.
Defined.

(* ================================================================== *)
(** ** The barrier and the tasks of the browser *)


















(* ================================================================== *)
(** ** Starting and seeking *)

Lemma play_fresh (i : nat) (src : bsource) (when o : num) (s : Streamer.t)
    (e : env) :
  idle i s e ->
  let r := Streamer.play i src when o (Streamer.trackNode s) s e in
  Streamer.stopped (fst r) = Streamer.stopped s /\
  Streamer.startOffset (fst r) = Streamer.startOffset s /\
  Streamer.startTime (fst r) = Streamer.startTime s /\
  Streamer.trackNode (fst r) = Streamer.trackNode s /\
  Streamer.duration (fst r) = Streamer.duration s /\
  Streamer.primed (fst r) = Streamer.primed s /\
  ac_currentTime (snd r) = ac_currentTime e /\
  ac_started (snd r) = ac_started e ++ [(src_node src, when)] /\
  (forall f, In f (fetches (snd r)) -> ~ live i (fst r) f) /\
  (forall t, In t (timers (snd r)) -> t_self t = i ->
     t_when t = Num.add when (src_buffer src) /\
     t_offset t = Num.add o (src_buffer src)).
Proof.
  intros [It If]. cbn zeta. unfold Streamer.play, setTimeout.
  match goal with
  | |- context [if Num.ge ?a ?b then _ else _] => destruct (Num.ge a b)
  end; cbn [fst snd]; repeat (split; [reflexivity|]); split.
  - intros f Hin. exact (If f Hin).
  - intros t Hin Hself. now destruct (It t Hin).
  - intros f Hin. exact (If f Hin).
  - intros t Hin Hself. cbn in Hin. apply in_app_iff in Hin.
    destruct Hin as [Hin|[<-|[]]]; [now destruct (It t Hin)|].
    split; reflexivity.
Qed.

Lemma next_fresh (i : nat) (when o : num) (s : Streamer.t) (e : env) :
  idle i s e ->
  let e' := Streamer.next i when o (Streamer.trackNode s) s e in
  ac_currentTime e' = ac_currentTime e /\
  ac_started e' = ac_started e /\
  (forall f, In f (fetches e') -> live i s f ->
     f_offset f = o /\
     f_duration f = Streamer.chunk_duration s o /\
     f_then f = NextK when o (Streamer.trackNode s)) /\
  (forall t, In t (timers e') -> t_self t <> i).
Proof.
  intros [It If]. cbn zeta. unfold Streamer.next, getAudioBuffer.
  cbn [fst snd]. repeat (split; [reflexivity|]). split.
  - intros f Hin Hl. cbn in Hin. apply in_app_iff in Hin.
    destruct Hin as [Hin|[<-|[]]]; [now destruct (If f Hin)|].
    repeat split.
  - intros t Hin. exact (It t Hin).
Qed.

(** What [stream( offset )] makes of a streamer that is loaded, stopped
    and has nothing under way, [offset] being before its end. *)
Lemma stream_fresh (i : nat) (offset : option num) (s : Streamer.t) (e : env) :
  Streamer.ready s = true -> Streamer.stopped s = true ->
  Num.ge (Streamer.default_offset offset s)
    (Num.of_optional (Streamer.duration s)) = false ->
  idle i s e ->
  let o := Streamer.default_offset offset s in
  let r := snd (Streamer.stream i offset s e) in
  Streamer.stopped (fst r) = false /\
  Streamer.startOffset (fst r) = Some o /\
  Streamer.startTime (fst r) = Streamer.startTime s /\
  Streamer.trackNode (fst r) = Streamer.trackNode s /\
  Streamer.duration (fst r) = Streamer.duration s /\
  Streamer.primed (fst r) = None /\
  ac_currentTime (snd r) = ac_currentTime e /\
  (forall f, In f (fetches (snd r)) -> live i (fst r) f ->
     f_offset f = o /\
     f_duration f = Streamer.chunk_duration (fst r) o /\
     f_then f = NextK Num.zero o (Streamer.trackNode (fst r))) /\
  (forall t, In t (timers (snd r)) -> t_self t = i ->
     exists at_offset src,
       Streamer.primed s = Some (at_offset, src) /\
       Num.seq at_offset o = true /\
       In (src_node src, now e) (ac_started (snd r)) /\
       t_when t = Num.add (now e) (src_buffer src) /\
       t_offset t = Num.add o (src_buffer src)).
Proof.
  intros Hr Hs Hge Hidle. cbn zeta. unfold Streamer.stream.
  rewrite Hr, Hs. cbn [negb].
  set (o := Streamer.default_offset offset s) in *.
  set (w1 := match Streamer.ending s with Some _ => _ | None => _ end).
  assert (H1 : idle i (fst w1) (snd w1) /\
               ac_currentTime (snd w1) = ac_currentTime e /\
               Streamer.trackNode (fst w1) = Streamer.trackNode s /\
               Streamer.duration (fst w1) = Streamer.duration s /\
               Streamer.startTime (fst w1) = Streamer.startTime s /\
               Streamer.primed (fst w1) = Streamer.primed s).
  { subst w1. destruct (Streamer.ending s); cbn [fst snd]; auto 10. }
  destruct w1 as [s1 e1]. cbn [fst snd] in H1.
  destruct H1 as (Hi1 & Hc1 & Hn1 & Hd1 & Hst1 & Hp1).
  rewrite Hd1, Hge.
  set (w2 := if Streamer.garbageBuffer s1 then _ else _).
  assert (H2 : idle i (fst w2) (snd w2) /\
               ac_currentTime (snd w2) = ac_currentTime e /\
               Streamer.trackNode (fst w2) = Streamer.trackNode s /\
               Streamer.duration (fst w2) = Streamer.duration s /\
               Streamer.startTime (fst w2) = Streamer.startTime s /\
               Streamer.primed (fst w2) = Streamer.primed s).
  { subst w2. destruct (Streamer.garbageBuffer s1); cbn [fst snd]; auto 10. }
  destruct w2 as [s2 e2]. cbn [fst snd] in H2.
  destruct H2 as (Hi2 & Hc2 & Hn2 & Hd2 & Hst2 & Hp2).
  set (s4 := Streamer.set_primed None
               (Streamer.set_startOffset (Some o)
                  (Streamer.set_stopped false s2))).
  assert (Hi4 : idle i s4 e2) by (apply idle_record with (s := s2); auto).
  cbn [Streamer.primed Streamer.set_startOffset Streamer.set_stopped].
  change (Streamer.trackNode s2) with (Streamer.trackNode s4).
  pose proof (next_fresh i Num.zero o s4 e2 Hi4) as Hnext.
  cbn zeta in Hnext. destruct Hnext as (Nc & Ns & Nf & Nt).
  assert (Hnx : let r := (s4, Streamer.next i Num.zero o
                                 (Streamer.trackNode s4) s4 e2) in
    Streamer.stopped (fst r) = false /\
    Streamer.startOffset (fst r) = Some o /\
    Streamer.startTime (fst r) = Streamer.startTime s /\
    Streamer.trackNode (fst r) = Streamer.trackNode s /\
    Streamer.duration (fst r) = Streamer.duration s /\
    Streamer.primed (fst r) = None /\
    ac_currentTime (snd r) = ac_currentTime e /\
    (forall f, In f (fetches (snd r)) -> live i (fst r) f ->
       f_offset f = o /\
       f_duration f = Streamer.chunk_duration (fst r) o /\
       f_then f = NextK Num.zero o (Streamer.trackNode (fst r))) /\
    (forall t, In t (timers (snd r)) -> t_self t = i ->
       exists at_offset src,
         Streamer.primed s = Some (at_offset, src) /\
         Num.seq at_offset o = true /\
         In (src_node src, now e) (ac_started (snd r)) /\
         t_when t = Num.add (now e) (src_buffer src) /\
         t_offset t = Num.add o (src_buffer src))).
  { cbn zeta. cbn [fst snd].
    split; [reflexivity|]. split; [reflexivity|].
    split; [exact Hst2|]. split; [exact Hn2|]. split; [exact Hd2|].
    split; [reflexivity|]. split; [congruence|]. split; [exact Nf|].
    intros t Hin Hself. now destruct (Nt t Hin). }
  cbn zeta in Hnx.
  destruct (Streamer.primed s2) as [[at_offset src]|] eqn:Hprimed;
    [|exact Hnx].
  destruct (Num.seq at_offset o) eqn:Hseq; [|exact Hnx].
  cbn [fst snd].
  pose proof (play_fresh i src (now e2) o s4 e2 Hi4) as Hplay.
  cbn zeta in Hplay.
  destruct Hplay as (P1 & P2 & P3 & P4 & P5 & P6 & P7 & P8 & P9 & P10).
  split; [now rewrite P1|]. split; [now rewrite P2|].
  split; [rewrite P3; exact Hst2|]. split; [rewrite P4; exact Hn2|].
  split; [rewrite P5; exact Hd2|]. split; [now rewrite P6|].
  split; [congruence|]. split.
  - intros f Hin Hl. now destruct (P9 f Hin).
  - intros t Hin Hself. destruct (P10 t Hin Hself) as [Hw Ho].
    exists at_offset, src. rewrite <- Hp2.
    assert (Hnow : now e2 = now e) by (unfold now; now rewrite Hc2).
    rewrite <- Hnow. repeat split; auto.
    rewrite P8. apply in_app_iff. right. now left.
Qed.

Lemma step_on_streamer (i : nat) (m : method) (w : world) (s : Streamer.t) :
  streamer_at i w = Some s ->
  streamer_at i (step (OnStreamer i m) w) = Some (fst (call i m s (snd w))) /\
  snd (step (OnStreamer i m) w) = snd (call i m s (snd w)).
Proof.
  destruct w as [c e]. unfold streamer_at. cbn [fst snd step]. intros Hs.
  unfold StreamCoordinator.at_streamer. rewrite Hs.
  destruct (call i m s e) as [s' e']. cbn [fst snd StreamCoordinator.streamers
    StreamCoordinator.set_streamers].
  split; [|reflexivity].
  apply list_lookup_insert_eq. now apply lookup_lt_Some in Hs.
Qed.

(** X14. [stream( offset )] on a loaded, stopped streamer of a reachable
    world, the offset (given, or else the cursor, or else 0) being
    before the end: the streamer plays with its cursor at the offset and
    the same output node; every live request of it is the request of
    the window at the offset; and a timer of it is pending only if the
    chunk primed at that offset was started at once, and is then the
    timer for the chunk that follows it. *)
Theorem stream_starts_at (w : world) (i : nat) (s : Streamer.t)
    (offset : option num) :
  reachable w -> streamer_at i w = Some s ->
  Streamer.ready s = true -> Streamer.stopped s = true ->
  Num.ge (Streamer.default_offset offset s)
    (Num.of_optional (Streamer.duration s)) = false ->
  let o := Streamer.default_offset offset s in
  let w' := step (OnStreamer i (Stream offset)) w in
  exists s',
    streamer_at i w' = Some s' /\
    Streamer.stopped s' = false /\
    Streamer.startOffset s' = Some o /\
    Streamer.trackNode s' = Streamer.trackNode s /\
    (forall f, In f (fetches (snd w')) -> live i s' f ->
       f_offset f = o /\
       f_duration f = Streamer.chunk_duration s' o /\
       f_then f = NextK Num.zero o (Streamer.trackNode s')) /\
    (forall t, In t (timers (snd w')) -> t_self t = i ->
       exists at_offset src,
         Streamer.primed s = Some (at_offset, src) /\
         Num.seq at_offset o = true /\
         In (src_node src, now (snd w)) (ac_started (snd w')) /\
         t_when t = Num.add (now (snd w)) (src_buffer src) /\
         t_offset t = Num.add o (src_buffer src)).
Proof.
  intros Hr Hi Hrd Hst Hge o w'.
  pose proof (reachable_single w Hr i s Hi) as Hsingle.
  pose proof (stopped_idle i s (snd w) Hsingle Hst) as Hidle.
  destruct (step_on_streamer i (Stream offset) w s Hi) as [Hs' He'].
  fold w' in Hs', He'. cbn [call] in Hs', He'.
  destruct (stream_fresh i offset s (snd w) Hrd Hst Hge Hidle)
    as (A & B & _ & C & _ & _ & _ & D & E).
  eexists. split; [exact Hs'|]. rewrite He'.
  split; [exact A|]. split; [exact B|]. split; [exact C|].
  split; [exact D | exact E].
Qed.

(** Witness of X14. *)
Lemma stream_starts_at_witness :
  exists s', streamer_at 0 (step (OnStreamer 0 (Stream (Some (Fin 2)))) one_track)
             = Some s' /\
             Streamer.stopped s' = false /\
             Streamer.startOffset s' = Some (Fin 2).
Proof.
  destruct (lookup_lt_is_Some_2
              (StreamCoordinator.streamers (fst one_track)) 0)
    as [s Hs]; [vm_compute; lia|].
  destruct (stream_starts_at one_track 0 s (Some (Fin 2)))
    as (s' & A & B & C & _).
  - unfold one_track. apply reachable_run, reachable_boot.
  - exact Hs.
  - vm_compute in Hs. injection Hs as <-. reflexivity.
  - vm_compute in Hs. injection Hs as <-. reflexivity.
  - vm_compute in Hs. injection Hs as <-. reflexivity.
  - exists s'. auto.
Defined.

(** [stop()] on a loaded streamer that plays. *)
Lemma stop_playing (s : Streamer.t) (e : env) :
  Streamer.ready s = true -> Streamer.stopped s = false ->
  let r := Streamer.stop s e in
  Streamer.ready (fst r) = true /\
  Streamer.stopped (fst r) = true /\
  Streamer.trackNode (fst r) = ac_nodes e /\
  Streamer.duration (fst r) = Streamer.duration s /\
  Streamer.primed (fst r) = Streamer.primed s /\
  Streamer.startTime (fst r) = None /\
  ac_currentTime (snd r) = ac_currentTime e /\
  ac_started (snd r) = ac_started e.
Proof.
  intros Hr Hs. cbn zeta. unfold Streamer.stop, clearTimeout.
  rewrite Hr, Hs. cbn [orb negb fst snd].
  destruct (Streamer.fetchtimer s); cbn; auto 10.
Qed.

(** X15. [seek( x )] on a playing streamer of a reachable world, [x]
    being before the end: the streamer plays with its cursor at [x] and
    a new output node; every live request of it is for the window at
    [x], and a timer of it is pending only for the chunk that follows
    the chunk primed at [x]. Nothing live is left of the playback before
    the seek. *)
Theorem seek_restarts (w : world) (i : nat) (s : Streamer.t) (x : num) :
  reachable w -> streamer_at i w = Some s ->
  Streamer.stopped s = false ->
  Num.ge x (Num.of_optional (Streamer.duration s)) = false ->
  let w' := step (OnStreamer i (Seek x)) w in
  exists s',
    streamer_at i w' = Some s' /\
    Streamer.stopped s' = false /\
    Streamer.startOffset s' = Some x /\
    Streamer.trackNode s' = ac_nodes (snd w) /\
    (forall f, In f (fetches (snd w')) -> live i s' f ->
       f_offset f = x /\
       f_duration f = Streamer.chunk_duration s' x /\
       f_then f = NextK Num.zero x (Streamer.trackNode s')) /\
    (forall t, In t (timers (snd w')) -> t_self t = i ->
       exists at_offset src,
         Streamer.primed s = Some (at_offset, src) /\
         Num.seq at_offset x = true /\
         In (src_node src, now (snd w)) (ac_started (snd w')) /\
         t_when t = Num.add (now (snd w)) (src_buffer src) /\
         t_offset t = Num.add x (src_buffer src)).
Proof.
  intros Hr Hi Hst Hge w'.
  pose proof (reachable_single w Hr i s Hi) as Hsingle.
  assert (Hrd : Streamer.ready s = true).
  { destruct Hsingle as [(_ & Hrd & _) _]. now apply Hrd. }
  destruct (step_on_streamer i (Seek x) w s Hi) as [Hs' He'].
  fold w' in Hs', He'. cbn [call] in Hs', He'.
  unfold Streamer.seek in Hs', He'. rewrite Hst in Hs', He'.
  cbn [negb] in Hs', He'.
  pose proof (stop_single i s (snd w) Hsingle) as H1.
  destruct (stop_playing s (snd w) Hrd Hst)
    as (Sr & Ss & St & Sd & Sp & _ & Sc & _).
  destruct (Streamer.stop s (snd w)) as [s1 e1]. cbn [fst snd] in *.
  pose proof (stopped_idle i s1 e1 H1 Ss) as Hidle.
  assert (Hge1 : Num.ge (Streamer.default_offset (Some x) s1)
                   (Num.of_optional (Streamer.duration s1)) = false).
  { cbn [Streamer.default_offset]. now rewrite Sd. }
  destruct (stream_fresh i (Some x) s1 e1 Sr Ss Hge1 Hidle)
    as (A & B & _ & C & _ & _ & _ & D & E).
  cbn [Streamer.default_offset] in *.
  eexists. split; [exact Hs'|]. rewrite He'.
  split; [exact A|]. split; [exact B|]. split; [now rewrite C|].
  split; [exact D|].
  intros t Hin Hself. destruct (E t Hin Hself) as (ao & src & E1 & E2 & E3 & E4 & E5).
  assert (Hnow : now e1 = now (snd w)) by (unfold now; now rewrite Sc).
  exists ao, src. rewrite <- Sp, <- Hnow. auto 10.
Qed.

(** Witness of X15. *)
Lemma seek_restarts_witness :
  exists s', streamer_at 0 (step (OnStreamer 0 (Seek (Fin 3))) one_track_playing)
             = Some s' /\
             Streamer.stopped s' = false /\
             Streamer.startOffset s' = Some (Fin 3).
Proof.
  destruct (lookup_lt_is_Some_2
              (StreamCoordinator.streamers (fst one_track_playing)) 0)
    as [s Hs]; [vm_compute; lia|].
  destruct (seek_restarts one_track_playing 0 s (Fin 3))
    as (s' & A & B & C & _).
  - unfold one_track_playing, one_track.
    apply reachable_run, reachable_run, reachable_boot.
  - exact Hs.
  - vm_compute in Hs. injection Hs as <-. reflexivity.
  - vm_compute in Hs. injection Hs as <-. reflexivity.
  - exists s'. auto.
Defined.

(** X16. [seek( x )] on a loaded, playing streamer with [x] at or beyond
    the end only stops it: the cursor is where [stop()] leaves it, not
    at [x]; nothing is started or requested, and the timers are those
    [stop()] leaves. *)
Theorem seek_past_end (i : nat) (x : num) (s : Streamer.t) (e : env) :
  Streamer.ready s = true -> Streamer.stopped s = false ->
  Num.ge x (Num.of_optional (Streamer.duration s)) = true ->
  let r := Streamer.seek i x s e in
  fst r = Ok tt /\
  Streamer.stopped (fst (snd r)) = true /\
  Streamer.startOffset (fst (snd r))
  = Streamer.startOffset (fst (Streamer.stop s e)) /\
  Streamer.trackNode (fst (snd r)) = ac_nodes e /\
  ac_started (snd (snd r)) = ac_started e /\
  fetches (snd (snd r)) = fetches e /\
  timers (snd (snd r)) = timers (snd (Streamer.stop s e)).
Proof.
  intros Hr Hs Hge. cbn zeta. unfold Streamer.seek. rewrite Hs. cbn [negb].
  destruct (stop_playing s e Hr Hs) as (Sr & Ss & St & Sd & _ & _ & _ & Sa).
  pose proof (stop_fetches s e) as Sf.
  destruct (Streamer.stop s e) as [s1 e1]. cbn [fst snd] in *.
  unfold Streamer.stream. rewrite Sr, Ss. cbn [negb Streamer.default_offset].
  set (w1 := match Streamer.ending s1 with Some _ => _ | None => _ end).
  assert (H1 : Streamer.stopped (fst w1) = true /\
               Streamer.duration (fst w1) = Streamer.duration s /\
               Streamer.startOffset (fst w1) = Streamer.startOffset s1 /\
               Streamer.trackNode (fst w1) = ac_nodes e /\
               ac_started (snd w1) = ac_started e /\
               fetches (snd w1) = fetches e /\
               timers (snd w1) = timers e1).
  { subst w1. destruct (Streamer.ending s1); cbn [fst snd]; auto 10. }
  destruct w1 as [s2 e2]. cbn [fst snd] in H1.
  destruct H1 as (A & B & C & D & E & F & G).
  rewrite B, Hge. unfold Streamer.stop. rewrite A. cbn [orb fst snd]. auto 10.
Qed.

(** Witness of X16: a seek to seven seconds in a track of five. *)
Lemma seek_past_end_witness :
  exists s, streamer_at 0 one_track_playing = Some s /\
    Streamer.stopped
      (fst (snd (Streamer.seek 0 (Fin 7) s (snd one_track_playing)))) = true.
Proof.
  destruct (lookup_lt_is_Some_2
              (StreamCoordinator.streamers (fst one_track_playing)) 0)
    as [s Hs]; [vm_compute; lia|].
  exists s. split; [exact Hs|].
  apply (seek_past_end 0 (Fin 7) s (snd one_track_playing)).
  - vm_compute in Hs. injection Hs as <-. reflexivity.
  - vm_compute in Hs. injection Hs as <-. reflexivity.
  - vm_compute in Hs. injection Hs as <-. reflexivity.
Defined.

Lemma run_ticks (dts : list Q) (c : StreamCoordinator.t) (e : env) :
  exists t, run (map Tick dts) (c, e) = (c, set_ac_currentTime t e).
Proof.
  revert e. induction dts as [|dt dts IH]; intros e.
  - exists (ac_currentTime e). now destruct e.
  - change (run (map Tick (dt :: dts)) (c, e))
      with (run (map Tick dts) (step (Tick dt) (c, e))).
    cbn [step]. destruct (Qle_bool 0 dt).
    + destruct (IH (set_ac_currentTime (ac_currentTime e + dt) e)) as [t Ht].
      exists t. rewrite Ht. reflexivity.
    + apply IH.
Qed.

(** X17. After [stream( q )] on a loaded, stopped streamer of a
    reachable world, [q] being before the end, [currentTime()] returns
    [q], also when the device clock has advanced meanwhile: the position
    does not move before a chunk is scheduled by an answer of the store. *)
Theorem currentTime_after_stream (w : world) (i : nat) (s : Streamer.t)
    (q : Q) (dts : list Q) :
  reachable w -> streamer_at i w = Some s ->
  Streamer.ready s = true -> Streamer.stopped s = true ->
  Num.ge (Fin q) (Num.of_optional (Streamer.duration s)) = false ->
  let w' := run (OnStreamer i (Stream (Some (Fin q))) :: map Tick dts) w in
  exists s' x,
    streamer_at i w' = Some s' /\
    Streamer.currentTime s' (snd w') = Some (Fin x) /\ (x == q)%Q.
Proof.
  intros Hr Hi Hrd Hst Hge w'.
  pose proof (reachable_single w Hr i s Hi) as Hsingle.
  pose proof (stopped_idle i s (snd w) Hsingle Hst) as Hidle.
  pose proof (reachable_anchored w Hr i s Hi Hst) as Hanchor.
  destruct (step_on_streamer i (Stream (Some (Fin q))) w s Hi) as [Hs' _].
  cbn [call] in Hs'.
  destruct (stream_fresh i (Some (Fin q)) s (snd w) Hrd Hst Hge Hidle)
    as (A & B & C & _).
  cbn [Streamer.default_offset] in B.
  set (s1 := fst (snd (Streamer.stream i (Some (Fin q)) s (snd w)))) in *.
  subst w'.
  change (run (OnStreamer i (Stream (Some (Fin q))) :: map Tick dts) w)
    with (run (map Tick dts) (step (OnStreamer i (Stream (Some (Fin q)))) w)).
  destruct (step (OnStreamer i (Stream (Some (Fin q)))) w) as [c1 e1].
  destruct (run_ticks dts c1 e1) as [t ->].
  unfold streamer_at in *. cbn [fst snd] in *.
  exists s1. unfold Streamer.currentTime. rewrite A, B, C, Hanchor.
  cbn [Num.or_else Num.truthy now ac_currentTime set_ac_currentTime].
  destruct (Qeq_bool q 0) eqn:Hq; cbn [negb Num.sub Num.add Num.neg Num.zero].
  - apply Qeq_bool_iff in Hq. eexists. split; [exact Hs'|].
    split; [reflexivity|]. lra.
  - eexists. split; [exact Hs'|]. split; [reflexivity|]. lra.
Qed.

(** Witness of X17. *)
Lemma currentTime_after_stream_witness :
  exists s' x,
    streamer_at 0
      (run (OnStreamer 0 (Stream (Some (Fin 2))) :: map Tick [1; 0.5]%Q)
         one_track) = Some s' /\
    Streamer.currentTime s'
      (snd (run (OnStreamer 0 (Stream (Some (Fin 2))) :: map Tick [1; 0.5]%Q)
              one_track)) = Some (Fin x) /\ (x == 2)%Q.
Proof.
  destruct (lookup_lt_is_Some_2
              (StreamCoordinator.streamers (fst one_track)) 0)
    as [s Hs]; [vm_compute; lia|].
  apply (currentTime_after_stream one_track 0 s 2 [1; 0.5]%Q).
  - unfold one_track. apply reachable_run, reachable_boot.
  - exact Hs.
  - vm_compute in Hs. injection Hs as <-. reflexivity.
  - vm_compute in Hs. injection Hs as <-. reflexivity.
  - vm_compute in Hs. injection Hs as <-. reflexivity.
Defined.

(** X18. [stream( offset )] on a loaded, stopped streamer that holds a
    primed chunk, the offset being before the end, always drops the
    primed chunk from the streamer. If it was primed at the offset, its
    source is connected to the output node and started at the present
    device time, and no request is made; if not, the chunk is not used
    and the window at the offset is requested. *)
Theorem primed_chunk (i : nat) (offset : option num) (s : Streamer.t)
    (e : env) (at_offset : num) (src : bsource) :
  Streamer.ready s = true -> Streamer.stopped s = true ->
  Num.ge (Streamer.default_offset offset s)
    (Num.of_optional (Streamer.duration s)) = false ->
  Streamer.primed s = Some (at_offset, src) ->
  let o := Streamer.default_offset offset s in
  let r := snd (Streamer.stream i offset s e) in
  Streamer.primed (fst r) = None /\
  (Num.seq at_offset o = true ->
   fetches (snd r) = fetches e /\
   In (src_node src, now e) (ac_started (snd r)) /\
   In (src_node src, Streamer.trackNode s) (ac_edges (snd r))) /\
  (Num.seq at_offset o = false ->
   fetches (snd r)
   = fetches e ++ [{| f_id := fetch_next e; f_self := i;
                      f_name := Streamer.name s; f_offset := o;
                      f_duration := Streamer.chunk_duration s o;
                      f_then := NextK Num.zero o (Streamer.trackNode s) |}]).
Proof.
  intros Hr Hs Hge Hp. cbn zeta. unfold Streamer.stream.
  rewrite Hr, Hs. cbn [negb].
  set (o := Streamer.default_offset offset s) in *.
  set (w1 := match Streamer.ending s with Some _ => _ | None => _ end).
  assert (H1 : fetches (snd w1) = fetches e /\
               fetch_next (snd w1) = fetch_next e /\
               ac_currentTime (snd w1) = ac_currentTime e /\
               Streamer.trackNode (fst w1) = Streamer.trackNode s /\
               Streamer.duration (fst w1) = Streamer.duration s /\
               Streamer.name (fst w1) = Streamer.name s /\
               Streamer.primed (fst w1) = Streamer.primed s).
  { subst w1. destruct (Streamer.ending s); cbn [fst snd]; auto 10. }
  destruct w1 as [s1 e1]. cbn [fst snd] in H1.
  destruct H1 as (Hf1 & Hk1 & Hc1 & Hn1 & Hd1 & Hm1 & Hp1).
  rewrite Hd1, Hge.
  set (w2 := if Streamer.garbageBuffer s1 then _ else _).
  assert (H2 : fetches (snd w2) = fetches e /\
               fetch_next (snd w2) = fetch_next e /\
               ac_currentTime (snd w2) = ac_currentTime e /\
               Streamer.trackNode (fst w2) = Streamer.trackNode s /\
               Streamer.duration (fst w2) = Streamer.duration s /\
               Streamer.name (fst w2) = Streamer.name s /\
               Streamer.primed (fst w2) = Streamer.primed s).
  { subst w2. destruct (Streamer.garbageBuffer s1); cbn [fst snd]; auto 10. }
  destruct w2 as [s2 e2]. cbn [fst snd] in H2.
  destruct H2 as (Hf2 & Hk2 & Hc2 & Hn2 & Hd2 & Hm2 & Hp2).
  cbn [Streamer.primed Streamer.set_startOffset Streamer.set_stopped].
  rewrite Hp2, Hp.
  destruct (Num.seq at_offset o) eqn:Hseq; cbn [fst snd].
  - unfold Streamer.play, setTimeout.
    match goal with
    | |- context [if Num.ge ?x ?y then _ else _] => destruct (Num.ge x y)
    end; cbn [fst snd]; (split; [reflexivity|]);
      (split; [intros _ | intros H; discriminate H]); cbn;
      (split; [exact Hf2|]).
    all: assert (Hnow : now e2 = now e) by (unfold now; now rewrite Hc2).
    all: rewrite <- Hnow, <- Hn2.
    all: split; apply in_app_iff; right; now left.
  - split; [reflexivity|]. split; [intros H; discriminate H | intros _].
    unfold Streamer.next, getAudioBuffer. cbn.
    unfold Streamer.chunk_duration. cbn. now rewrite Hf2, Hk2, Hm2, Hn2, Hd2.
Qed.

(** Witness of X18: a chunk primed at two seconds, and a start at
    three. *)
Lemma primed_chunk_witness :
  fetches (snd (snd (Streamer.stream 0 (Some (Fin 3)) primed_streamer env0)))
  = fetches env0
    ++ [{| f_id := fetch_next env0; f_self := 0;
           f_name := Streamer.name primed_streamer;
           f_offset := Streamer.default_offset (Some (Fin 3)) primed_streamer;
           f_duration :=
             Streamer.chunk_duration primed_streamer
               (Streamer.default_offset (Some (Fin 3)) primed_streamer);
           f_then :=
             NextK Num.zero
               (Streamer.default_offset (Some (Fin 3)) primed_streamer)
               (Streamer.trackNode primed_streamer) |}].
Proof.
  apply (primed_chunk 0 (Some (Fin 3)) primed_streamer env0 (Fin 2)
           {| src_node := 9; src_buffer := Fin 1 |});
    reflexivity.
Defined.

(** X19. [stop()] on a playing streamer of a reachable world replaces
    the output node: the new node is one that did not exist, it is
    connected to the gain node, which stays, and no connection leaves
    the old node any more; [getNode] returns the new node from then on. *)
Theorem stop_replaces_output (w : world) (i : nat) (s : Streamer.t) :
  reachable w -> streamer_at i w = Some s -> Streamer.stopped s = false ->
  let w' := step (OnStreamer i Stop) w in
  exists s',
    streamer_at i w' = Some s' /\
    Streamer.stopped s' = true /\
    Streamer.trackNode s' = ac_nodes (snd w) /\
    Streamer.trackNode s' <> Streamer.trackNode s /\
    Streamer.gain s' = Streamer.gain s /\
    In (Streamer.trackNode s', Streamer.gain s') (ac_edges (snd w')) /\
    (forall b, ~ In (Streamer.trackNode s, b) (ac_edges (snd w'))) /\
    StreamCoordinator.getNode (Streamer.streamID s) (fst w') (snd w')
    = (Ok (Streamer.trackNode s'), snd w').
Proof.
  intros Hr Hi Hst w'.
  destruct (reachable_sound w Hr) as [Hsound _].
  destruct (Hsound i s Hi) as (Hn & Hrd & _). specialize (Hrd Hst).
  assert (Hr' : reachable w') by now constructor.
  destruct (step_on_streamer i Stop w s Hi) as [Hs' He'].
  fold w' in Hs', He'. cbn [call] in Hs', He'.
  assert (Hstop : let r := Streamer.stop s (snd w) in
            Streamer.stopped (fst r) = true /\
            Streamer.trackNode (fst r) = ac_nodes (snd w) /\
            Streamer.gain (fst r) = Streamer.gain s /\
            Streamer.streamID (fst r) = Streamer.streamID s /\
            In (ac_nodes (snd w), Streamer.gain s) (ac_edges (snd r)) /\
            (forall b, ~ In (Streamer.trackNode s, b) (ac_edges (snd r)))).
  { cbn zeta. unfold Streamer.stop, clearTimeout. rewrite Hrd, Hst.
    cbn [orb negb fst snd].
    destruct (Streamer.fetchtimer s); repeat (split; [reflexivity|]); cbn.
    all: split; [apply in_app_iff; right; now left|].
    all: intros b Hin; apply in_app_iff in Hin;
      destruct Hin as [Hin|[Heq|[]]];
      [apply filter_In in Hin; destruct Hin as [_ Hne]; cbn in Hne;
       rewrite Nat.eqb_refl in Hne; discriminate
      |injection Heq as Heq _; lia]. }
  cbn zeta in Hstop. destruct Hstop as (A & B & C & D & E & F).
  pose proof (find_roster w' i _ (reachable_roster w' Hr') Hs') as Hfind.
  clearbody w'. destruct w' as [c' e']. unfold streamer_at in Hs'.
  cbn [fst snd] in *. subst e'.
  eexists. split; [exact Hs'|].
  split; [exact A|]. split; [exact B|]. split; [rewrite B; lia|].
  split; [exact C|]. split; [rewrite B, C; exact E|]. split; [exact F|].
  unfold StreamCoordinator.getNode, StreamCoordinator.findStreamer.
  rewrite <- D, Hfind. now rewrite Hs'.
Qed.

(** Witness of X19. *)
Lemma stop_replaces_output_witness :
  exists s s', streamer_at 0 one_track_playing = Some s /\
    streamer_at 0 (step (OnStreamer 0 Stop) one_track_playing) = Some s' /\
    Streamer.trackNode s' <> Streamer.trackNode s.
Proof.
  destruct (lookup_lt_is_Some_2
              (StreamCoordinator.streamers (fst one_track_playing)) 0)
    as [s Hs]; [vm_compute; lia|].
  destruct (stop_replaces_output one_track_playing 0 s)
    as (s' & A & _ & _ & B & _).
  - unfold one_track_playing, one_track.
    apply reachable_run, reachable_run, reachable_boot.
  - exact Hs.
  - vm_compute in Hs. injection Hs as <-. reflexivity.
  - exists s, s'. auto.
Defined.

(* ================================================================== *)
(** ** The scheduling loop *)

(** X20. When the store fails a live request of [next], the failure is
    logged and nothing else changes: the streamer is as it was, nothing
    is started, and neither a timer nor a live request of the streamer
    is left, so that nothing more is scheduled for it. *)
Theorem failed_chunk_stalls (w : world) (f : fetch) (s : Streamer.t)
    (when offset : num) :
  reachable w ->
  List.find (has_id (f_id f)) (fetches (snd w)) = Some f ->
  f_then f = NextK when offset (Streamer.trackNode s) ->
  streamer_at (f_self f) w = Some s ->
  let w' := step (Rejected (f_id f)) w in
  fst w' = fst w /\
  console (snd w') = console (snd w) ++ [f_id f] /\
  ac_started (snd w') = ac_started (snd w) /\
  idle (f_self f) s (snd w').
Proof.
  intros Hr Hfind Hk Hs w'.
  destruct (reachable_single w Hr _ s Hs) as [_ (T & X1 & X2)].
  assert (Hin : In f (fetches (snd w))) by (apply find_some in Hfind; tauto).
  assert (Hl : live (f_self f) s f) by (split; eauto).
  subst w'. destruct w as [c e]. cbn [fst snd step] in *.
  unfold reject. rewrite Hfind, Hk. cbn [fst snd].
  split; [reflexivity|]. split; [reflexivity|]. split; [reflexivity|].
  split.
  - intros t Hint Hself. cbn in Hint. now apply (X1 t f Hint Hself Hin).
  - intros f' Hin' Hl'. cbn in Hin'.
    apply filter_In in Hin'. destruct Hin' as [Hin' Hid'].
    pose proof (X2 f f' Hin Hin' Hl Hl') as Heq.
    unfold has_id in Hid'. rewrite <- Heq, Nat.eqb_refl in Hid'. discriminate.
Qed.

(** Witness of X20: the first request of a track fails. *)
Lemma failed_chunk_stalls_witness :
  console (snd (step (Rejected 0) one_track_waiting))
  = console (snd one_track_waiting) ++ [0].
Proof.
  destruct (lookup_lt_is_Some_2
              (StreamCoordinator.streamers (fst one_track_waiting)) 0)
    as [s Hs]; [vm_compute; lia|].
  apply (failed_chunk_stalls one_track_waiting first_request s (Fin 0) (Fin 0)).
  - unfold one_track_waiting, one_track.
    apply reachable_run, reachable_run, reachable_boot.
  - reflexivity.
  - vm_compute in Hs. injection Hs as <-. reflexivity.
  - exact Hs.
Defined.

Lemma next_then_starts (i : nat) (a : Q) (o record : num) (s : Streamer.t)
    (e : env) :
  Streamer.stopped s = false -> ~ (a == 0)%Q ->
  let r := Streamer.next_then i (Fin a) o (Streamer.trackNode s) record s e in
  ac_started (snd r) = ac_started e ++ [(ac_nodes e, Fin a)] /\
  In (ac_nodes e, Streamer.trackNode s) (ac_edges (snd r)).
Proof.
  intros Hs Ha. cbn zeta. unfold Streamer.next_then.
  rewrite Hs, Nat.eqb_refl. cbn [orb negb].
  unfold createBufferSource, createNode.
  assert (Hz : Num.seq (Fin a) Num.zero = false).
  { cbn. destruct (Qeq_bool a 0) eqn:Hq; [|reflexivity].
    apply Qeq_bool_iff in Hq. contradiction. }
  rewrite Hz. unfold Streamer.play, setTimeout.
  match goal with
  | |- context [if Num.ge ?x ?y then _ else _] => destruct (Num.ge x y)
  end; cbn [fst snd]; cbn; split; try reflexivity.
  all: apply in_app_iff; right; now left.
Qed.

(** X21. When the timer of a streamer fires, the window at the offset
    the timer carries is requested; when the store answers, however
    much later, the chunk is connected to the output node and started
    at the device time the timer carries, which [play] had set to the
    end of the chunk before. *)
Theorem chunks_abut :
  (forall i src when o output s e,
      Num.ge (Num.add o (src_buffer src))
        (Num.of_optional (Streamer.duration s)) = false ->
      exists t,
        timers (snd (Streamer.play i src when o output s e))
        = timers e ++ [t] /\
        t_self t = i /\ t_output t = output /\
        t_when t = Num.add when (src_buffer src) /\
        t_offset t = Num.add o (src_buffer src)) /\
  (forall w t s record a dts,
      reachable w ->
      List.find (fun t' => Nat.eqb (t_id t') (t_id t)) (timers (snd w))
      = Some t ->
      streamer_at (t_self t) w = Some s ->
      t_when t = Fin a -> ~ (a == 0)%Q ->
      let k := fetch_next (snd w) in
      let w1 := step (Timeout (t_id t)) w in
      let w2 := run (map Tick dts ++ [Resolved k record]) w1 in
      List.find (has_id k) (fetches (snd w1))
      = Some {| f_id := k; f_self := t_self t; f_name := Streamer.name s;
                f_offset := t_offset t;
                f_duration := Streamer.chunk_duration s (t_offset t);
                f_then := NextK (t_when t) (t_offset t) (t_output t) |} /\
      ac_started (snd w2)
      = ac_started (snd w) ++ [(ac_nodes (snd w), t_when t)] /\
      In (ac_nodes (snd w), Streamer.trackNode s) (ac_edges (snd w2))).
Proof.
  split.
  { intros i src when o output s e Hge. unfold Streamer.play, setTimeout.
    rewrite Hge. cbn [fst snd]. eexists. split; [reflexivity|].
    repeat split. }
  intros w t s record a dts Hr Hfind Hs Hwhen Ha k w1 w2.
  destruct (reachable_single w Hr _ s Hs) as [_ (T & _)].
  destruct (reachable_sound w Hr) as [_ (_ & _ & Oi)].
  assert (Hin : In t (timers (snd w))) by (apply find_some in Hfind; tauto).
  destruct (T t Hin eq_refl) as (Hst & _ & Hout).
  destruct w as [c e]. unfold streamer_at in Hs. cbn [fst snd] in *.
  assert (Hw1 : w1 = (c, Streamer.next (t_self t) (t_when t) (t_offset t)
                           (t_output t) s (drop_timer (t_id t) e))).
  { subst w1. cbn [step]. unfold fire. rewrite Hfind.
    unfold StreamCoordinator.at_streamer. rewrite Hs.
    rewrite list_insert_id by exact Hs. now rewrite set_streamers_same. }
  assert (Hf1 : List.find (has_id k) (fetches (snd w1))
                = Some {| f_id := k; f_self := t_self t;
                          f_name := Streamer.name s;
                          f_offset := t_offset t;
                          f_duration := Streamer.chunk_duration s (t_offset t);
                          f_then := NextK (t_when t) (t_offset t) (t_output t) |}).
  { rewrite Hw1. unfold Streamer.next, getAudioBuffer. cbn.
    rewrite (find_old k k (fetches e)); [|exact Oi | lia].
    cbn. unfold has_id. cbn. now rewrite Nat.eqb_refl. }
  split; [exact Hf1|].
  subst w2. rewrite run_app.
  rewrite Hw1 in Hf1 |- *.
  destruct (run_ticks dts c (Streamer.next (t_self t) (t_when t) (t_offset t)
                               (t_output t) s (drop_timer (t_id t) e)))
    as [now' ->].
  change (run [Resolved k record] ?x) with (step (Resolved k record) x).
  cbn [step]. unfold resolve.
  change (fetches (set_ac_currentTime now' ?x)) with (fetches x).
  cbn [snd] in Hf1. rewrite Hf1. cbn [f_then f_self].
  unfold StreamCoordinator.at_streamer. rewrite Hs.
  rewrite Hout, Hwhen.
  match goal with
  | |- context [Streamer.next_then ?i (Fin a) ?o _ ?r s ?e0] =>
      destruct (next_then_starts i a o r s e0 Hst Ha) as [A B];
      destruct (Streamer.next_then i (Fin a) o (Streamer.trackNode s) r s e0)
        as [s' e']
  end.
  cbn [fst snd] in *. split; [exact A | exact B].
Qed.

(** Witness of X21: the second chunk, the answer coming 0.3 seconds
    after the timer. *)
Lemma chunks_abut_witness :
  ac_started
    (snd (run (map Tick [0.3%Q]
               ++ [Resolved (fetch_next (snd one_track_playing)) (Fin 1)])
            (step (Timeout (t_id first_timer)) one_track_playing)))
  = ac_started (snd one_track_playing)
    ++ [(ac_nodes (snd one_track_playing), t_when first_timer)].
Proof.
  destruct (lookup_lt_is_Some_2
              (StreamCoordinator.streamers (fst one_track_playing)) 0)
    as [s Hs]; [vm_compute; lia|].
  destruct (proj2 chunks_abut one_track_playing first_timer s (Fin 1) 11%Q
              [0.3%Q]) as (_ & A & _).
  - unfold one_track_playing, one_track.
    apply reachable_run, reachable_run, reachable_boot.
  - vm_compute. reflexivity.
  - exact Hs.
  - reflexivity.
  - intros H. discriminate H.
  - exact A.
Defined.

(* ================================================================== *)
(** ** A track that cannot start *)

Lemma map_prime_barriers offset (l : list Streamer.t) (i : nat) (e : env) :
  barriers (snd (StreamCoordinator.map_prime offset i l e)) = barriers e.
Proof.
  revert i e. induction l as [|s l IH]; intros i e; simpl; [reflexivity|].
  pose proof (call_barriers i (Prime (Some offset)) s e) as Hp.
  cbn [call snd] in Hp.
  destruct (Streamer.prime i (Some offset) s e) as [p e1].
  specialize (IH (S i) e1).
  destruct (StreamCoordinator.map_prime offset (S i) l e1) as [ps e2].
  cbn [fst snd] in *. congruence.
Qed.

Lemma map_prime_started offset (l : list Streamer.t) (i : nat) (e : env) :
  ac_started (snd (StreamCoordinator.map_prime offset i l e)) = ac_started e.
Proof.
  revert i e. induction l as [|s l IH]; intros i e; simpl; [reflexivity|].
  assert (Hp : ac_started (snd (Streamer.prime i (Some offset) s e))
               = ac_started e).
  { unfold Streamer.prime, getAudioBuffer. cases; reflexivity. }
  destruct (Streamer.prime i (Some offset) s e) as [p e1].
  specialize (IH (S i) e1).
  destruct (StreamCoordinator.map_prime offset (S i) l e1) as [ps e2].
  cbn [fst snd] in *. congruence.
Qed.

Lemma awaited_blocked offset (l : list Streamer.t) (j : nat) (s : Streamer.t) :
  l !! j = Some s -> blocked offset s ->
  forall i e,
    StreamCoordinator.awaited (fst (StreamCoordinator.map_prime offset i l e))
    = None.
Proof.
  revert j. induction l as [|x l IH]; intros j Hj Hb i e; [discriminate Hj|].
  simpl. destruct j as [|j].
  - injection Hj as ->.
    assert (Hp : exists err, fst (Streamer.prime i (Some offset) s e) = Throw err).
    { unfold Streamer.prime. cbn [Streamer.default_offset].
      destruct (Streamer.ready s) eqn:Hrd; cbn [negb]; [|eauto].
      destruct Hb as [Hb|Hb]; [congruence|]. rewrite Hb. eauto. }
    destruct Hp as [err Hp].
    destruct (Streamer.prime i (Some offset) s e) as [p e1].
    cbn [fst] in Hp. subst p.
    destruct (StreamCoordinator.map_prime offset (S i) l e1). reflexivity.
  - destruct (Streamer.prime i (Some offset) x e) as [p e1].
    specialize (IH j Hj Hb (S i) e1).
    destruct (StreamCoordinator.map_prime offset (S i) l e1) as [ps e2].
    cbn [fst] in *. destruct p; cbn; [now rewrite IH | reflexivity].
Qed.

(** X22. [stream( offset )] on a coordinator at rest that has a track
    which is not loaded, or whose end is at or before the offset: the
    coordinator counts as playing from the offset, with its anchor as it
    was, but no streamer is changed, and whatever the browser does
    afterwards no streamer plays and no source is started. *)
Theorem stream_blocked (w : world) (offset : num) (j : nat) (s : Streamer.t)
    (l : list action) :
  at_rest w -> streamer_at j w = Some s -> blocked offset s ->
  forallb browser l = true ->
  let w1 := step (OnCoordinator (CStream (Some offset))) w in
  StreamCoordinator.stopped (fst w1) = false /\
  StreamCoordinator.startOffset (fst w1) = Some offset /\
  StreamCoordinator.startTime (fst w1) = StreamCoordinator.startTime (fst w) /\
  StreamCoordinator.streamers (fst w1) = StreamCoordinator.streamers (fst w) /\
  at_rest (run l w1) /\
  ac_started (snd (run l w1)) = ac_started (snd w1).
Proof.
  intros [Hb Hall] Hj Hblocked Hl w1.
  destruct w as [c e]. unfold streamer_at in *. cbn [fst snd] in *.
  assert (Hw1 : StreamCoordinator.stopped (fst w1) = false /\
                StreamCoordinator.startOffset (fst w1) = Some offset /\
                StreamCoordinator.startTime (fst w1)
                = StreamCoordinator.startTime c /\
                StreamCoordinator.streamers (fst w1)
                = StreamCoordinator.streamers c /\
                barriers (snd w1) = []).
  { subst w1. cbn [step ccall]. unfold StreamCoordinator.stream.
    destruct (if StreamCoordinator.garbageBuffer c then _ else _)
      as [c1 e1] eqn:Hg.
    assert (H1 : StreamCoordinator.streamers c1 = StreamCoordinator.streamers c /\
                 StreamCoordinator.startTime c1 = StreamCoordinator.startTime c /\
                 barriers e1 = []).
    { destruct (StreamCoordinator.garbageBuffer c); injection Hg as <- <-;
        cbn; auto. }
    destruct H1 as (Hs1 & Ht1 & Hb1).
    pose proof (awaited_blocked offset (StreamCoordinator.streamers c1) j s)
      as Haw.
    rewrite Hs1 in Haw. specialize (Haw Hj Hblocked 0 e1).
    pose proof (map_prime_barriers offset (StreamCoordinator.streamers c1) 0 e1)
      as Hmb.
    rewrite Hs1 in Hmb |- *.
    destruct (StreamCoordinator.map_prime offset 0 _ e1) as [ps e2].
    cbn [fst snd] in *.
    unfold StreamCoordinator.promise_all. rewrite Haw.
    unfold StreamCoordinator.settle. rewrite Hmb, Hb1. cbn. auto. }
  destruct Hw1 as (A & B & C & D & E).
  split; [exact A|]. split; [exact B|]. split; [exact C|]. split; [exact D|].
  apply run_at_rest; [|exact Hl].
  split; [exact E|]. intros k s' Hk. unfold streamer_at in Hk.
  rewrite D in Hk. exact (Hall k s' Hk).
Qed.

(** Witness of X22: tracks of three and five seconds, started at four
    seconds. *)
Lemma stream_blocked_witness :
  exists s, streamer_at 0 two_tracks_loaded = Some s /\
    blocked (Fin 4) s /\
    at_rest (run [Resolved 0 (Fin 1); Tick 1]
               (step (OnCoordinator (CStream (Some (Fin 4)))) two_tracks_loaded)).
Proof.
  destruct (lookup_lt_is_Some_2
              (StreamCoordinator.streamers (fst two_tracks_loaded)) 0)
    as [s Hs]; [vm_compute; lia|].
  assert (Hb : blocked (Fin 4) s).
  { vm_compute in Hs. injection Hs as <-. right. reflexivity. }
  exists s. split; [exact Hs|]. split; [exact Hb|].
  apply (stream_blocked two_tracks_loaded (Fin 4) 0 s
           [Resolved 0 (Fin 1); Tick 1]).
  - split; [reflexivity|].
    intros j s' Hj.
    destruct j as [|[|j]]; vm_compute in Hj;
      [injection Hj as <-; reflexivity
      |injection Hj as <-; reflexivity
      |discriminate Hj].
  - exact Hs.
  - exact Hb.
  - reflexivity.
Defined.

(* ================================================================== *)
(** ** Loading *)

Lemma load_answered (a : option (option num) * option (option num)) (d : Q)
    (s : Streamer.t) :
  answers a d ->
  Streamer.load false (fst a) (snd a) s
  = (Ok true, Streamer.set_loaded (Some (Fin d)) s).
Proof.
  unfold Streamer.load. intros [-> | [-> ->]]; reflexivity.
Qed.

Lemma max_list_fin (l : list (option num)) :
  l <> [] -> Forall (fun v => exists d, v = Some (Fin d)) l ->
  exists m, Num.max_list l = Fin m /\
            In (Some (Fin m)) l /\
            Forall (fun v => forall d, v = Some (Fin d) -> (d <= m)%Q) l.
Proof.
  induction l as [|v l IH]; intros Hne H; [congruence|].
  apply Forall_cons in H. destruct H as [[d ->] Hl].
  destruct l as [|v' l'].
  - exists d. simpl. repeat split; auto.
    constructor; [|constructor]. intros d' [= ->]. lra.
  - destruct (IH ltac:(discriminate) Hl) as (m & Hm & Hin & Hall).
    change (Num.max_list (Some (Fin d) :: v' :: l'))
      with (Num.max (Fin d) (Num.max_list (v' :: l'))).
    rewrite Hm. simpl. destruct (Qle_bool m d) eqn:Hle.
    + apply Qle_bool_iff in Hle. exists d. repeat split; [now left|].
      constructor; [intros d' [= ->]; lra|].
      eapply Forall_impl; [exact Hall|].
      intros a Ha d' Hd'. specialize (Ha d' Hd'). simpl in Ha. lra.
    + assert (Hn : ~ (m <= d)%Q).
      { intros H. apply Qle_bool_iff in H. congruence. }
      exists m. repeat split; [now right|].
      constructor; [intros d' [= ->]; lra | exact Hall].
Qed.

Lemma map_load_fulfilled store (l : list Streamer.t) (i : nat) :
  (forall j, j < length l -> exists d, answers (store (i + j)) d) ->
  forallb StreamCoordinator.fulfilled (fst (StreamCoordinator.map_load store i l))
  = true.
Proof.
  revert i. induction l as [|s l IH]; intros i H; simpl; [reflexivity|].
  destruct (H 0) as [d Hd]; [simpl; lia|]. rewrite Nat.add_0_r in Hd.
  rewrite (load_answered _ d s Hd).
  specialize (IH (S i)).
  destruct (StreamCoordinator.map_load store (S i) l) as [ps r'].
  cbn [fst forallb StreamCoordinator.fulfilled andb].
  apply IH. intros j Hj. destruct (H (S j)) as [d' Hd']; [simpl; lia|].
  exists d'. now replace (S i + j) with (i + S j) by lia.
Qed.

(** X23. [load()] on a coordinator with at least one streamer, the store
    or the network answering every track with a duration: the promise is
    fulfilled, every streamer is loaded with its duration, and the
    duration of the coordinator is the largest of them. *)
Theorem load_sets_duration store (c : StreamCoordinator.t) :
  StreamCoordinator.streamers c <> [] ->
  (forall j, j < length (StreamCoordinator.streamers c) ->
             exists d, answers (store j) d) ->
  exists c' m,
    StreamCoordinator.load store c = (Ok tt, c') /\
    StreamCoordinator.duration c' = Some (Fin m) /\
    length (StreamCoordinator.streamers c')
    = length (StreamCoordinator.streamers c) /\
    (forall j s', StreamCoordinator.streamers c' !! j = Some s' ->
       Streamer.ready s' = true /\
       exists d, answers (store j) d /\
                 Streamer.duration s' = Some (Fin d) /\ (d <= m)%Q) /\
    (exists j s', StreamCoordinator.streamers c' !! j = Some s' /\
                  Streamer.duration s' = Some (Fin m)).
Proof.
  intros Hne Hans. unfold StreamCoordinator.load.
  pose proof (map_load_fulfilled store (StreamCoordinator.streamers c) 0 Hans)
    as Hful.
  pose proof (map_load_length store (StreamCoordinator.streamers c) 0) as Hlen.
  pose proof (map_load_lookup store (StreamCoordinator.streamers c) 0) as Hlook.
  destruct (StreamCoordinator.map_load store 0 (StreamCoordinator.streamers c))
    as [ps l]. cbn [fst snd] in *. rewrite Hful.
  assert (Hl : forall j s', l !! j = Some s' ->
                 Streamer.ready s' = true /\
                 exists d, answers (store j) d /\
                           Streamer.duration s' = Some (Fin d)).
  { intros j s' Hj. destruct (Hlook j s' Hj) as (s & Hs & ->).
    destruct (Hans j) as [d Hd]; [now apply lookup_lt_Some in Hs|].
    cbn [Nat.add]. rewrite (load_answered _ d s Hd). cbn. eauto. }
  destruct (max_list_fin (map Streamer.duration l)) as (m & Hm & Hin & Hall).
  { destruct l; [|discriminate].
    destruct (StreamCoordinator.streamers c); [congruence | discriminate]. }
  { apply Forall_forall. intros v Hv. apply list_elem_of_In in Hv.
    apply in_map_iff in Hv. destruct Hv as (s' & <- & Hs').
    apply list_elem_of_In, list_elem_of_lookup in Hs'. destruct Hs' as [j Hj].
    destruct (Hl j s' Hj) as (_ & d & _ & Hd). eauto. }
  eexists. exists m. split; [reflexivity|]. cbn.
  split; [now rewrite Hm|]. split; [exact Hlen|]. split.
  - intros j s' Hj. destruct (Hl j s' Hj) as (Hr & d & Ha & Hd).
    split; [exact Hr|]. exists d. repeat split; auto.
    rewrite Forall_forall in Hall.
    apply (Hall (Streamer.duration s')); [|exact Hd].
    apply list_elem_of_In, in_map. apply list_elem_of_In.
    eapply list_elem_of_lookup_2. exact Hj.
  - apply in_map_iff in Hin. destruct Hin as (s' & Hd & Hs').
    apply list_elem_of_In, list_elem_of_lookup in Hs'. destruct Hs' as [j Hj].
    eauto.
Qed.

(** Witness of X23. *)
Lemma load_sets_duration_witness :
  exists c' m,
    StreamCoordinator.load (cached_two 3 5) (fst two_tracks_new) = (Ok tt, c') /\
    StreamCoordinator.duration c' = Some (Fin m).
Proof.
  destruct (load_sets_duration (cached_two 3 5) (fst two_tracks_new))
    as (c' & m & A & B & _).
  - vm_compute. discriminate.
  - intros j _. destruct j as [|j]; [exists 3%Q | exists 5%Q]; left; reflexivity.
  - exists c', m. auto.
Defined.

Lemma map_load_failed store (l : list Streamer.t) (i j : nat) :
  j < length l -> store (i + j) = (None, None) ->
  forallb StreamCoordinator.fulfilled (fst (StreamCoordinator.map_load store i l))
  = false.
Proof.
  revert i j. induction l as [|s l IH]; intros i j Hj Hst; simpl in *; [lia|].
  destruct j as [|j].
  - rewrite Nat.add_0_r in Hst. rewrite Hst. cbn.
    destruct (StreamCoordinator.map_load store (S i) l). reflexivity.
  - destruct (Streamer.load false _ _ s) as [p s'].
    specialize (IH (S i) j).
    destruct (StreamCoordinator.map_load store (S i) l) as [ps r'].
    cbn [fst forallb] in *. rewrite IH; [apply andb_false_r | lia |].
    now replace (S i + j) with (i + S j) by lia.
Qed.

(** X24. [load()] on a coordinator when the store and the network both
    fail one track: the promise is rejected and the duration of the
    coordinator stays as it was; a track both failed is unchanged, and
    every track that was answered is loaded nevertheless. *)
Theorem load_fails (store : nat -> option (option num) * option (option num))
    (c : StreamCoordinator.t) (j : nat) :
  j < length (StreamCoordinator.streamers c) -> store j = (None, None) ->
  exists c',
    StreamCoordinator.load store c = (Throw StoreError, c') /\
    StreamCoordinator.duration c' = StreamCoordinator.duration c /\
    (forall k s, StreamCoordinator.streamers c !! k = Some s ->
       exists s', StreamCoordinator.streamers c' !! k = Some s' /\
         (store k = (None, None) -> s' = s) /\
         (forall d, answers (store k) d ->
                    Streamer.ready s' = true /\
                    Streamer.duration s' = Some (Fin d))).
Proof.
  intros Hj Hst. unfold StreamCoordinator.load.
  pose proof (map_load_failed store (StreamCoordinator.streamers c) 0 j Hj Hst)
    as Hful.
  pose proof (map_load_length store (StreamCoordinator.streamers c) 0) as Hlen.
  pose proof (map_load_lookup store (StreamCoordinator.streamers c) 0) as Hlook.
  destruct (StreamCoordinator.map_load store 0 (StreamCoordinator.streamers c))
    as [ps l]. cbn [fst snd] in *. rewrite Hful.
  eexists. split; [reflexivity|]. cbn. split; [reflexivity|].
  intros k s Hk.
  destruct (lookup_lt_is_Some_2 l k) as [s' Hs'];
    [rewrite Hlen; now apply lookup_lt_Some in Hk|].
  exists s'. split; [exact Hs'|].
  destruct (Hlook k s' Hs') as (s0 & Hs0 & ->).
  rewrite Hk in Hs0. injection Hs0 as <-. cbn [Nat.add]. split.
  - intros ->. reflexivity.
  - intros d Hd. now rewrite (load_answered _ d s Hd).
Qed.

(** Witness of X24. *)
Lemma load_fails_witness :
  exists c',
    StreamCoordinator.load (cached_first 3) (fst two_tracks_new)
    = (Throw StoreError, c') /\
    StreamCoordinator.duration c' = StreamCoordinator.duration (fst two_tracks_new).
Proof.
  destruct (load_fails (cached_first 3) (fst two_tracks_new) 1)
    as (c' & A & B & _).
  - vm_compute. lia.
  - reflexivity.
  - exists c'. auto.
Defined.

(* ================================================================== *)
(** ** What the coordinator never assigns *)

Lemma barrier_then_fixed c0 (offset : num) (c : StreamCoordinator.t) (e : env) :
  fixed c0 c -> fixed c0 (fst (StreamCoordinator.barrier_then offset c e)).
Proof.
  intros H. unfold StreamCoordinator.barrier_then.
  set (c1 := match StreamCoordinator.startTime c with None => _ | Some _ => _ end).
  assert (H1 : fixed c0 c1).
  { subst c1. now destruct (StreamCoordinator.startTime c). }
  destruct (StreamCoordinator.forEach _ 0 _ e) as [res [l e1]]. exact H1.
Qed.

Lemma settle_fixed c0 (c : StreamCoordinator.t) (e : env) :
  fixed c0 c -> fixed c0 (fst (StreamCoordinator.settle c e)).
Proof.
  unfold StreamCoordinator.settle.
  generalize (set_barriers
                (List.filter (fun b => negb (StreamCoordinator.is_settled b))
                   (barriers e)) e).
  revert c.
  induction (List.filter StreamCoordinator.is_settled (barriers e)) as [|b l IH];
    intros c e1 H; simpl; [exact H|].
  pose proof (barrier_then_fixed c0 (b_offset b) c e1 H) as Hb.
  destruct (StreamCoordinator.barrier_then (b_offset b) c e1) as [c2 e2].
  now apply IH.
Qed.

Lemma cstop_fixed c0 (c : StreamCoordinator.t) (e : env) :
  fixed c0 c -> fixed c0 (fst (StreamCoordinator.stop c e)).
Proof.
  intros H. unfold StreamCoordinator.stop.
  destruct (StreamCoordinator.stopped c); [exact H|].
  destruct (StreamCoordinator.forEach _ 0 _ e) as [res [l e1]]. exact H.
Qed.

Lemma cstream_fixed c0 offset (c : StreamCoordinator.t) (e : env) :
  fixed c0 c -> fixed c0 (fst (StreamCoordinator.stream offset c e)).
Proof.
  intros H. unfold StreamCoordinator.stream.
  destruct (if StreamCoordinator.garbageBuffer c then _ else _)
    as [c1 e1] eqn:Hg.
  assert (H1 : fixed c0 c1).
  { destruct (StreamCoordinator.garbageBuffer c); injection Hg as <- _;
      exact H. }
  destruct (StreamCoordinator.map_prime _ 0 _ e1) as [ps e2].
  apply settle_fixed. exact H1.
Qed.

Lemma step_fixed c0 (a : action) (w : world) :
  fixed c0 (fst w) -> fixed c0 (fst (step a w)).
Proof.
  destruct w as [c e]. simpl. intros H.
  destruct a as [dt|i m|m|id record|id|id|src]; simpl.
  - now destruct (Qle_bool 0 dt).
  - destruct (at_streamer_fields i (call i m) c e) as [l ->]. exact H.
  - destruct m as [o| |o| |store| |id fileName]; simpl.
    + now apply cstream_fixed.
    + now apply cstop_fixed.
    + unfold StreamCoordinator.seek.
      destruct (negb (StreamCoordinator.stopped c)); simpl; [|exact H].
      pose proof (cstop_fixed c0 c e H) as Hs.
      destruct (StreamCoordinator.stop c e) as [c1 e1].
      now apply cstream_fixed.
    + unfold StreamCoordinator.currentTime.
      destruct (StreamCoordinator.stopped c); simpl; [exact H|].
      destruct (Num.ge _ _); simpl; [now apply cstop_fixed | exact H].
    + unfold StreamCoordinator.load.
      destruct (StreamCoordinator.map_load store 0 _) as [ps l].
      now destruct (forallb _ ps).
    + unfold StreamCoordinator.createStream.
      destruct (Streamer.constructor None e) as [[s|err] e1];
        now destruct (StreamCoordinator.playbackMode c).
    + unfold StreamCoordinator.addClipToStream, StreamCoordinator.findStreamer.
      destruct (StreamCoordinator.index_of id 0 _) as [i|].
      * match goal with
        | |- context [StreamCoordinator.at_streamer i ?f c e] =>
            destruct (at_streamer_fields i f c e) as [l ->]
        end. exact H.
      * now destruct (Streamer.constructor None e).
  - unfold resolve. destruct (List.find _ _) as [f|]; simpl; [|exact H].
    destruct (f_then f).
    + pose proof (at_streamer_fields (f_self f)
                    (Streamer.prime_resume offset record) c (drop_fetch id e))
        as [l Hl].
      destruct (StreamCoordinator.at_streamer _ _ c _) as [c1 e2].
      simpl in Hl. subst c1. now apply settle_fixed.
    + match goal with
      | |- context [StreamCoordinator.at_streamer ?i ?f c ?e0] =>
          destruct (at_streamer_fields i f c e0) as [l ->]
      end. exact H.
  - unfold reject. destruct (List.find _ _) as [f|]; simpl; [|exact H].
    now destruct (f_then f).
  - unfold fire. destruct (List.find _ _) as [t|]; simpl; [|exact H].
    match goal with
    | |- context [StreamCoordinator.at_streamer ?i ?f c ?e0] =>
        destruct (at_streamer_fields i f c e0) as [l ->]
    end. exact H.
  - unfold ended. destruct (List.find _ _) as [[src' self]|]; simpl; [|exact H].
    match goal with
    | |- context [StreamCoordinator.at_streamer ?i ?f c ?e0] =>
        destruct (at_streamer_fields i f c e0) as [l ->]
    end. exact H.
Qed.

Lemma step_no_streamers (a : action) (w : world) :
  StreamCoordinator.playbackMode (fst w) = StreamCoordinator.OtherMode ->
  StreamCoordinator.streamers (fst w) = [] ->
  StreamCoordinator.streamers (fst (step a w)) = [].
Proof.
  intros Hm Hl.
  assert (Hcase : a = OnCoordinator CreateStream \/
                  a <> OnCoordinator CreateStream).
  { destruct a as [| |m| | | |]; try (right; discriminate).
    destruct m; try (right; discriminate). now left. }
  destruct Hcase as [->|Ha].
  - destruct w as [c e]. cbn [fst snd step ccall] in *.
    unfold StreamCoordinator.createStream. now rewrite Hm.
  - pose proof (step_length_same a w Ha) as Hlen. rewrite Hl in Hlen.
    now destruct (StreamCoordinator.streamers (fst (step a w))).
Qed.

(** X25. No task assigns [ready] or [playbackMode] of a coordinator:
    [ready] is false and the mode is the one the coordinator was built
    with in every world, and a coordinator built with an unknown mode
    never has a streamer. *)
Theorem coordinator_never_ready (m : StreamCoordinator.mode) (l : list action) :
  let w := run l (boot m) in
  StreamCoordinator.ready (fst w) = false /\
  StreamCoordinator.playbackMode (fst w) = m /\
  (m = StreamCoordinator.OtherMode -> StreamCoordinator.streamers (fst w) = []).
Proof.
  cbn zeta.
  assert (H : forall w,
             fixed (StreamCoordinator.constructor m) (fst w) ->
             (m = StreamCoordinator.OtherMode ->
              StreamCoordinator.streamers (fst w) = []) ->
             fixed (StreamCoordinator.constructor m) (fst (run l w)) /\
             (m = StreamCoordinator.OtherMode ->
              StreamCoordinator.streamers (fst (run l w)) = [])).
  { induction l as [|a l IH]; intros w Hf Hn; [auto|].
    change (run (a :: l) w) with (run l (step a w)).
    apply IH; [now apply step_fixed|].
    intros Hm. apply step_no_streamers; [|now apply Hn].
    destruct Hf as [_ Hf]. rewrite Hf, Hm. reflexivity. }
  destruct (H (boot m)) as [[Hr Hm] Hn].
  - split; reflexivity.
  - reflexivity.
  - split; [exact Hr | split; [exact Hm | exact Hn]].
Qed.

